(** * Kinematics core of the robotics toolbox: a shallow embedding

    This development embeds the numerical kernels of
    [roboticstoolbox/core/fknm.c] and [roboticstoolbox/core/methods.cpp]
    and states the properties of the kinematics specification over them.

    Modelling conventions.
    - A C [double] is a real number: arithmetic is exact, so rounding,
      infinities and NaN are outside the model.
    - A 4x4 pose buffer ([npy_float64 *] to 16 doubles, row-major) is the
      record [Mat4]; [M.[k]] reads cell [k] and [M.[k <- v]] writes it.
    - A buffer whose size depends on the joint count (the configuration
      [q], a Jacobian, a Hessian, a 3- or 6-vector) is a function from
      [int] offsets to reals, [buf], updated with [upd].
    - A C function that writes into an output buffer takes the old content
      of that buffer and returns its new content, in the order of the C
      parameters. *)

From Stdlib Require Import Reals Lra Lia ZArith List Bool RNsatz.
Import ListNotations.
Local Open Scope R_scope.

(** * The code *)

(** ** Buffers *)

Record Mat4 : Set := mkMat4 {
  e0 : R; e1 : R; e2 : R; e3 : R;
  e4 : R; e5 : R; e6 : R; e7 : R;
  e8 : R; e9 : R; e10 : R; e11 : R;
  e12 : R; e13 : R; e14 : R; e15 : R }.

(** Cell [k] of a pose buffer; offsets are C [int]s.  Offsets outside
    0..15 are outside the buffer: they read as 0 and writes to them are
    dropped. *)
Definition get (M : Mat4) (k : Z) : R :=
  match k with
  | 0 => e0 M | 1 => e1 M | 2 => e2 M | 3 => e3 M
  | 4 => e4 M | 5 => e5 M | 6 => e6 M | 7 => e7 M
  | 8 => e8 M | 9 => e9 M | 10 => e10 M | 11 => e11 M
  | 12 => e12 M | 13 => e13 M | 14 => e14 M | 15 => e15 M
  | _ => 0%R
  end%Z.

Definition tabulate (f : Z -> R) : Mat4 :=
  (mkMat4 (f 0) (f 1) (f 2) (f 3) (f 4) (f 5) (f 6) (f 7)
          (f 8) (f 9) (f 10) (f 11) (f 12) (f 13) (f 14) (f 15))%Z.

Definition set (M : Mat4) (k : Z) (v : R) : Mat4 :=
  tabulate (fun i => if Z.eqb i k then v else get M i).

Notation "M .[ k ]" := (get M k%Z)
  (at level 1, left associativity, format "M .[ k ]").
Notation "M .[ k <- v ]" := (set M k%Z v)
  (at level 1, left associativity, format "M .[ k  <-  v ]").

(** [PyMem_RawCalloc(16, sizeof(npy_float64))]: sixteen zeroed doubles. *)
Definition calloc16 : Mat4 := tabulate (fun _ => 0).

(** Buffers of run-time size, addressed by [int] offsets. *)
Definition buf : Type := Z -> R.

Definition upd (b : buf) (k : Z) (v : R) : buf :=
  fun x => if Z.eqb x k then v else b x.

Notation "b .{ k }" := (b k%Z)
  (at level 1, left associativity, only parsing).

(** [PyMem_RawCalloc(n, sizeof(npy_float64))] for a run-time [n]. *)
Definition calloc : buf := fun _ => 0.

(** A 3-vector. *)
Definition Vec3 : Type := (R * R * R)%type.

(** ** Loops *)

(** [for (i = lo; i < hi; i++) body] on a state of type [St]: [for_up]
    runs [cnt] iterations from counter value [i]. *)
Fixpoint for_up {St : Type} (cnt : nat) (i : Z)
    (body : Z -> St -> St) (s : St) : St :=
  match cnt with
  | O => s
  | S c => for_up c (i + 1)%Z body (body i s)
  end.

Definition for_range {St : Type} (lo hi : Z)
    (body : Z -> St -> St) (s : St) : St :=
  for_up (Z.to_nat (hi - lo)) lo body s.

(** ** Transform algebra (fknm.c) *)

(** [void copy(npy_float64 *A, npy_float64 *B)]: copy [A] into [B]. *)
Definition copy (A B : Mat4) : Mat4 :=
  let B := B.[0 <- A.[0]] in
  let B := B.[1 <- A.[1]] in
  let B := B.[2 <- A.[2]] in
  let B := B.[3 <- A.[3]] in
  let B := B.[4 <- A.[4]] in
  let B := B.[5 <- A.[5]] in
  let B := B.[6 <- A.[6]] in
  let B := B.[7 <- A.[7]] in
  let B := B.[8 <- A.[8]] in
  let B := B.[9 <- A.[9]] in
  let B := B.[10 <- A.[10]] in
  let B := B.[11 <- A.[11]] in
  let B := B.[12 <- A.[12]] in
  let B := B.[13 <- A.[13]] in
  let B := B.[14 <- A.[14]] in
  let B := B.[15 <- A.[15]] in
  B.

(** [void mult(npy_float64 *A, npy_float64 *B, npy_float64 *C)], with [C]
    a buffer distinct from [A] and [B]. *)
Definition mult (A B C : Mat4) : Mat4 :=
  let N := 4%Z in
  for_range 0 N (fun i C =>
    for_range 0 N (fun j C =>
      let num :=
        for_range 0 N
          (fun k num => num + A.[i * N + k] * B.[k * N + j]) 0 in
      C.[i * N + j <- num]) C) C.

(** [mult(A, B, A)]: the same loops when the output buffer is the left
    operand itself, so that later rows read cells already overwritten. *)
Definition mult_alias (A B : Mat4) : Mat4 :=
  let N := 4%Z in
  for_range 0 N (fun i A =>
    for_range 0 N (fun j A =>
      let num :=
        for_range 0 N
          (fun k num => num + A.[i * N + k] * B.[k * N + j]) 0 in
      A.[i * N + j <- num]) A) A.

Definition rx (data : Mat4) (eta : R) : Mat4 :=
  let ct := cos eta in
  let st := sin eta in
  data.[0 <- 1].[1 <- 0].[2 <- 0].[3 <- 0]
      .[4 <- 0].[5 <- ct].[6 <- - st].[7 <- 0]
      .[8 <- 0].[9 <- st].[10 <- ct].[11 <- 0]
      .[12 <- 0].[13 <- 0].[14 <- 0].[15 <- 1].

Definition ry (data : Mat4) (eta : R) : Mat4 :=
  let ct := cos eta in
  let st := sin eta in
  data.[0 <- ct].[1 <- 0].[2 <- st].[3 <- 0]
      .[4 <- 0].[5 <- 1].[6 <- 0].[7 <- 0]
      .[8 <- - st].[9 <- 0].[10 <- ct].[11 <- 0]
      .[12 <- 0].[13 <- 0].[14 <- 0].[15 <- 1].

Definition rz (data : Mat4) (eta : R) : Mat4 :=
  let ct := cos eta in
  let st := sin eta in
  data.[0 <- ct].[1 <- - st].[2 <- 0].[3 <- 0]
      .[4 <- st].[5 <- ct].[6 <- 0].[7 <- 0]
      .[8 <- 0].[9 <- 0].[10 <- 1].[11 <- 0]
      .[12 <- 0].[13 <- 0].[14 <- 0].[15 <- 1].

Definition tx (data : Mat4) (eta : R) : Mat4 :=
  data.[0 <- 1].[1 <- 0].[2 <- 0].[3 <- eta]
      .[4 <- 0].[5 <- 1].[6 <- 0].[7 <- 0]
      .[8 <- 0].[9 <- 0].[10 <- 1].[11 <- 0]
      .[12 <- 0].[13 <- 0].[14 <- 0].[15 <- 1].

Definition ty (data : Mat4) (eta : R) : Mat4 :=
  data.[0 <- 1].[1 <- 0].[2 <- 0].[3 <- 0]
      .[4 <- 0].[5 <- 1].[6 <- 0].[7 <- eta]
      .[8 <- 0].[9 <- 0].[10 <- 1].[11 <- 0]
      .[12 <- 0].[13 <- 0].[14 <- 0].[15 <- 1].

Definition tz (data : Mat4) (eta : R) : Mat4 :=
  data.[0 <- 1].[1 <- 0].[2 <- 0].[3 <- 0]
      .[4 <- 0].[5 <- 1].[6 <- 0].[7 <- 0]
      .[8 <- 0].[9 <- 0].[10 <- 1].[11 <- eta]
      .[12 <- 0].[13 <- 0].[14 <- 0].[15 <- 1].

Definition _eye4 (data : Mat4) : Mat4 :=
  data.[0 <- 1].[1 <- 0].[2 <- 0].[3 <- 0]
      .[4 <- 0].[5 <- 1].[6 <- 0].[7 <- 0]
      .[8 <- 0].[9 <- 0].[10 <- 1].[11 <- 0]
      .[12 <- 0].[13 <- 0].[14 <- 0].[15 <- 1].

(** [void _inv(npy_float64 *m, npy_float64 *inv)], with [inv] distinct
    from [m]; the translation cells read the rotation cells of [inv]
    written just before. *)
Definition _inv (m inv : Mat4) : Mat4 :=
  let inv := inv.[0 <- m.[0]] in
  let inv := inv.[1 <- m.[4]] in
  let inv := inv.[2 <- m.[8]] in
  let inv := inv.[4 <- m.[1]] in
  let inv := inv.[5 <- m.[5]] in
  let inv := inv.[6 <- m.[9]] in
  let inv := inv.[8 <- m.[2]] in
  let inv := inv.[9 <- m.[6]] in
  let inv := inv.[10 <- m.[10]] in
  let inv := inv.[3 <- - (inv.[0] * m.[3] + inv.[1] * m.[7] + inv.[2] * m.[11])] in
  let inv := inv.[7 <- - (inv.[4] * m.[3] + inv.[5] * m.[7] + inv.[6] * m.[11])] in
  let inv := inv.[11 <- - (inv.[8] * m.[3] + inv.[9] * m.[7] + inv.[10] * m.[11])] in
  let inv := inv.[12 <- 0] in
  let inv := inv.[13 <- 0] in
  let inv := inv.[14 <- 0] in
  let inv := inv.[15 <- 1] in
  inv.

(** ** Matrices as mathematical objects *)

(** The 4x4 matrix product, written out entry by entry. *)
Definition mprod (A B : Mat4) : Mat4 :=
  tabulate (fun idx =>
    let i := (idx / 4)%Z in
    let j := (idx mod 4)%Z in
    A.[i * 4 + 0] * B.[0 * 4 + j] + A.[i * 4 + 1] * B.[1 * 4 + j]
    + A.[i * 4 + 2] * B.[2 * 4 + j] + A.[i * 4 + 3] * B.[3 * 4 + j]).

Definition I4 : Mat4 :=
  mkMat4 1 0 0 0
         0 1 0 0
         0 0 1 0
         0 0 0 1.

Definition Zero4 : Mat4 :=
  mkMat4 0 0 0 0
         0 0 0 0
         0 0 0 0
         0 0 0 0.

(** Bottom row (0, 0, 0, 1) of a homogeneous transform. *)
Definition homogeneous (M : Mat4) : Prop :=
  M.[12] = 0 /\ M.[13] = 0 /\ M.[14] = 0 /\ M.[15] = 1.

(** Columns of the rotation block are orthonormal: Rt R = I. *)
Definition rot_cols_orthonormal (M : Mat4) : Prop :=
  M.[0] * M.[0] + M.[4] * M.[4] + M.[8] * M.[8] = 1 /\
  M.[1] * M.[1] + M.[5] * M.[5] + M.[9] * M.[9] = 1 /\
  M.[2] * M.[2] + M.[6] * M.[6] + M.[10] * M.[10] = 1 /\
  M.[0] * M.[1] + M.[4] * M.[5] + M.[8] * M.[9] = 0 /\
  M.[0] * M.[2] + M.[4] * M.[6] + M.[8] * M.[10] = 0 /\
  M.[1] * M.[2] + M.[5] * M.[6] + M.[9] * M.[10] = 0.

(** Rows of the rotation block are orthonormal: R Rt = I. *)
Definition rot_rows_orthonormal (M : Mat4) : Prop :=
  M.[0] * M.[0] + M.[1] * M.[1] + M.[2] * M.[2] = 1 /\
  M.[4] * M.[4] + M.[5] * M.[5] + M.[6] * M.[6] = 1 /\
  M.[8] * M.[8] + M.[9] * M.[9] + M.[10] * M.[10] = 1 /\
  M.[0] * M.[4] + M.[1] * M.[5] + M.[2] * M.[6] = 0 /\
  M.[0] * M.[8] + M.[1] * M.[9] + M.[2] * M.[10] = 0 /\
  M.[4] * M.[8] + M.[5] * M.[9] + M.[6] * M.[10] = 0.

(** A rigid transform: homogeneous with an orthonormal rotation block. *)
Definition rigid (M : Mat4) : Prop :=
  homogeneous M /\ rot_cols_orthonormal M.

(** ** Pointers into buffers *)

(** [b + off] as a pointer, seen as the buffer it addresses. *)
Definition ptr (b : buf) (off : Z) : buf :=
  fun k => b (off + k)%Z.

(** The buffer [b] after the cells addressed through [b + off] have
    become [view]. *)
Definition unptr (view : buf) (off : Z) : buf :=
  fun x => view (x - off)%Z.

(** ** Vector helpers (fknm.c) *)

(** [void _cross(npy_float64 *a, npy_float64 *b, npy_float64 *ret, int n)]:
    the cross product of two columns of stride [n], written with the same
    stride.  [ret] addresses a buffer distinct from those of [a] and [b]
    (a Jacobian and a Hessian at the call sites). *)
Definition _cross (a b ret : buf) (n : Z) : buf :=
  let ret := upd ret 0 (a.{1 * n} * b.{2 * n} - a.{2 * n} * b.{1 * n}) in
  let ret := upd ret (1 * n) (a.{2 * n} * b.{0} - a.{0} * b.{2 * n}) in
  let ret := upd ret (2 * n) (a.{0} * b.{1 * n} - a.{1 * n} * b.{0}) in
  ret.

(** [double _norm(npy_float64 *a, int n)]; [pow(x, 2)] is the square. *)
Definition _norm (a : buf) (n : Z) : R :=
  let sum := 0 in
  let sum := for_range 0 n (fun i sum => sum + a.{i} ^ 2) sum in
  sqrt sum.

(** [double _trace(npy_float64 *a, int n)], for a square n x n matrix. *)
Definition _trace (a : buf) (n : Z) : R :=
  let sum := 0 in
  let sum := for_range 0 n (fun i sum => sum + a.{i * n + i}) sum in
  sum.

(** ** C library functions *)

(** [atan2(y, x)] of math.h on finite arguments: the angle of the point
    (x, y), in (-pi, pi]. *)
Definition atan2 (y x : R) : R :=
  if Rlt_dec 0 x then atan (y / x)
  else if Rlt_dec x 0 then
    if Rle_dec 0 y then atan (y / x) + PI else atan (y / x) - PI
  else if Rlt_dec 0 y then PI / 2
  else if Rlt_dec y 0 then - (PI / 2)
  else 0.

(** [M_PI_2] of math.h. *)
Definition M_PI_2 : R := PI / 2.

(** ** Pose error (fknm.c) *)

(** [void _angle_axis(npy_float64 *Te, npy_float64 *Tep, npy_float64 *e)].
    [R] is a zeroed buffer of 9 doubles; the local array [li] is written
    in full before it is read. *)
Definition _angle_axis (Te Tep : Mat4) (e : buf) : buf :=
  let R := calloc in
  let li := calloc in
  let e := upd e 0 (Tep.[0 * 4 + 3] - Te.[0 * 4 + 3]) in
  let e := upd e 1 (Tep.[1 * 4 + 3] - Te.[1 * 4 + 3]) in
  let e := upd e 2 (Tep.[2 * 4 + 3] - Te.[2 * 4 + 3]) in
  let R :=
    for_range 0 3 (fun i R =>
      for_range 0 3 (fun j R =>
        let num :=
          for_range 0 3
            (fun k num => num + Tep.[i * 4 + k] * Te.[j * 4 + k]) 0 in
        upd R (i * 3 + j) num) R) R in
  let li := upd li 0 (R.{2 * 3 + 1} - R.{1 * 3 + 2}) in
  let li := upd li 1 (R.{0 * 3 + 2} - R.{2 * 3 + 0}) in
  let li := upd li 2 (R.{1 * 3 + 0} - R.{0 * 3 + 1}) in
  let li_norm := _norm li 3 in
  let R_tr := _trace R 3 in
  if Rlt_dec li_norm 1e-6 then
    if Rgt_dec R_tr 0 then
      let e := upd e 3 0 in
      let e := upd e 4 0 in
      let e := upd e 5 0 in
      e
    else
      let e := upd e 3 (M_PI_2 * (R.{0} + 1)) in
      let e := upd e 4 (M_PI_2 * (R.{4} + 1)) in
      let e := upd e 5 (M_PI_2 * (R.{8} + 1)) in
      e
  else
    let ang := atan2 li_norm (R_tr - 1) in
    let e := upd e 3 (ang * li.{0} / li_norm) in
    let e := upd e 4 (ang * li.{1} / li_norm) in
    let e := upd e 5 (ang * li.{2} / li_norm) in
    e.

(** ** Hessian (the same text in fknm.c and methods.cpp) *)

(** [void _ETS_hessian(int n, npy_float64 *J, npy_float64 *H)]: [J] is
    6 x n and [H] is n x 6 x n, both row-major; [H] is a buffer of its own
    (the wrappers allocate it just before the call). *)
Definition _ETS_hessian (n : Z) (J H : buf) : buf :=
  let n2 := (2 * n)%Z in
  let n3 := (3 * n)%Z in
  let n4 := (4 * n)%Z in
  let n5 := (5 * n)%Z in
  for_range 0 n (fun j H =>
    let a := (j * 6 * n)%Z in
    for_range j n (fun i H =>
      let b := (i * 6 * n)%Z in
      let H :=
        unptr (_cross (ptr J (j + n3)) (ptr J i) (ptr H (a + i)) n)
              (a + i) in
      let H :=
        unptr (_cross (ptr J (j + n3)) (ptr J (i + n3))
                      (ptr H (a + i + n3)) n)
              (a + i + n3) in
      if negb (i =? j)%Z then
        let H := upd H (b + j) H.{a + i} in
        let H := upd H (b + j + n) H.{a + i + n} in
        let H := upd H (b + j + n2) H.{a + i + n2} in
        let H := upd H (b + j + n3) 0 in
        let H := upd H (b + j + n4) 0 in
        let H := upd H (b + j + n5) 0 in
        H
      else H) H) H.

(** ** Elementary transforms *)

(** The joint type code passed to [ET_init] / [link_init]: 0..5 select
    [rx], [ry], [rz], [tx], [ty], [tz]; any other code leaves the [op]
    pointer unset, so only these six occur in a usable descriptor. *)
Inductive JointType : Set := JRx | JRy | JRz | JTx | JTy | JTz.

Definition axis_code (a : JointType) : Z :=
  match a with
  | JRx => 0 | JRy => 1 | JRz => 2 | JTx => 3 | JTy => 4 | JTz => 5
  end%Z.

(** The function pointer stored by [ET_init] for each joint type. *)
Definition op_of (a : JointType) : Mat4 -> R -> Mat4 :=
  match a with
  | JRx => rx | JRy => ry | JRz => rz | JTx => tx | JTy => ty | JTz => tz
  end.

(** [struct ET]: [isjoint], [isflip], [jindex], [axis], the static
    transform [T]; [op] is determined by [axis]. *)
Record ET : Set := mkET {
  et_isjoint : bool;
  et_isflip : bool;
  et_jindex : Z;
  et_axis : JointType;
  et_T : Mat4 }.

Definition et_op (et : ET) : Mat4 -> R -> Mat4 := op_of (et_axis et).

(** fknm.c, [void _ET_T(ET *et, npy_float64 *ret, double eta)]. *)
Definition _ET_T (et : ET) (ret : Mat4) (eta : R) : Mat4 :=
  if negb (et_isjoint et) then copy (et_T et) ret
  else
    let eta := if et_isflip et then - eta else eta in
    et_op et ret eta.

(** ** Links and shapes *)

(** One attached shape of a link: entry [i] of the arrays [shape_base],
    [shape_wT], [shape_sT] (4x4 buffers) and [shape_sq] (4 doubles). *)
Record Shape : Type := mkShape {
  shape_base : Mat4;
  shape_wT : Mat4;
  shape_sT : Mat4;
  shape_sq : buf }.

(** [struct Link]; [parent] is the address of another link or null,
    [n_shapes] is the length of [link_shapes], [op] is determined by
    [axis].  The buffers of a link and of its shapes are separate arrays. *)
Record Link : Type := mkLink {
  link_isjoint : bool;
  link_isflip : bool;
  link_jindex : Z;
  link_axis : JointType;
  link_A : Mat4;
  link_fk : Mat4;
  link_parent : option nat;
  link_shapes : list Shape }.

(** The links in memory, by address. *)
Definition LinkStore : Type := nat -> Link.

Definition store_link (st : LinkStore) (id : nat) (l : Link) : LinkStore :=
  fun x => if Nat.eqb x id then l else st x.

(** ** Lists of capsules *)

(** [for (i = i0; ...; i++) { x = next(l); body }] over the elements of a
    list, with the loop counter. *)
Fixpoint for_each {A St : Type} (l : list A) (i : Z)
    (body : Z -> A -> St -> St) (s : St) : St :=
  match l with
  | [] => s
  | x :: l' => for_each l' (i + 1)%Z body (body i x s)
  end.

(** ** Eigen objects (methods.cpp) *)

(** [M(i, j)] of a 4x4 Eigen object, entry (i, j) of the pose it holds. *)
Definition at4 (M : Mat4) (i j : Z) : R := M.[i * 4 + j].

(** [M(Eigen::seq(0, 2), c)] and [M(r, Eigen::seq(0, 2))]. *)
Definition col012 (M : Mat4) (c : Z) : Vec3 :=
  (at4 M 0 c, at4 M 1 c, at4 M 2 c).

Definition row012 (M : Mat4) (r : Z) : Vec3 :=
  (at4 M r 0, at4 M r 1, at4 M r 2).

Definition vscale (v : Vec3) (s : R) : Vec3 :=
  let '(x, y, z) := v in (x * s, y * s, z * s).

Definition vsub (v w : Vec3) : Vec3 :=
  let '(x, y, z) := v in
  let '(x', y', z') := w in
  (x - x', y - y', z - z').

(** Modelled from the spec: the type [MapMatrixJc] is declared in a header
    that is not part of the sources.  It is the 6 x n Jacobian of
    section 3, read here as [eJ r j] for [eJ(r, j)]. *)
Definition jmat : Type := Z -> Z -> R.

Definition set_entry (eJ : jmat) (r j : Z) (v : R) : jmat :=
  fun r' j' => if (r' =? r)%Z && (j' =? j)%Z then v else eJ r' j'.

(** [eJ(Eigen::seq(r0, r0 + 2), j) = v] *)
Definition set_rows (eJ : jmat) (r0 j : Z) (v : Vec3) : jmat :=
  let '(x, y, z) := v in
  set_entry (set_entry (set_entry eJ r0 j x) (r0 + 1) j y) (r0 + 2) j z.

(** ** While loops *)

(** [while (cond) body] run for at most [fuel] iterations: [Some s] is the
    state in which the loop exits, [None] means that the guard still holds
    after [fuel] iterations. *)
Fixpoint while_loop {St : Type} (fuel : nat) (cond : St -> bool)
    (body : St -> St) (s : St) : option St :=
  match fuel with
  | O => None
  | S f => if cond s then while_loop f cond body (body s) else Some s
  end.

(** The variables of [_ETS_IK] that are live across its loop: the
    configuration [q], the achieved pose [Te], the error [e], the squared
    error [E] (fknm.c only), and the [int]s [arrived] and [iter]. *)
Record IKState : Type := mkIK {
  ik_q : buf;
  ik_Te : Mat4;
  ik_e : buf;
  ik_E : R;
  ik_arrived : Z;
  ik_iter : Z }.

(** [arrived == 0 && iter < 500] *)
Definition IK_cond (s : IKState) : bool :=
  (ik_arrived s =? 0)%Z && (ik_iter s <? 500)%Z.

(** The state at the loop head: [Te] and [e] are zeroed buffers,
    [arrived = 0, iter = 0]; [E] is declared without a value and written
    before it is read. *)
Definition IK_init (q : buf) : IKState :=
  mkIK q calloc16 calloc 0 0 0.

(** ** Chain forward kinematics and the inverse-kinematics iterator *)

Module Fknm.

(** fknm.c, [_ETS_fkine]: [ets] is the Python list of ET capsules, a null
    [base] or [tool] is [None].  The loop body evaluates the element into
    [ret] and then copies [temp] into [current]; the product of [current]
    and [ret] into [temp] is commented out in the source. *)
Definition _ETS_fkine (ets : list ET) (q : buf)
    (base tool : option Mat4) (ret : Mat4) : Mat4 :=
  let temp := calloc16 in
  let current := calloc16 in
  let current :=
    match base with
    | Some base => copy base current
    | None => _eye4 current
    end in
  let '(ret, current) :=
    fold_left
      (fun '(ret, current) et =>
         let ret := _ET_T et ret (q (et_jindex et)) in
         let current := copy temp current in
         (ret, current))
      ets (ret, current) in
  match tool with
  | Some tool => mult current tool ret
  | None => copy current ret
  end.

(** fknm.c, the body of the loop of [_ETS_IK]. *)
Definition IK_body (ets : list ET) (Tep : Mat4) (s : IKState) : IKState :=
  let Te := _ETS_fkine ets (ik_q s) None None (ik_Te s) in
  let e := _angle_axis Te Tep (ik_e s) in
  let E :=
    0.5 * (e.{0} * e.{0} + e.{1} * e.{1} + e.{2} * e.{2}
           + e.{3} * e.{3} + e.{4} * e.{4} + e.{5} * e.{5}) in
  mkIK (ik_q s) Te e E (ik_arrived s) (ik_iter s).

(** fknm.c, [_ETS_IK]: the buffers [a] and [b] are filled before the loop
    and never read; nothing is written to [ret].  The result is the
    content of [ret] once the loop has exited. *)
Definition _ETS_IK (fuel : nat) (ets : list ET) (n : Z) (q : buf)
    (Tep : Mat4) (ret : buf) : option buf :=
  match while_loop fuel IK_cond (IK_body ets Tep) (IK_init q) with
  | Some _ => Some ret
  | None => None
  end.

(** fknm.c, [_ETS_jacob0]: the assignments of the branch for each joint
    axis. *)
Definition jacob0_axis (axis : JointType) (n j : Z) (U temp : Mat4)
    (J : buf) : buf :=
  match axis with
  | JRx =>
      let J := upd J (0 * n + j)
                 (U.[0 * 4 + 2] * temp.[1 * 4 + 3]
                  - U.[0 * 4 + 1] * temp.[2 * 4 + 3]) in
      let J := upd J (1 * n + j)
                 (U.[1 * 4 + 2] * temp.[1 * 4 + 3]
                  - U.[1 * 4 + 1] * temp.[2 * 4 + 3]) in
      let J := upd J (2 * n + j)
                 (U.[2 * 4 + 2] * temp.[1 * 4 + 3]
                  - U.[2 * 4 + 1] * temp.[2 * 4 + 3]) in
      let J := upd J (3 * n + j) U.[0 * 4 + 0] in
      let J := upd J (4 * n + j) U.[1 * 4 + 0] in
      let J := upd J (5 * n + j) U.[2 * 4 + 0] in
      J
  | JRy =>
      let J := upd J (0 * n + j)
                 (U.[0 * 4 + 0] * temp.[2 * 4 + 3]
                  - U.[0 * 4 + 2] * temp.[0 * 4 + 3]) in
      let J := upd J (1 * n + j)
                 (U.[1 * 4 + 0] * temp.[2 * 4 + 3]
                  - U.[1 * 4 + 2] * temp.[0 * 4 + 3]) in
      let J := upd J (2 * n + j)
                 (U.[2 * 4 + 0] * temp.[2 * 4 + 3]
                  - U.[2 * 4 + 2] * temp.[0 * 4 + 3]) in
      let J := upd J (3 * n + j) U.[0 * 4 + 1] in
      let J := upd J (4 * n + j) U.[1 * 4 + 1] in
      let J := upd J (5 * n + j) U.[2 * 4 + 1] in
      J
  | JRz =>
      let J := upd J (0 * n + j)
                 (U.[0 * 4 + 1] * temp.[0 * 4 + 3]
                  - U.[0 * 4 + 0] * temp.[1 * 4 + 3]) in
      let J := upd J (1 * n + j)
                 (U.[1 * 4 + 1] * temp.[0 * 4 + 3]
                  - U.[1 * 4 + 0] * temp.[1 * 4 + 3]) in
      let J := upd J (2 * n + j)
                 (U.[2 * 4 + 1] * temp.[0 * 4 + 3]
                  - U.[2 * 4 + 0] * temp.[1 * 4 + 3]) in
      let J := upd J (3 * n + j) U.[0 * 4 + 2] in
      let J := upd J (4 * n + j) U.[1 * 4 + 2] in
      let J := upd J (5 * n + j) U.[2 * 4 + 2] in
      J
  | JTx =>
      let J := upd J (0 * n + j) U.[0 * 4 + 0] in
      let J := upd J (1 * n + j) U.[1 * 4 + 0] in
      let J := upd J (2 * n + j) U.[2 * 4 + 0] in
      let J := upd J (3 * n + j) 0 in
      let J := upd J (4 * n + j) 0 in
      let J := upd J (5 * n + j) 0 in
      J
  | JTy =>
      let J := upd J (0 * n + j) U.[0 * 4 + 1] in
      let J := upd J (1 * n + j) U.[1 * 4 + 1] in
      let J := upd J (2 * n + j) U.[2 * 4 + 1] in
      let J := upd J (3 * n + j) 0 in
      let J := upd J (4 * n + j) 0 in
      let J := upd J (5 * n + j) 0 in
      J
  | JTz =>
      let J := upd J (0 * n + j) U.[0 * 4 + 2] in
      let J := upd J (1 * n + j) U.[1 * 4 + 2] in
      let J := upd J (2 * n + j) U.[2 * 4 + 2] in
      let J := upd J (3 * n + j) 0 in
      let J := upd J (4 * n + j) 0 in
      let J := upd J (5 * n + j) 0 in
      J
  end.

(** fknm.c, [_ETS_jacob0]: the body of the loop over the elements.  The
    loop state is the content of the buffers [U], [invU], [temp], [ret],
    the column counter [j] and [J]. *)
Definition jacob0_body (n : Z) (q : buf) (tool : option Mat4) (T : Mat4)
    (m : Z) (i : Z) (et : ET)
    (s : Mat4 * Mat4 * Mat4 * Mat4 * Z * buf)
    : Mat4 * Mat4 * Mat4 * Mat4 * Z * buf :=
  let '(U, invU, temp, ret, j, J) := s in
  if et_isjoint et then
    let ret := _ET_T et ret (q (et_jindex et)) in
    let temp := mult U ret temp in
    let U := copy temp U in
    let '(temp, U) :=
      match tool with
      | Some tool =>
          if (i =? m - 1)%Z then
            let temp := mult U tool temp in
            let U := copy temp U in
            (temp, U)
          else (temp, U)
      | None => (temp, U)
      end in
    let invU := _inv U invU in
    let temp := mult invU T temp in
    let J := jacob0_axis (et_axis et) n j U temp J in
    let j := (j + 1)%Z in
    (U, invU, temp, ret, j, J)
  else
    let ret := _ET_T et ret (q (et_jindex et)) in
    let temp := mult U ret temp in
    let U := copy temp U in
    (U, invU, temp, ret, j, J).

(** fknm.c, [_ETS_jacob0]. *)
Definition _ETS_jacob0 (ets : list ET) (n : Z) (q : buf)
    (tool : option Mat4) (J : buf) : buf :=
  let T := calloc16 in
  let U := calloc16 in
  let invU := calloc16 in
  let temp := calloc16 in
  let ret := calloc16 in
  let j := 0%Z in
  let U := _eye4 U in
  let T := _ETS_fkine ets q None tool T in
  let m := Z.of_nat (length ets) in
  let '(U, invU, temp, ret, j, J) :=
    for_each ets 0 (jacob0_body n q tool T m)
      (U, invU, temp, ret, j, J) in
  J.

(** fknm.c, [_ETS_jacobe]: the assignments of the branch for each joint
    axis. *)
Definition jacobe_axis (axis : JointType) (n j : Z) (U : Mat4)
    (J : buf) : buf :=
  match axis with
  | JRx =>
      let J := upd J (0 * n + j)
                 (U.[2 * 4 + 0] * U.[1 * 4 + 3]
                  - U.[1 * 4 + 0] * U.[2 * 4 + 3]) in
      let J := upd J (1 * n + j)
                 (U.[2 * 4 + 1] * U.[1 * 4 + 3]
                  - U.[1 * 4 + 1] * U.[2 * 4 + 3]) in
      let J := upd J (2 * n + j)
                 (U.[2 * 4 + 2] * U.[1 * 4 + 3]
                  - U.[1 * 4 + 2] * U.[2 * 4 + 3]) in
      let J := upd J (3 * n + j) U.[0 * 4 + 0] in
      let J := upd J (4 * n + j) U.[0 * 4 + 1] in
      let J := upd J (5 * n + j) U.[0 * 4 + 2] in
      J
  | JRy =>
      let J := upd J (0 * n + j)
                 (U.[0 * 4 + 0] * U.[2 * 4 + 3]
                  - U.[2 * 4 + 0] * U.[0 * 4 + 3]) in
      let J := upd J (1 * n + j)
                 (U.[0 * 4 + 1] * U.[2 * 4 + 3]
                  - U.[2 * 4 + 1] * U.[0 * 4 + 3]) in
      let J := upd J (2 * n + j)
                 (U.[0 * 4 + 2] * U.[2 * 4 + 3]
                  - U.[2 * 4 + 2] * U.[0 * 4 + 3]) in
      let J := upd J (3 * n + j) U.[1 * 4 + 0] in
      let J := upd J (4 * n + j) U.[1 * 4 + 1] in
      let J := upd J (5 * n + j) U.[1 * 4 + 2] in
      J
  | JRz =>
      let J := upd J (0 * n + j)
                 (U.[1 * 4 + 0] * U.[0 * 4 + 3]
                  - U.[0 * 4 + 0] * U.[1 * 4 + 3]) in
      let J := upd J (1 * n + j)
                 (U.[1 * 4 + 1] * U.[0 * 4 + 3]
                  - U.[0 * 4 + 1] * U.[1 * 4 + 3]) in
      let J := upd J (2 * n + j)
                 (U.[1 * 4 + 2] * U.[0 * 4 + 3]
                  - U.[0 * 4 + 2] * U.[1 * 4 + 3]) in
      let J := upd J (3 * n + j) U.[2 * 4 + 0] in
      let J := upd J (4 * n + j) U.[2 * 4 + 1] in
      let J := upd J (5 * n + j) U.[2 * 4 + 2] in
      J
  | JTx =>
      let J := upd J (0 * n + j) U.[0 * 4 + 0] in
      let J := upd J (1 * n + j) U.[0 * 4 + 1] in
      let J := upd J (2 * n + j) U.[0 * 4 + 2] in
      let J := upd J (3 * n + j) 0 in
      let J := upd J (4 * n + j) 0 in
      let J := upd J (5 * n + j) 0 in
      J
  | JTy =>
      let J := upd J (0 * n + j) U.[1 * 4 + 0] in
      let J := upd J (1 * n + j) U.[1 * 4 + 1] in
      let J := upd J (2 * n + j) U.[1 * 4 + 2] in
      let J := upd J (3 * n + j) 0 in
      let J := upd J (4 * n + j) 0 in
      let J := upd J (5 * n + j) 0 in
      J
  | JTz =>
      let J := upd J (0 * n + j) U.[2 * 4 + 0] in
      let J := upd J (1 * n + j) U.[2 * 4 + 1] in
      let J := upd J (2 * n + j) U.[2 * 4 + 2] in
      let J := upd J (3 * n + j) 0 in
      let J := upd J (4 * n + j) 0 in
      let J := upd J (5 * n + j) 0 in
      J
  end.

(** fknm.c, [_ETS_jacobe]: the body of the loop over the elements. *)
Definition jacobe_body (n : Z) (q : buf) (i : Z) (et : ET)
    (s : Mat4 * Mat4 * Mat4 * Z * buf) : Mat4 * Mat4 * Mat4 * Z * buf :=
  let '(U, temp, ret, j, J) := s in
  if et_isjoint et then
    let J := jacobe_axis (et_axis et) n j U J in
    let ret := _ET_T et ret (q (et_jindex et)) in
    let temp := mult ret U temp in
    let U := copy temp U in
    let j := (j - 1)%Z in
    (U, temp, ret, j, J)
  else
    let ret := _ET_T et ret (q (et_jindex et)) in
    let temp := mult ret U temp in
    let U := copy temp U in
    (U, temp, ret, j, J).

(** fknm.c, [_ETS_jacobe]: [PyList_Reverse] reverses the list before the
    loop and restores it after; [T] is computed and not used. *)
Definition _ETS_jacobe (ets : list ET) (n : Z) (q : buf)
    (tool : option Mat4) (J : buf) : buf :=
  let T := calloc16 in
  let U := calloc16 in
  let temp := calloc16 in
  let ret := calloc16 in
  let j := (n - 1)%Z in
  let U := _eye4 U in
  let T := _ETS_fkine ets q None tool T in
  let ets := rev ets in
  let '(temp, U) :=
    match tool with
    | Some tool =>
        let temp := mult tool U temp in
        let U := copy temp U in
        (temp, U)
    | None => (temp, U)
    end in
  let '(U, temp, ret, j, J) :=
    for_each ets 0 (jacobe_body n q) (U, temp, ret, j, J) in
  J.

(** fknm.c, [A]: the transform of a link at joint value [eta]; [v] is a
    zeroed scratch buffer. *)
Definition A (link : Link) (ret : Mat4) (eta : R) : Mat4 :=
  if negb (link_isjoint link) then copy (link_A link) ret
  else
    let eta := if link_isflip link then - eta else eta in
    let v := calloc16 in
    let v := op_of (link_axis link) v eta in
    mult (link_A link) v ret.

(** fknm.c, [_r2q]: [pow(x, 2)] is the square. *)
Definition _r2q (r : Mat4) (q : buf) : buf :=
  let t12p := (r.[0 * 4 + 1] + r.[1 * 4 + 0]) ^ 2 in
  let t13p := (r.[0 * 4 + 2] + r.[2 * 4 + 0]) ^ 2 in
  let t23p := (r.[1 * 4 + 2] + r.[2 * 4 + 1]) ^ 2 in
  let t12m := (r.[0 * 4 + 1] - r.[1 * 4 + 0]) ^ 2 in
  let t13m := (r.[0 * 4 + 2] - r.[2 * 4 + 0]) ^ 2 in
  let t23m := (r.[1 * 4 + 2] - r.[2 * 4 + 1]) ^ 2 in
  let d1 := (r.[0 * 4 + 0] + r.[1 * 4 + 1] + r.[2 * 4 + 2] + 1) ^ 2 in
  let d2 := (r.[0 * 4 + 0] - r.[1 * 4 + 1] - r.[2 * 4 + 2] + 1) ^ 2 in
  let d3 := (- r.[0 * 4 + 0] + r.[1 * 4 + 1] - r.[2 * 4 + 2] + 1) ^ 2 in
  let d4 := (- r.[0 * 4 + 0] - r.[1 * 4 + 1] + r.[2 * 4 + 2] + 1) ^ 2 in
  let q := upd q 3 (sqrt (d1 + t23m + t13m + t12m) / 4) in
  let q := upd q 0 (sqrt (t23m + d2 + t12p + t13p) / 4) in
  let q := upd q 1 (sqrt (t13m + t12p + d3 + t23p) / 4) in
  let q := upd q 2 (sqrt (t12m + t13p + t23p + d4) / 4) in
  let q := if Rlt_dec r.[2 * 4 + 1] r.[1 * 4 + 2]
           then upd q 0 (- q.{0}) else q in
  let q := if Rlt_dec r.[0 * 4 + 2] r.[2 * 4 + 0]
           then upd q 1 (- q.{1}) else q in
  let q := if Rlt_dec r.[1 * 4 + 0] r.[0 * 4 + 1]
           then upd q 2 (- q.{2}) else q in
  q.

(** fknm.c, [fkine_all]: the loop over the shapes of a link, each shape
    with its three caches. *)
Definition set_shapes (fk : Mat4) (shapes : list Shape) : list Shape :=
  map (fun s =>
         let wT := copy fk (shape_wT s) in
         let sT := mult fk (shape_base s) (shape_sT s) in
         let sq := _r2q sT (shape_sq s) in
         mkShape (shape_base s) wT sT sq)
      shapes.

(** fknm.c, [fkine_all]: the body of the loop over the links; [id] is the
    address held by the next capsule.  [mult(link->parent->fk, ret,
    link->fk)] writes into its left operand when a link is its own
    parent. *)
Definition fkine_all_body (q : buf) (base : Mat4) (id : nat)
    (s : Mat4 * LinkStore) : Mat4 * LinkStore :=
  let '(ret, st) := s in
  let link := st id in
  let ret := A link ret (q (link_jindex link)) in
  let fk :=
    match link_parent link with
    | Some p =>
        if Nat.eqb p id then mult_alias (link_fk link) ret
        else mult (link_fk (st p)) ret (link_fk link)
    | None => mult base ret (link_fk link)
    end in
  let shapes := set_shapes fk (link_shapes link) in
  let link :=
    mkLink (link_isjoint link) (link_isflip link) (link_jindex link)
      (link_axis link) (link_A link) fk (link_parent link) shapes in
  (ret, store_link st id link).

(** [m] iterations, each taking the next item of the iterator; [None]
    when the iterator is exhausted first ([return NULL]). *)
Fixpoint fkine_all_loop (cnt : nat) (iter_links : list nat) (q : buf)
    (base : Mat4) (s : Mat4 * LinkStore) : option (Mat4 * LinkStore) :=
  match cnt with
  | O => Some s
  | S c =>
      match iter_links with
      | [] => None
      | id :: rest =>
          fkine_all_loop c rest q base (fkine_all_body q base id s)
      end
  end.

(** fknm.c, [fkine_all]: the store after the pass. *)
Definition fkine_all (m : Z) (links : list nat) (q : buf) (base : Mat4)
    (st : LinkStore) : option LinkStore :=
  let ret := calloc16 in
  match fkine_all_loop (Z.to_nat m) links q base (ret, st) with
  | Some (_, st) => Some st
  | None => None
  end.

End Fknm.

Module Methods.

(** Modelled from the spec: [_copy] is declared in linalg.h, which is not
    part of the sources.  Section 4.2 has a Static element return its
    fixed pose unchanged: [_copy] copies a pose buffer, as [copy] of
    fknm.c does. *)
Definition _copy (A B : Mat4) : Mat4 := copy A B.

(** Modelled from the spec: [_inv] is declared in linalg.h, which is not
    part of the sources.  It is the rigid inverse of section 4.1
    (transposed rotation block, translation -(Rt t)), as [_inv] of fknm.c. *)
Definition _inv (m invOut : Mat4) : Mat4 := _inv m invOut.

(** Modelled from the spec: [_angle_axis] is declared in linalg.h, which
    is not part of the sources.  It is the pose error of section 4.7, as
    [_angle_axis] of fknm.c. *)
Definition _angle_axis (Te Tep : Mat4) (e : buf) : buf :=
  _angle_axis Te Tep e.

(** Modelled from the spec: the function pointer [et->op] is set where the
    element is built, outside methods.cpp.  Section 3 has a Joint element
    call the generator named by its axis, as [ET_init] of fknm.c sets it. *)
Definition et_op (et : ET) : Mat4 -> R -> Mat4 := op_of (et_axis et).

(** methods.cpp, [_ET_T]. *)
Definition _ET_T (et : ET) (ret : Mat4) (eta : R) : Mat4 :=
  if negb (et_isjoint et) then _copy (et_T et) ret
  else
    let eta := if et_isflip et then - eta else eta in
    et_op et ret eta.

(** methods.cpp, [_ETS_fkine]: [current * e_ret] is the matrix product and
    [Eigen::Matrix4d::Identity()] the identity.

    Modelled from the spec: the types [Matrix4dc] and [MapMatrix4dc] are
    declared in a header that is not part of the sources.  An object of
    these types is the 4x4 pose held by its buffer (section 6), a [Mat4]
    here, so the buffer an element is evaluated into is read back as that
    element's transform. *)
Definition _ETS_fkine (ets : list ET) (q : buf)
    (base tool : option Mat4) (e_ret : Mat4) : Mat4 :=
  let current :=
    match base with
    | Some e_base => e_base
    | None => I4
    end in
  let '(e_ret, current) :=
    fold_left
      (fun '(e_ret, current) et =>
         let e_ret := _ET_T et e_ret (q (et_jindex et)) in
         let temp := mprod current e_ret in
         let current := temp in
         (e_ret, current))
      ets (e_ret, current) in
  match tool with
  | Some e_tool => mprod current e_tool
  | None => current
  end.

(** methods.cpp, the body of the loop of [_ETS_IK]: the call of
    [_ETS_fkine] and the assignment of [E] are commented out. *)
Definition IK_body (Tep : Mat4) (s : IKState) : IKState :=
  let e := _angle_axis (ik_Te s) Tep (ik_e s) in
  mkIK (ik_q s) (ik_Te s) e (ik_E s) (ik_arrived s) (ik_iter s).

(** methods.cpp, [_ETS_IK]. *)
Definition _ETS_IK (fuel : nat) (ets : list ET) (n : Z) (q : buf)
    (Tep : Mat4) (ret : buf) : option buf :=
  match while_loop fuel IK_cond (IK_body Tep) (IK_init q) with
  | Some _ => Some ret
  | None => None
  end.

(** methods.cpp, [_ETS_jacob0]: the assignments of the branch for each
    joint axis, on the Eigen objects [eJ], [U] and [temp]. *)
Definition jacob0_axis (axis : JointType) (j : Z) (U temp : Mat4)
    (eJ : jmat) : jmat :=
  match axis with
  | JRx =>
      let eJ := set_rows eJ 0 j
                  (vsub (vscale (col012 U 2) (at4 temp 1 3))
                        (vscale (col012 U 1) (at4 temp 2 3))) in
      let eJ := set_rows eJ 3 j (col012 U 0) in
      eJ
  | JRy =>
      let eJ := set_rows eJ 0 j
                  (vsub (vscale (col012 U 0) (at4 temp 2 3))
                        (vscale (col012 U 2) (at4 temp 0 3))) in
      let eJ := set_rows eJ 3 j (col012 U 1) in
      eJ
  | JRz =>
      let eJ := set_rows eJ 0 j
                  (vsub (vscale (col012 U 1) (at4 temp 0 3))
                        (vscale (col012 U 0) (at4 temp 1 3))) in
      let eJ := set_rows eJ 3 j (col012 U 2) in
      eJ
  | JTx =>
      let eJ := set_rows eJ 0 j (col012 U 0) in
      let eJ := set_rows eJ 3 j (0, 0, 0) in
      eJ
  | JTy =>
      let eJ := set_rows eJ 0 j (col012 U 1) in
      let eJ := set_rows eJ 3 j (0, 0, 0) in
      eJ
  | JTz =>
      let eJ := set_rows eJ 0 j (col012 U 2) in
      let eJ := set_rows eJ 3 j (0, 0, 0) in
      eJ
  end.

(** methods.cpp, [_ETS_jacob0]: the body of the loop over the elements,
    on the objects [U], [invU], [ret], the counter [j] and [eJ]. *)
Definition jacob0_body (q : buf) (tool : option Mat4) (eT : Mat4)
    (m : Z) (i : Z) (et : ET) (s : Mat4 * Mat4 * Mat4 * Z * jmat)
    : Mat4 * Mat4 * Mat4 * Z * jmat :=
  let '(U, invU, ret, j, eJ) := s in
  if et_isjoint et then
    let ret := _ET_T et ret (q (et_jindex et)) in
    let temp := mprod U ret in
    let U := temp in
    let U :=
      match tool with
      | Some e_tool =>
          if (i =? m - 1)%Z then
            let temp := mprod U e_tool in
            temp
          else U
      | None => U
      end in
    let invU := _inv U invU in
    let temp := mprod invU eT in
    let eJ := jacob0_axis (et_axis et) j U temp eJ in
    let j := (j + 1)%Z in
    (U, invU, ret, j, eJ)
  else
    let ret := _ET_T et ret (q (et_jindex et)) in
    let temp := mprod U ret in
    let U := temp in
    (U, invU, ret, j, eJ).

(** methods.cpp, [_ETS_jacob0]; [ets->m] is the length of the chain. *)
Definition _ETS_jacob0 (ets : list ET) (n : Z) (q : buf)
    (tool : option Mat4) (eJ : jmat) : jmat :=
  let invU := calloc16 in
  let ret := calloc16 in
  let j := 0%Z in
  let U := I4 in
  let eT := _ETS_fkine ets q None tool calloc16 in
  let m := Z.of_nat (length ets) in
  let '(U, invU, ret, j, eJ) :=
    for_each ets 0 (jacob0_body q tool eT m) (U, invU, ret, j, eJ) in
  eJ.

(** methods.cpp, [_ETS_jacobe]: the assignments of the branch for each
    joint axis; a row of [U] is assigned to a column block of [eJ]. *)
Definition jacobe_axis (axis : JointType) (j : Z) (U : Mat4)
    (eJ : jmat) : jmat :=
  match axis with
  | JRx =>
      let eJ := set_rows eJ 0 j
                  (vsub (vscale (row012 U 2) (at4 U 1 3))
                        (vscale (row012 U 1) (at4 U 2 3))) in
      let eJ := set_rows eJ 3 j (row012 U 0) in
      eJ
  | JRy =>
      let eJ := set_rows eJ 0 j
                  (vsub (vscale (row012 U 0) (at4 U 2 3))
                        (vscale (row012 U 2) (at4 U 0 3))) in
      let eJ := set_rows eJ 3 j (row012 U 1) in
      eJ
  | JRz =>
      let eJ := set_rows eJ 0 j
                  (vsub (vscale (row012 U 1) (at4 U 0 3))
                        (vscale (row012 U 0) (at4 U 1 3))) in
      let eJ := set_rows eJ 3 j (row012 U 2) in
      eJ
  | JTx =>
      let eJ := set_rows eJ 0 j (row012 U 0) in
      let eJ := set_rows eJ 3 j (0, 0, 0) in
      eJ
  | JTy =>
      let eJ := set_rows eJ 0 j (row012 U 1) in
      let eJ := set_rows eJ 3 j (0, 0, 0) in
      eJ
  | JTz =>
      let eJ := set_rows eJ 0 j (row012 U 2) in
      let eJ := set_rows eJ 3 j (0, 0, 0) in
      eJ
  end.

(** methods.cpp, [_ETS_jacobe]: the body of the loop over the elements. *)
Definition jacobe_body (q : buf) (s : Mat4 * Mat4 * Z * jmat) (et : ET)
    : Mat4 * Mat4 * Z * jmat :=
  let '(U, ret, j, eJ) := s in
  if et_isjoint et then
    let eJ := jacobe_axis (et_axis et) j U eJ in
    let ret := _ET_T et ret (q (et_jindex et)) in
    let temp := mprod ret U in
    let U := temp in
    let j := (j - 1)%Z in
    (U, ret, j, eJ)
  else
    let ret := _ET_T et ret (q (et_jindex et)) in
    let temp := mprod ret U in
    let U := temp in
    (U, ret, j, eJ).

(** methods.cpp, [_ETS_jacobe]: [i] runs from [ets->m - 1] down to 0, so
    the elements are visited in reverse order. *)
Definition _ETS_jacobe (ets : list ET) (n : Z) (q : buf)
    (tool : option Mat4) (eJ : jmat) : jmat :=
  let ret := calloc16 in
  let U := I4 in
  let j := (n - 1)%Z in
  let U :=
    match tool with
    | Some e_tool =>
        let temp := mprod e_tool U in
        temp
    | None => U
    end in
  let '(U, ret, j, eJ) :=
    fold_left (jacobe_body q) (rev ets) (U, ret, j, eJ) in
  eJ.

End Methods.

(** ** Link chains (fknm.c) *)

(** fknm.c, [_fkine]: the loop [for (i = 1; i < n; i++)] over the links
    after the first.  The flag is [false] when the iterator is exhausted
    before the count ([return]). *)
Fixpoint fkine_loop (cnt : nat) (iter_links : list Link) (q : buf)
    (s : Mat4 * Mat4 * Mat4) : Mat4 * Mat4 * Mat4 * bool :=
  match cnt with
  | O => (s, true)
  | S c =>
      match iter_links with
      | [] => (s, false)
      | link :: rest =>
          let '(ret, temp, current) := s in
          let ret := Fknm.A link ret (q (link_jindex link)) in
          let temp := mult current ret temp in
          let current := copy temp current in
          fkine_loop c rest q (ret, temp, current)
      end
  end.

(** fknm.c, [_fkine]: the content of [ret] when the function returns;
    [links] is the Python list of Link capsules, [ret] a buffer distinct
    from [etool] and [tool]. *)
Definition _fkine (links : list Link) (n : Z) (q : buf)
    (etool tool ret : Mat4) : Mat4 :=
  let temp := calloc16 in
  let current := calloc16 in
  match links with
  | [] => ret
  | link :: rest =>
      let current := Fknm.A link current (q (link_jindex link)) in
      match fkine_loop (Z.to_nat (n - 1)) rest q (ret, temp, current) with
      | (ret, temp, current, true) =>
          let ret := mult current etool ret in
          let current := copy ret current in
          mult current tool ret
      | (ret, _, _, false) => ret
      end
  end.

(** fknm.c, [_jacob0]: the body of the loop over the links; the branches
    on [link->axis] are those of [_ETS_jacob0]. *)
Definition jacob0_links_body (m n : Z) (q : buf) (etool tool T : Mat4)
    (i : Z) (link : Link) (s : Mat4 * Mat4 * Mat4 * Mat4 * Z * buf)
    : Mat4 * Mat4 * Mat4 * Mat4 * Z * buf :=
  let '(U, invU, temp, ret, j, J) := s in
  if link_isjoint link then
    let ret := Fknm.A link ret (q (link_jindex link)) in
    let temp := mult U ret temp in
    let U := copy temp U in
    let '(temp, U) :=
      if (i =? m - 1)%Z then
        let temp := mult U etool temp in
        let U := copy temp U in
        let temp := mult U tool temp in
        let U := copy temp U in
        (temp, U)
      else (temp, U) in
    let invU := _inv U invU in
    let temp := mult invU T temp in
    let J := Fknm.jacob0_axis (link_axis link) n j U temp J in
    let j := (j + 1)%Z in
    (U, invU, temp, ret, j, J)
  else
    let ret := Fknm.A link ret (q (link_jindex link)) in
    let temp := mult U ret temp in
    let U := copy temp U in
    (U, invU, temp, ret, j, J).

(** [for (int i = i0; ...; i++)] for [cnt] iterations, each taking the
    next link of the iterator; the loop is left when the iterator is
    exhausted ([return]), which the flag [false] records. *)
Fixpoint links_loop {St : Type} (cnt : nat) (i : Z) (iter_links : list Link)
    (body : Z -> Link -> St -> St) (s : St) : St * bool :=
  match cnt with
  | O => (s, true)
  | S c =>
      match iter_links with
      | [] => (s, false)
      | link :: rest => links_loop c (i + 1)%Z rest body (body i link s)
      end
  end.

(** fknm.c, [_jacob0]: the content of [J] when the function returns. *)
Definition _jacob0 (links : list Link) (m n : Z) (q : buf)
    (etool tool : Mat4) (J : buf) : buf :=
  let T := calloc16 in
  let U := calloc16 in
  let temp := calloc16 in
  let ret := calloc16 in
  let invU := calloc16 in
  let j := 0%Z in
  let U := _eye4 U in
  let T := _fkine links m q etool tool T in
  let '(U, invU, temp, ret, j, J, _) :=
    links_loop (Z.to_nat m) 0 links (jacob0_links_body m n q etool tool T)
      (U, invU, temp, ret, j, J) in
  J.

(** fknm.c, [_jacobe]: the body of the loop over the reversed links; the
    branches on [link->axis] are those of [_ETS_jacobe]. *)
Definition jacobe_links_body (n : Z) (q : buf) (i : Z) (link : Link)
    (s : Mat4 * Mat4 * Mat4 * Z * buf) : Mat4 * Mat4 * Mat4 * Z * buf :=
  let '(U, temp, ret, j, J) := s in
  if link_isjoint link then
    let J := Fknm.jacobe_axis (link_axis link) n j U J in
    let ret := Fknm.A link ret (q (link_jindex link)) in
    let temp := mult ret U temp in
    let U := copy temp U in
    let j := (j - 1)%Z in
    (U, temp, ret, j, J)
  else
    let ret := Fknm.A link ret (q (link_jindex link)) in
    let temp := mult ret U temp in
    let U := copy temp U in
    (U, temp, ret, j, J).

(** fknm.c, [_jacobe]: the Python list [links] and the content of [J]
    when the function returns.  [PyList_Reverse] reverses the list in
    place before the loop and once more after it; the [return] inside the
    loop skips the second reversal. *)
Definition _jacobe (links : list Link) (m n : Z) (q : buf)
    (etool tool : Mat4) (J : buf) : list Link * buf :=
  let T := calloc16 in
  let U := calloc16 in
  let temp := calloc16 in
  let ret := calloc16 in
  let j := (n - 1)%Z in
  let U := _eye4 U in
  let T := _fkine links m q etool tool T in
  let links := rev links in
  let temp := mult etool U temp in
  let U := copy temp U in
  let temp := mult tool U temp in
  let U := copy temp U in
  match links_loop (Z.to_nat m) 0 links (jacobe_links_body n q)
          (U, temp, ret, j, J) with
  | (U, temp, ret, j, J, true) => (rev links, J)
  | (U, temp, ret, j, J, false) => (links, J)
  end.

(** ** General matrix products (fknm.c) *)

(** fknm.c, [_mult]: C (n x q) = A (n x m) . B (p x q), row-major; [C]
    is a buffer distinct from [A] and [B]. *)
Definition _mult (n m : Z) (A : buf) (p q : Z) (B C : buf) : buf :=
  for_range 0 n (fun i C =>
    for_range 0 q (fun j C =>
      let num :=
        for_range 0 p
          (fun k num => num + A.{i * m + k} * B.{k * q + j}) 0 in
      upd C (i * q + j) num) C) C.

(** fknm.c, [_mult_T]: the product with either operand transposed when
    its flag [AT] or [BT] is not zero; the dimensions of a transposed
    operand are swapped first. *)
Definition _mult_T (n m AT : Z) (A : buf) (p q BT : Z) (B C : buf) : buf :=
  let '(n, m) := if negb (AT =? 0)%Z then (m, n) else (n, m) in
  let '(p, q) := if negb (BT =? 0)%Z then (q, p) else (p, q) in
  for_range 0 n (fun i C =>
    for_range 0 q (fun j C =>
      let num :=
        for_range 0 p
          (fun k num =>
             let a :=
               if negb (AT =? 0)%Z then A.{k * n + i} else A.{i * m + k} in
             let b :=
               if negb (BT =? 0)%Z then B.{j * p + k} else B.{k * q + j} in
             num + a * b) 0 in
      upd C (i * q + j) num) C) C.

(** * Specification-level definitions *)

(** ** The chain product of the specification *)

Definition RotX (t : R) : Mat4 :=
  mkMat4 1 0 0 0
         0 (cos t) (- sin t) 0
         0 (sin t) (cos t) 0
         0 0 0 1.

Definition RotY (t : R) : Mat4 :=
  mkMat4 (cos t) 0 (sin t) 0
         0 1 0 0
         (- sin t) 0 (cos t) 0
         0 0 0 1.

Definition RotZ (t : R) : Mat4 :=
  mkMat4 (cos t) (- sin t) 0 0
         (sin t) (cos t) 0 0
         0 0 1 0
         0 0 0 1.

Definition TransX (d : R) : Mat4 :=
  mkMat4 1 0 0 d
         0 1 0 0
         0 0 1 0
         0 0 0 1.

Definition TransY (d : R) : Mat4 :=
  mkMat4 1 0 0 0
         0 1 0 d
         0 0 1 0
         0 0 0 1.

Definition TransZ (d : R) : Mat4 :=
  mkMat4 1 0 0 0
         0 1 0 0
         0 0 1 d
         0 0 0 1.

Definition generator (a : JointType) : R -> Mat4 :=
  match a with
  | JRx => RotX | JRy => RotY | JRz => RotZ
  | JTx => TransX | JTy => TransY | JTz => TransZ
  end.

(** T(E): the element evaluated at [q[jointIndex]]; a Static element is
    its fixed pose, whatever the joint value. *)
Definition element_pose (q : buf) (et : ET) : Mat4 :=
  if et_isjoint et then
    generator (et_axis et)
      (if et_isflip et then - q (et_jindex et) else q (et_jindex et))
  else et_T et.

(** acc . M_1 . M_2 ... M_k, associated to the left. *)
Definition chain_product (acc : Mat4) (l : list Mat4) : Mat4 :=
  fold_left mprod l acc.

Definition or_identity (o : option Mat4) : Mat4 :=
  match o with
  | Some M => M
  | None => I4
  end.

(** base . T(E_1) ... T(E_k) . tool, absent base and tool being the
    identity. *)
Definition fkine_product (ets : list ET) (q : buf)
    (base tool : option Mat4) : Mat4 :=
  mprod (chain_product (or_identity base) (map (element_pose q) ets))
        (or_identity tool).

(** ** Homogeneous chains and example poses *)

(** Every Static element of the chain carries a homogeneous transform. *)
Definition statics_homogeneous (ets : list ET) : Prop :=
  Forall (fun et => et_isjoint et = false -> homogeneous (et_T et)) ets.

(** A one-element chain: a prismatic joint along X, read at [q[0]]. *)
Definition slider : ET := mkET true false 0%Z JTx I4.

(** A quarter turn about Z followed by the translation (1, 2, 3). *)
Definition quarter_turn : Mat4 :=
  mkMat4 0 (-1) 0 1
         1 0 0 2
         0 0 1 3
         0 0 0 1.

(** ** Hessian cells and blocks *)

(** Offset of H[j][r, i] in the row-major n x 6 x n Hessian. *)
Definition cell (n j r i : Z) : Z := (j * 6 * n + r * n + i)%Z.

(** Offset of J[r, c] in the row-major 6 x n Jacobian. *)
Definition jcell (n r c : Z) : Z := (r * n + c)%Z.

Definition cross3 (a b : Vec3) : Vec3 :=
  let '(a0, a1, a2) := a in
  let '(b0, b1, b2) := b in
  (a1 * b2 - a2 * b1, a2 * b0 - a0 * b2, a0 * b1 - a1 * b0).

(** J[r0 : r0 + 3, c] *)
Definition Jblock (n : Z) (J : buf) (r0 c : Z) : Vec3 :=
  (J (jcell n r0 c), J (jcell n (r0 + 1) c), J (jcell n (r0 + 2) c)).

(** H[j][r0 : r0 + 3, i] *)
Definition Hblock (n : Z) (H : buf) (j r0 i : Z) : Vec3 :=
  (H (cell n j r0 i), H (cell n j (r0 + 1) i), H (cell n j (r0 + 2) i)).

(** The body of the inner loop of [_ETS_hessian]. *)
Definition hessian_body (n : Z) (J : buf) (j i : Z) (H : buf) : buf :=
  let n2 := (2 * n)%Z in
  let n3 := (3 * n)%Z in
  let n4 := (4 * n)%Z in
  let n5 := (5 * n)%Z in
  let a := (j * 6 * n)%Z in
  let b := (i * 6 * n)%Z in
  let H :=
    unptr (_cross (ptr J (j + n3)) (ptr J i) (ptr H (a + i)) n)
          (a + i) in
  let H :=
    unptr (_cross (ptr J (j + n3)) (ptr J (i + n3))
                  (ptr H (a + i + n3)) n)
          (a + i + n3) in
  if negb (i =? j)%Z then
    let H := upd H (b + j) H.{a + i} in
    let H := upd H (b + j + n) H.{a + i + n} in
    let H := upd H (b + j + n2) H.{a + i + n2} in
    let H := upd H (b + j + n3) 0 in
    let H := upd H (b + j + n4) 0 in
    let H := upd H (b + j + n5) 0 in
    H
  else H.

(** The value the loop body for the pair (j, i) leaves in H[j][r, i]. *)
Definition hessian_entry (n : Z) (J : buf) (j i r : Z) : R :=
  let a := ptr J (j + 3 * n) in
  let bl := ptr J i in
  let ba := ptr J (i + 3 * n) in
  match r with
  | 0%Z => a.{n} * bl.{2 * n} - a.{2 * n} * bl.{n}
  | 1%Z => a.{2 * n} * bl.{0} - a.{0} * bl.{2 * n}
  | 2%Z => a.{0} * bl.{n} - a.{n} * bl.{0}
  | 3%Z => a.{n} * ba.{2 * n} - a.{2 * n} * ba.{n}
  | 4%Z => a.{2 * n} * ba.{0} - a.{0} * ba.{2 * n}
  | 5%Z => a.{0} * ba.{n} - a.{n} * ba.{0}
  | _ => 0
  end.

(** The buffer after the two [_cross] calls of the loop body. *)
Definition hessian_cross (n : Z) (J : buf) (j i : Z) (H : buf) : buf :=
  unptr (_cross (ptr J (j + 3 * n)) (ptr J (i + 3 * n))
           (ptr (unptr (_cross (ptr J (j + 3 * n)) (ptr J i)
                          (ptr H (j * 6 * n + i)) n) (j * 6 * n + i))
                (j * 6 * n + i + 3 * n)) n) (j * 6 * n + i + 3 * n).

(** The inner loop for the outer index [j]. *)
Definition hessian_row (n : Z) (J : buf) (j : Z) (H : buf) : buf :=
  for_range j n (hessian_body n J j) H.

(** ** Pose error of the specification *)

(** The pose error of section 4.7, in the words of the specification. *)
Definition translation (M : Mat4) : Vec3 := (M.[3], M.[7], M.[11]).

(** Entry (i, j) of the rotation block. *)
Definition rotation (M : Mat4) (i j : Z) : R := M.[i * 4 + j].

(** R = target.rotation . achieved.rotation^t *)
Definition relative_rotation (achieved target : Mat4) (i j : Z) : R :=
  rotation target i 0 * rotation achieved j 0
  + rotation target i 1 * rotation achieved j 1
  + rotation target i 2 * rotation achieved j 2.

Definition norm3 (v : Vec3) : R :=
  let '(x, y, z) := v in sqrt (x * x + y * y + z * z).

Definition poseError (achieved target : Mat4) : Vec3 * Vec3 :=
  let '(tx, ty, tz) := translation target in
  let '(ax, ay, az) := translation achieved in
  let Rm := relative_rotation achieved target in
  let l0 := Rm 2%Z 1%Z - Rm 1%Z 2%Z in
  let l1 := Rm 0%Z 2%Z - Rm 2%Z 0%Z in
  let l2 := Rm 1%Z 0%Z - Rm 0%Z 1%Z in
  let li := (l0, l1, l2) in
  let tr := Rm 0%Z 0%Z + Rm 1%Z 1%Z + Rm 2%Z 2%Z in
  let rot_err :=
    if Rlt_dec (norm3 li) 1e-6 then
      if Rgt_dec tr 0 then (0, 0, 0)
      else (PI / 2 * (Rm 0%Z 0%Z + 1), PI / 2 * (Rm 1%Z 1%Z + 1),
            PI / 2 * (Rm 2%Z 2%Z + 1))
    else
      let angle := atan2 (norm3 li) (tr - 1) in
      (angle * l0 / norm3 li, angle * l1 / norm3 li, angle * l2 / norm3 li) in
  ((tx - ax, ty - ay, tz - az), rot_err).

(** ** Loop invariant of the iterator *)

(** What the fknm.c loop preserves: [q], [arrived] and [iter]. *)
Definition IK_frozen (q : buf) (s : IKState) : Prop :=
  ik_q s = q /\ ik_arrived s = 0%Z /\ ik_iter s = 0%Z.

(** ** Jacobian columns and sweeps *)

(** A Jacobian column: linear part (rows 0-2), angular part (rows 3-5). *)
Definition Twist : Type := (Vec3 * Vec3)%type.

(** Column [j] of the base-frame Jacobian for a joint about or along
    [axis], from the accumulator [U] and [D] = inverse(U) . T. *)
Definition jacob0_twist (axis : JointType) (U D : Mat4) : Twist :=
  match axis with
  | JRx => (vsub (vscale (col012 U 2) (at4 D 1 3))
                 (vscale (col012 U 1) (at4 D 2 3)), col012 U 0)
  | JRy => (vsub (vscale (col012 U 0) (at4 D 2 3))
                 (vscale (col012 U 2) (at4 D 0 3)), col012 U 1)
  | JRz => (vsub (vscale (col012 U 1) (at4 D 0 3))
                 (vscale (col012 U 0) (at4 D 1 3)), col012 U 2)
  | JTx => (col012 U 0, (0, 0, 0))
  | JTy => (col012 U 1, (0, 0, 0))
  | JTz => (col012 U 2, (0, 0, 0))
  end.

(** Column [j] of the tool-frame Jacobian, from the accumulator [U]. *)
Definition jacobe_twist (axis : JointType) (U : Mat4) : Twist :=
  match axis with
  | JRx => (vsub (vscale (row012 U 2) (at4 U 1 3))
                 (vscale (row012 U 1) (at4 U 2 3)), row012 U 0)
  | JRy => (vsub (vscale (row012 U 0) (at4 U 2 3))
                 (vscale (row012 U 2) (at4 U 0 3)), row012 U 1)
  | JRz => (vsub (vscale (row012 U 1) (at4 U 0 3))
                 (vscale (row012 U 0) (at4 U 1 3)), row012 U 2)
  | JTx => (row012 U 0, (0, 0, 0))
  | JTy => (row012 U 1, (0, 0, 0))
  | JTz => (row012 U 2, (0, 0, 0))
  end.

(** Column [c] of a row-major 6 x n buffer, and of an Eigen object. *)
Definition column_buf (n : Z) (J : buf) (c : Z) : Twist :=
  ((J.{0 * n + c}, J.{1 * n + c}, J.{2 * n + c}),
   (J.{3 * n + c}, J.{4 * n + c}, J.{5 * n + c})).

Definition column_jmat (eJ : jmat) (c : Z) : Twist :=
  ((eJ 0%Z c, eJ 1%Z c, eJ 2%Z c), (eJ 3%Z c, eJ 4%Z c, eJ 5%Z c)).

(** The rigid inverse as a value: the content [_inv] leaves in a buffer. *)
Definition rigid_inverse (U : Mat4) : Mat4 := _inv U calloc16.

(** The accumulator [U] at each Joint element of the forward sweep, with
    the axis of the joint, in chain order: [U] is the product of the
    elements up to and including the joint, times [tool] when the joint is
    the element of index [m - 1] and a tool is given. *)
Fixpoint jacob0_accs (q : buf) (tool : option Mat4) (m : Z)
    (ets : list ET) (i : Z) (U : Mat4) : list (JointType * Mat4) :=
  match ets with
  | [] => []
  | et :: rest =>
      let U := mprod U (element_pose q et) in
      if et_isjoint et then
        let U :=
          match tool with
          | Some tl => if (i =? m - 1)%Z then mprod U tl else U
          | None => U
          end in
        (et_axis et, U) :: jacob0_accs q tool m rest (i + 1) U
      else jacob0_accs q tool m rest (i + 1) U
  end.

(** The accumulator [U] at each Joint element of the backward sweep, in
    the order of the sweep: the product of the elements after the joint,
    times the initial [U]. *)
Fixpoint jacobe_accs (q : buf) (rev_ets : list ET) (U : Mat4)
    : list (JointType * Mat4) :=
  match rev_ets with
  | [] => []
  | et :: rest =>
      let U' := mprod (element_pose q et) U in
      if et_isjoint et then (et_axis et, U) :: jacobe_accs q rest U'
      else jacobe_accs q rest U'
  end.

Definition twist0_of (T : Mat4) (a : JointType * Mat4) : Twist :=
  jacob0_twist (fst a) (snd a) (mprod (rigid_inverse (snd a)) T).

Definition twiste_of (a : JointType * Mat4) : Twist :=
  jacobe_twist (fst a) (snd a).

Section SweepDefinitions.

(** A Jacobian store [JT] with its per-axis assignments. *)
Context {JT : Type}.
Variable axis0 : JointType -> Z -> Mat4 -> Mat4 -> JT -> JT.
Variable axise : JointType -> Z -> Mat4 -> JT -> JT.
Variable q : buf.

(** The forward sweep on the live part of the state: [U], [j], [J]. *)
Fixpoint sweep0 (tool : option Mat4) (T : Mat4) (m : Z) (ets : list ET)
    (i : Z) (U : Mat4) (j : Z) (J : JT) : Mat4 * Z * JT :=
  match ets with
  | [] => (U, j, J)
  | et :: rest =>
      let U := mprod U (element_pose q et) in
      if et_isjoint et then
        let U :=
          match tool with
          | Some tl => if (i =? m - 1)%Z then mprod U tl else U
          | None => U
          end in
        let J :=
          axis0 (et_axis et) j U (mprod (rigid_inverse U) T) J in
        sweep0 tool T m rest (i + 1) U (j + 1) J
      else sweep0 tool T m rest (i + 1) U j J
  end.

(** The backward sweep, over the reversed chain. *)
Fixpoint sweepe (rev_ets : list ET) (U : Mat4) (j : Z) (J : JT)
    : Mat4 * Z * JT :=
  match rev_ets with
  | [] => (U, j, J)
  | et :: rest =>
      let U' := mprod (element_pose q et) U in
      if et_isjoint et then
        sweepe rest U' (j - 1) (axise (et_axis et) j U J)
      else sweepe rest U' j J
  end.

End SweepDefinitions.

(** The accumulator the backward sweep starts from. *)
Definition tool_seed (tool : option Mat4) : Mat4 :=
  match tool with
  | Some tl => mprod tl I4
  | None => I4
  end.

(** The number of Joint elements of a chain. *)
Definition joint_count (ets : list ET) : nat :=
  length (filter et_isjoint ets).

(** ** Rotations, adjoints and rigid chains *)

(** The rotation block of [T] applied to a vector. *)
Definition rotate (T : Mat4) (v : Vec3) : Vec3 :=
  let '(x, y, z) := v in
  (at4 T 0 0 * x + at4 T 0 1 * y + at4 T 0 2 * z,
   at4 T 1 0 * x + at4 T 1 1 * y + at4 T 1 2 * z,
   at4 T 2 0 * x + at4 T 2 1 * y + at4 T 2 2 * z).

Definition vadd (v w : Vec3) : Vec3 :=
  let '(x, y, z) := v in
  let '(x', y', z') := w in
  (x + x', y + y', z + z').

(** blockdiag(R, R) applied to a column: the linear and the angular part
    are each rotated by the rotation block of [T]. *)
Definition rotate_twist (T : Mat4) (tw : Twist) : Twist :=
  (rotate T (fst tw), rotate T (snd tw)).

(** The twist adjoint Ad(T) = [[R, [t]x R], [0, R]] applied to a column
    (linear part first): the linear part gains t x (R w). *)
Definition Ad_twist (T : Mat4) (tw : Twist) : Twist :=
  (vadd (rotate T (fst tw)) (cross3 (translation T) (rotate T (snd tw))),
   rotate T (snd tw)).

(** Every Static element of the chain carries a rigid transform. *)
Definition statics_rigid (ets : list ET) : Prop :=
  Forall (fun et => et_isjoint et = false -> rigid (et_T et)) ets.

(** T(E_1) . (T(E_2) . ( ... T(E_k))), the product of a chain suffix. *)
Definition suffix_product (q : buf) (l : list ET) : Mat4 :=
  fold_right (fun et acc => mprod (element_pose q et) acc) I4 l.

(** The accumulators of the backward sweep, listed in chain order. *)
Fixpoint jacobe_chain (q : buf) (l : list ET) : list (JointType * Mat4) :=
  match l with
  | [] => []
  | et :: rest =>
      if et_isjoint et then
        (et_axis et, suffix_product q rest) :: jacobe_chain q rest
      else jacobe_chain q rest
  end.

(** A chain with its revolute joint away from both ends: a unit offset
    along X, a rotation about Z, another unit offset along X. *)
Definition offset_elbow : list ET :=
  [mkET false false 0%Z JRx (TransX 1);
   mkET true false 0%Z JRz I4;
   mkET false false 0%Z JRx (TransX 1)].

(** ** Link trees *)

(** The local transform of a link at configuration [q]: its static part
    for a fixed link, its static part times the generator of its axis at
    the (possibly negated) joint value for a joint. *)
Definition link_local (q : buf) (l : Link) : Mat4 :=
  if link_isjoint l then
    mprod (link_A l)
      (generator (link_axis l)
         (if link_isflip l then - q (link_jindex l) else q (link_jindex l)))
  else link_A l.

(** The descriptor of a link: everything but the caches. *)
Definition same_link (l l' : Link) : Prop :=
  link_isjoint l' = link_isjoint l /\
  link_isflip l' = link_isflip l /\
  link_jindex l' = link_jindex l /\
  link_axis l' = link_axis l /\
  link_A l' = link_A l /\
  link_parent l' = link_parent l /\
  map shape_base (link_shapes l') = map shape_base (link_shapes l).

(** Parent-before-child order: no link is visited at or after a position
    where one of its children is. *)
Fixpoint parents_first (st : LinkStore) (links : list nat) : Prop :=
  match links with
  | [] => True
  | id :: rest =>
      (forall p, link_parent (st id) = Some p -> p <> id /\ ~ In p rest) /\
      parents_first st rest
  end.

(** The caches of a shape agree with the world pose [fk] of its link. *)
Definition shape_fresh (fk : Mat4) (s : Shape) : Prop :=
  shape_wT s = fk /\
  shape_sT s = mprod fk (shape_base s) /\
  forall k, (0 <= k <= 3)%Z ->
            shape_sq s k = Fknm._r2q (shape_sT s) calloc k.

(** The world pose of a link and the caches of its shapes after a pass
    that ends in the store [st']. *)
Definition link_done (q : buf) (base : Mat4) (st' : LinkStore)
    (orig l' : Link) : Prop :=
  link_fk l'
  = match link_parent orig with
    | Some p => mprod (link_fk (st' p)) (link_local q orig)
    | None => mprod base (link_local q orig)
    end /\
  Forall (shape_fresh (link_fk l')) (link_shapes l').

(** A root link sliding along X with a child turning about Z, the child
    carrying one shape. *)
Definition two_links : LinkStore :=
  fun id =>
    match id with
    | O => mkLink true false 0 JTx I4 calloc16 None []
    | _ => mkLink true false 1 JRz (TransX 1) calloc16 (Some O)
             [mkShape (TransX 1) calloc16 calloc16 calloc]
    end.

(** The chain element with the fields of a link: the link evaluated by
    the rule of elementary transforms, static pose or generator alone. *)
Definition et_of_link (l : Link) : ET :=
  mkET (link_isjoint l) (link_isflip l) (link_jindex l) (link_axis l)
       (link_A l).

(** A single root link: a joint about Z whose static part is the unit
    translation along X. *)
Definition offset_joint : LinkStore :=
  fun _ => mkLink true false 0 JRz (TransX 1) calloc16 None [].

(** Two poses with the same rotation block. *)
Definition same_rotation (r r' : Mat4) : Prop :=
  r.[0] = r'.[0] /\ r.[1] = r'.[1] /\ r.[2] = r'.[2] /\
  r.[4] = r'.[4] /\ r.[5] = r'.[5] /\ r.[6] = r'.[6] /\
  r.[8] = r'.[8] /\ r.[9] = r'.[9] /\ r.[10] = r'.[10].

(** ** Link chains *)

(** A(l_1) . (A(l_2) . ( ... A(l_k))), the product of the local
    transforms of a list of links. *)
Definition links_product (q : buf) (links : list Link) : Mat4 :=
  fold_right (fun l acc => mprod (link_local q l) acc) I4 links.

(** The elementary transforms of a link: its static part, followed by its
    joint when it has one. *)
Definition link_elements (l : Link) : list ET :=
  if link_isjoint l then
    [mkET false false 0 JRx (link_A l);
     mkET true (link_isflip l) (link_jindex l) (link_axis l) I4]
  else [mkET false false 0 JRx (link_A l)].

(** The chain of elementary transforms of a list of links. *)
Definition chain_of_links (links : list Link) : list ET :=
  flat_map link_elements links.

(** The number of joint links. *)
Definition joint_links (links : list Link) : nat :=
  length (filter link_isjoint links).

(** A chain of two links: a joint about Z behind a unit offset along X,
    then a fixed unit offset along X. *)
Definition elbow_links : list Link :=
  [mkLink true false 0 JRz (TransX 1) calloc16 None [];
   mkLink false false 0 JRx (TransX 1) calloc16 None []].

(** ** General matrix products *)

(** f(0) + f(1) + ... + f(cnt - 1), summed in this order from 0. *)
Fixpoint dot_sum (cnt : nat) (f : Z -> R) : R :=
  match cnt with
  | O => 0
  | S c => dot_sum c f + f (Z.of_nat c)
  end.

(** The row-major buffer of the transpose of a rows x cols matrix held
    row-major in [A]. *)
Definition transpose_buf (rows cols : Z) (A : buf) : buf :=
  fun idx => A ((idx mod rows) * cols + idx / rows)%Z.

(** The three nested loops of a matrix product whose operands are read
    through [a] and [b]. *)
Definition mult_loops (n q p : Z) (a b : Z -> Z -> R) (C : buf) : buf :=
  for_range 0 n (fun i C =>
    for_range 0 q (fun j C =>
      let num := for_range 0 p (fun k num => num + a i k * b k j) 0 in
      upd C (i * q + j) num) C) C.


(** The buffer of sixteen doubles that holds a pose. *)
Definition buf_of_mat (M : Mat4) : buf := fun k => M.[k].

(** ** Pose error, its parts *)

(** li = (R21 - R12, R02 - R20, R10 - R01) of the relative rotation. *)
Definition rotation_li (achieved target : Mat4) : Vec3 :=
  let Rm := relative_rotation achieved target in
  (Rm 2%Z 1%Z - Rm 1%Z 2%Z, Rm 0%Z 2%Z - Rm 2%Z 0%Z,
   Rm 1%Z 0%Z - Rm 0%Z 1%Z).

(** The trace of the relative rotation. *)
Definition rotation_trace (achieved target : Mat4) : R :=
  let Rm := relative_rotation achieved target in
  Rm 0%Z 0%Z + Rm 1%Z 1%Z + Rm 2%Z 2%Z.

(** Rows 3-5 of the pose error. *)
Definition angular_error (e : buf) : Vec3 := (e 3%Z, e 4%Z, e 5%Z).

(** Rows 0-2 of the pose error. *)
Definition linear_error (e : buf) : Vec3 := (e 0%Z, e 1%Z, e 2%Z).

Definition vopp (v : Vec3) : Vec3 :=
  let '(x, y, z) := v in (- x, - y, - z).

(** ** Jacobian columns, their joints *)

(** A joint about an axis, as opposed to a joint along an axis. *)
Definition is_revolute (a : JointType) : bool :=
  match a with
  | JRx | JRy | JRz => true
  | JTx | JTy | JTz => false
  end.

(** The axes of the joints of a chain, in chain order. *)
Definition joint_axes (ets : list ET) : list JointType :=
  map et_axis (filter et_isjoint ets).

Definition dot3 (v w : Vec3) : R :=
  let '(x, y, z) := v in
  let '(x', y', z') := w in
  x * x' + y * y' + z * z'.

(** The shape of a Jacobian column of a joint with axis [a]: a revolute
    joint has a unit angular part, a prismatic joint a zero angular part
    and a unit linear part. *)
Definition unit_screw (a : JointType) (tw : Twist) : Prop :=
  if is_revolute a then dot3 (snd tw) (snd tw) = 1
  else snd tw = (0, 0, 0) /\ dot3 (fst tw) (fst tw) = 1.

(** ** Tree propagation, repeated *)

(** Two shapes hold the same caches: world transform, offset pose and the
    four cells of the quaternion. *)
Definition same_caches (s s' : Shape) : Prop :=
  shape_wT s' = shape_wT s /\
  shape_sT s' = shape_sT s /\
  forall k, (0 <= k <= 3)%Z -> shape_sq s' k = shape_sq s k.

(** * Properties *)

(** ** Evaluation tactics *)

Ltac unfold_mat :=
  cbv [mult mult_alias copy rx ry rz tx ty tz _eye4 _inv mprod I4 Zero4
       RotX RotY RotZ TransX TransY TransZ
       calloc16 for_range for_up set get tabulate
       Z.eqb Z.mul Z.add Z.sub Z.opp Z.pos_sub Z.succ_double Z.pred_double
       Z.double Z.to_nat Z.div Z.modulo Z.div_eucl Z.pos_div_eucl Z.leb Z.ltb
       Z.compare Pos.eqb Pos.mul Pos.add Pos.succ Pos.add_carry
       Pos.pred_double Pos.to_nat Pos.iter_op Pos.compare Pos.compare_cont
       Nat.add fst snd
       e0 e1 e2 e3 e4 e5 e6 e7 e8 e9 e10 e11 e12 e13 e14 e15].

Lemma mkMat4_ext
    (a0 a1 a2 a3 a4 a5 a6 a7 a8 a9 a10 a11 a12 a13 a14 a15 : R)
    (b0 b1 b2 b3 b4 b5 b6 b7 b8 b9 b10 b11 b12 b13 b14 b15 : R) :
  a0 = b0 -> a1 = b1 -> a2 = b2 -> a3 = b3 ->
  a4 = b4 -> a5 = b5 -> a6 = b6 -> a7 = b7 ->
  a8 = b8 -> a9 = b9 -> a10 = b10 -> a11 = b11 ->
  a12 = b12 -> a13 = b13 -> a14 = b14 -> a15 = b15 ->
  mkMat4 a0 a1 a2 a3 a4 a5 a6 a7 a8 a9 a10 a11 a12 a13 a14 a15 =
  mkMat4 b0 b1 b2 b3 b4 b5 b6 b7 b8 b9 b10 b11 b12 b13 b14 b15.
Proof. intros; subst; reflexivity. Qed.

Ltac mat_eq := unfold_mat; apply mkMat4_ext; try ring.

(** ** Basic facts *)

Lemma mat4_eta (M : Mat4) :
  M = mkMat4 M.[0] M.[1] M.[2] M.[3] M.[4] M.[5] M.[6] M.[7]
             M.[8] M.[9] M.[10] M.[11] M.[12] M.[13] M.[14] M.[15].
Proof. destruct M; reflexivity. Qed.

Lemma copy_eq (A B : Mat4) : copy A B = A.
Proof. destruct A, B; mat_eq. Qed.

Lemma mult_eq (A B C : Mat4) : mult A B C = mprod A B.
Proof. destruct A, B, C; mat_eq. Qed.

Lemma eye4_eq (data : Mat4) : _eye4 data = I4.
Proof. destruct data; mat_eq. Qed.

Lemma mprod_assoc (A B C : Mat4) :
  mprod (mprod A B) C = mprod A (mprod B C).
Proof. destruct A, B, C; mat_eq. Qed.

Lemma mprod_I4_l (A : Mat4) : mprod I4 A = A.
Proof. destruct A; mat_eq. Qed.

Lemma mprod_I4_r (A : Mat4) : mprod A I4 = A.
Proof. destruct A; mat_eq. Qed.

Lemma mprod_Zero4_l (A : Mat4) : mprod Zero4 A = Zero4.
Proof. destruct A; mat_eq. Qed.

Lemma inv_indep (m inv inv' : Mat4) : _inv m inv = _inv m inv'.
Proof. destruct m, inv, inv'; mat_eq. Qed.

Lemma inv_left (m inv : Mat4) :
  rigid m -> mprod (_inv m inv) m = I4.
Proof.
  intros [[H12 [H13 [H14 H15]]] [C00 [C11 [C22 [C01 [C02 C12]]]]]].
  destruct m, inv; revert H12 H13 H14 H15 C00 C11 C22 C01 C02 C12.
  unfold_mat; intros; subst.
  apply mkMat4_ext; try ring; nra.
Qed.

(** ** Rigid inverse *)

(** C7. For every 4x4 buffer [m], [_inv] writes the transposed rotation
    block, the translation [-(Rt t)] and the bottom row (0, 0, 0, 1); and
    when [m] is rigid (homogeneous, orthonormal rotation block), composing
    the result with [m] gives the identity. *)
Theorem rigidInverse_spec (m inv : Mat4) :
  let r := _inv m inv in
  (r.[0] = m.[0] /\ r.[1] = m.[4] /\ r.[2] = m.[8] /\
   r.[4] = m.[1] /\ r.[5] = m.[5] /\ r.[6] = m.[9] /\
   r.[8] = m.[2] /\ r.[9] = m.[6] /\ r.[10] = m.[10]) /\
  (r.[3] = - (m.[0] * m.[3] + m.[4] * m.[7] + m.[8] * m.[11]) /\
   r.[7] = - (m.[1] * m.[3] + m.[5] * m.[7] + m.[9] * m.[11]) /\
   r.[11] = - (m.[2] * m.[3] + m.[6] * m.[7] + m.[10] * m.[11])) /\
  (r.[12] = 0 /\ r.[13] = 0 /\ r.[14] = 0 /\ r.[15] = 1) /\
  (rigid m -> forall C D : Mat4, mult r m C = _eye4 D).
Proof.
  intro r; subst r.
  split; [|split; [|split]].
  - destruct m, inv; unfold_mat; repeat split.
  - destruct m, inv; unfold_mat; repeat split.
  - destruct m, inv; unfold_mat; repeat split.
  - intros Hr C D. rewrite mult_eq, eye4_eq. now apply inv_left.
Qed.

(** ** Chain forward kinematics *)

Lemma calloc16_eq : calloc16 = Zero4.
Proof. reflexivity. Qed.

Lemma op_of_eq (a : JointType) (data : Mat4) (eta : R) :
  op_of a data eta = generator a eta.
Proof. destruct a, data; unfold op_of, generator; mat_eq. Qed.

Lemma ET_T_eq (q : buf) (et : ET) (ret : Mat4) :
  _ET_T et ret (q (et_jindex et)) = element_pose q et.
Proof.
  unfold _ET_T, element_pose, et_op.
  destruct (et_isjoint et); simpl.
  - apply op_of_eq.
  - apply copy_eq.
Qed.

Lemma methods_ET_T_eq (q : buf) (et : ET) (ret : Mat4) :
  Methods._ET_T et ret (q (et_jindex et)) = element_pose q et.
Proof. apply ET_T_eq. Qed.

Lemma methods_fkine_loop (q : buf) (ets : list ET) (e_ret current : Mat4) :
  snd (fold_left
         (fun '(e_ret, current) et =>
            let e_ret := Methods._ET_T et e_ret (q (et_jindex et)) in
            let temp := mprod current e_ret in
            let current := temp in
            (e_ret, current))
         ets (e_ret, current))
  = chain_product current (map (element_pose q) ets).
Proof.
  revert e_ret current.
  induction ets as [|et ets IH]; intros e_ret current; simpl.
  - reflexivity.
  - rewrite IH, methods_ET_T_eq. reflexivity.
Qed.

Lemma methods_fkine_product (ets : list ET) (q : buf)
    (base tool : option Mat4) (e_ret : Mat4) :
  Methods._ETS_fkine ets q base tool e_ret = fkine_product ets q base tool.
Proof.
  unfold Methods._ETS_fkine, fkine_product.
  pose proof (methods_fkine_loop q ets e_ret (or_identity base)) as H.
  unfold or_identity in H at 1.
  destruct base as [b|]; simpl in *;
    destruct (fold_left _ ets _) as [r c]; simpl in H; subst c;
    destruct tool as [t|]; simpl; try reflexivity;
    now rewrite mprod_I4_r.
Qed.

Lemma fknm_fkine_loop (q : buf) (ets : list ET) (ret current : Mat4) :
  ets <> [] ->
  snd (fold_left
         (fun '(ret, current) et =>
            let ret := _ET_T et ret (q (et_jindex et)) in
            let current := copy calloc16 current in
            (ret, current))
         ets (ret, current))
  = Zero4.
Proof.
  revert ret current.
  induction ets as [|et ets IH]; intros ret current Hne; [congruence|].
  simpl. destruct ets as [|et' ets'].
  - simpl. now rewrite copy_eq.
  - apply IH. discriminate.
Qed.

Lemma fknm_fkine_zero (ets : list ET) (q : buf)
    (base tool : option Mat4) (ret : Mat4) :
  ets <> [] -> Fknm._ETS_fkine ets q base tool ret = Zero4.
Proof.
  intros Hne. unfold Fknm._ETS_fkine.
  match goal with
  | |- context [fold_left ?f ets (ret, ?c)] =>
      pose proof (fknm_fkine_loop q ets ret c Hne) as H;
      destruct (fold_left f ets (ret, c)) as [r cur]
  end.
  simpl in H; subst cur.
  destruct tool as [t|].
  - rewrite mult_eq. apply mprod_Zero4_l.
  - apply copy_eq.
Qed.

Lemma homogeneous_mprod (A B : Mat4) :
  homogeneous A -> homogeneous B -> homogeneous (mprod A B).
Proof.
  unfold homogeneous. destruct A, B. unfold_mat.
  intros [-> [-> [-> ->]]] [-> [-> [-> ->]]].
  repeat split; ring.
Qed.

Lemma homogeneous_I4 : homogeneous I4.
Proof. unfold homogeneous; unfold_mat; repeat split. Qed.

Lemma homogeneous_generator (a : JointType) (t : R) :
  homogeneous (generator a t).
Proof. destruct a; unfold homogeneous, generator; unfold_mat; repeat split. Qed.

Lemma homogeneous_chain_product (q : buf) (ets : list ET) (acc : Mat4) :
  homogeneous acc -> statics_homogeneous ets ->
  homogeneous (chain_product acc (map (element_pose q) ets)).
Proof.
  revert acc. induction ets as [|et ets IH]; intros acc Hacc Hs; simpl.
  - exact Hacc.
  - inversion Hs as [|? ? Het Hrest]; subst.
    apply IH; [|exact Hrest].
    apply homogeneous_mprod; [exact Hacc|].
    unfold element_pose. destruct (et_isjoint et).
    + apply homogeneous_generator.
    + now apply Het.
Qed.

Lemma homogeneous_or_identity (o : option Mat4) :
  match o with Some M => homogeneous M | None => True end ->
  homogeneous (or_identity o).
Proof. destruct o; simpl; [tauto | intros _; apply homogeneous_I4]. Qed.

Lemma homogeneous_not_zero (M : Mat4) : homogeneous M -> M <> Zero4.
Proof.
  intros [_ [_ [_ H]]] E. rewrite E in H. revert H. unfold_mat. lra.
Qed.

(** C1. The C implementation of chain forward kinematics does not return
    the product base . T(E_1) ... T(E_k) . tool: on the chain made of one
    prismatic X joint at joint value 2, without base and tool, fknm.c
    writes the all-zero matrix while the product is the translation by 2
    along X. *)
Theorem fknm_fkine_misses_product :
  let q : buf := fun _ => 2 in
  Fknm._ETS_fkine [slider] q None None calloc16 = Zero4 /\
  fkine_product [slider] q None None = TransX 2 /\
  Fknm._ETS_fkine [slider] q None None calloc16
    <> fkine_product [slider] q None None.
Proof.
  intro q.
  assert (H1 : Fknm._ETS_fkine [slider] q None None calloc16 = Zero4)
    by (apply fknm_fkine_zero; discriminate).
  assert (H2 : fkine_product [slider] q None None = TransX 2)
    by (unfold fkine_product, chain_product, element_pose, or_identity,
          slider, generator, q; simpl; mat_eq).
  split; [exact H1|]. split; [exact H2|].
  rewrite H1, H2. intro E.
  assert (H : Zero4.[15] = (TransX 2).[15]) by now rewrite E.
  revert H. unfold_mat. lra.
Qed.

(** C8. In fknm.c the element loop only copies the zeroed [temp] into the
    accumulator, so for every chain with at least one element the function
    writes the all-zero matrix, whatever [q], [base] and [tool] are; the
    product of the specification is what methods.cpp returns, and with a
    homogeneous base, tool and Static elements that product is not the
    zero matrix. *)
Theorem fknm_fkine_writes_zero (ets : list ET) (q : buf)
    (base tool : option Mat4) (ret : Mat4) :
  ets <> [] ->
  Fknm._ETS_fkine ets q base tool ret = Zero4 /\
  Methods._ETS_fkine ets q base tool ret = fkine_product ets q base tool /\
  (match base with Some M => homogeneous M | None => True end ->
   match tool with Some M => homogeneous M | None => True end ->
   statics_homogeneous ets ->
   fkine_product ets q base tool <> Zero4).
Proof.
  intros Hne. split; [now apply fknm_fkine_zero|].
  split; [apply methods_fkine_product|].
  intros Hb Ht Hs. apply homogeneous_not_zero.
  unfold fkine_product. apply homogeneous_mprod.
  - apply homogeneous_chain_product; [now apply homogeneous_or_identity|exact Hs].
  - now apply homogeneous_or_identity.
Qed.

Lemma fknm_fkine_writes_zero_witness :
  [slider] <> [] /\
  Fknm._ETS_fkine [slider] (fun _ => 2) None (Some (TransX 1)) I4 = Zero4.
Proof.
  split.
  - discriminate.
  - apply (fknm_fkine_writes_zero [slider] (fun _ => 2) None
             (Some (TransX 1)) I4).
    discriminate.
Defined.

Lemma quarter_turn_rigid : rigid quarter_turn.
Proof.
  unfold rigid, homogeneous, rot_cols_orthonormal, quarter_turn.
  unfold_mat. repeat split; ring.
Defined.

Lemma rigidInverse_spec_witness :
  rigid quarter_turn /\
  mult (_inv quarter_turn calloc16) quarter_turn calloc16 = _eye4 calloc16.
Proof.
  split.
  - exact quarter_turn_rigid.
  - exact (proj2 (proj2 (proj2 (rigidInverse_spec quarter_turn calloc16)))
             quarter_turn_rigid calloc16 calloc16).
Defined.

(** ** Loops over buffers *)

Lemma for_up_untouched (cnt : nat) (lo : Z) (body : Z -> buf -> buf)
    (H : buf) (x : Z) :
  (forall k H', (lo <= k < lo + Z.of_nat cnt)%Z -> body k H' x = H' x) ->
  for_up cnt lo body H x = H x.
Proof.
  revert lo H. induction cnt as [|c IH]; intros lo H Hb; simpl.
  - reflexivity.
  - rewrite IH.
    + apply Hb. lia.
    + intros k H' Hk. apply Hb. lia.
Qed.

Lemma for_up_set_once (cnt : nat) (lo : Z) (body : Z -> buf -> buf)
    (H : buf) (x k0 : Z) (v : R) :
  (lo <= k0 < lo + Z.of_nat cnt)%Z ->
  (forall H', body k0 H' x = v) ->
  (forall k H', (lo <= k < lo + Z.of_nat cnt)%Z -> k <> k0 ->
                body k H' x = H' x) ->
  for_up cnt lo body H x = v.
Proof.
  revert lo H. induction cnt as [|c IH]; intros lo H Hk0 Hset Hoth; simpl.
  - lia.
  - destruct (Z.eq_dec lo k0) as [->|Hne].
    + rewrite for_up_untouched.
      * apply Hset.
      * intros k H' Hk. apply Hoth; lia.
    + apply IH.
      * lia.
      * exact Hset.
      * intros k H' Hk Hkne. apply Hoth; lia.
Qed.

Lemma for_range_untouched (lo hi : Z) (body : Z -> buf -> buf)
    (H : buf) (x : Z) :
  (forall k H', (lo <= k < hi)%Z -> body k H' x = H' x) ->
  for_range lo hi body H x = H x.
Proof.
  intros Hb. unfold for_range. apply for_up_untouched.
  intros k H' Hk. apply Hb. lia.
Qed.

Lemma for_range_set_once (lo hi : Z) (body : Z -> buf -> buf)
    (H : buf) (x k0 : Z) (v : R) :
  (lo <= k0 < hi)%Z ->
  (forall H', body k0 H' x = v) ->
  (forall k H', (lo <= k < hi)%Z -> k <> k0 -> body k H' x = H' x) ->
  for_range lo hi body H x = v.
Proof.
  intros Hk0 Hset Hoth. unfold for_range.
  apply for_up_set_once with (k0 := k0).
  - lia.
  - exact Hset.
  - intros k H' Hk Hne. apply Hoth; lia.
Qed.

(** ** Hessian *)

Lemma hessian_unfold (n : Z) (J H : buf) :
  _ETS_hessian n J H =
  for_range 0 n (fun j H => for_range j n (hessian_body n J j) H) H.
Proof. reflexivity. Qed.

Lemma cell_inj (n j r i j' r' i' : Z) :
  (0 <= i < n)%Z -> (0 <= i' < n)%Z ->
  (0 <= r < 6)%Z -> (0 <= r' < 6)%Z ->
  cell n j r i = cell n j' r' i' -> j = j' /\ r = r' /\ i = i'.
Proof.
  unfold cell. intros Hi Hi' Hr Hr' E.
  assert (E' : ((j * 6 + r) * n + i = (j' * 6 + r') * n + i')%Z) by lia.
  assert (Hq : (j * 6 + r = j' * 6 + r')%Z) by nia.
  assert (i = i') by nia.
  lia.
Qed.

Lemma upd_same (b : buf) (k : Z) (v : R) : upd b k v k = v.
Proof. unfold upd. now rewrite Z.eqb_refl. Qed.

Lemma upd_other (b : buf) (k x : Z) (v : R) : x <> k -> upd b k v x = b x.
Proof. unfold upd. intros Hne. destruct (Z.eqb_spec x k); [lia|reflexivity]. Qed.

Lemma cross_frame (a b H : buf) (off n x : Z) :
  x <> off -> x <> (off + n)%Z -> x <> (off + 2 * n)%Z ->
  unptr (_cross a b (ptr H off) n) off x = H x.
Proof.
  intros H0 H1 H2. unfold unptr, _cross.
  rewrite !upd_other by lia. unfold ptr. f_equal. lia.
Qed.

Lemma cross_at_0 (a b H : buf) (off n : Z) :
  n <> 0%Z ->
  (unptr (_cross a b (ptr H off) n) off).{off} =
  a.{n} * b.{2 * n} - a.{2 * n} * b.{n}.
Proof.
  intros Hn. unfold unptr, _cross.
  rewrite !upd_other by lia.
  replace (off - off)%Z with 0%Z by lia. rewrite upd_same.
  now rewrite !Z.mul_1_l.
Qed.

Lemma cross_at_1 (a b H : buf) (off n : Z) :
  n <> 0%Z ->
  (unptr (_cross a b (ptr H off) n) off).{off + n} =
  a.{2 * n} * b.{0} - a.{0} * b.{2 * n}.
Proof.
  intros Hn. unfold unptr, _cross.
  rewrite upd_other by lia.
  replace (off + n - off)%Z with (1 * n)%Z by lia. now rewrite upd_same.
Qed.

Lemma cross_at_2 (a b H : buf) (off n : Z) :
  (unptr (_cross a b (ptr H off) n) off).{off + 2 * n} =
  a.{0} * b.{n} - a.{n} * b.{0}.
Proof.
  unfold unptr, _cross.
  replace (off + 2 * n - off)%Z with (2 * n)%Z by lia. rewrite upd_same.
  now rewrite !Z.mul_1_l.
Qed.

Lemma hessian_body_frame (n : Z) (J : buf) (j i : Z) (H : buf) (x : Z) :
  (forall r, (0 <= r < 6)%Z -> x <> cell n j r i) ->
  (i <> j -> forall r, (0 <= r < 6)%Z -> x <> cell n i r j) ->
  hessian_body n J j i H x = H x.
Proof.
  intros Hp Hm.
  pose proof (Hp 0%Z ltac:(lia)) as P0. pose proof (Hp 1%Z ltac:(lia)) as P1.
  pose proof (Hp 2%Z ltac:(lia)) as P2. pose proof (Hp 3%Z ltac:(lia)) as P3.
  pose proof (Hp 4%Z ltac:(lia)) as P4. pose proof (Hp 5%Z ltac:(lia)) as P5.
  unfold cell in P0, P1, P2, P3, P4, P5.
  unfold hessian_body; cbv zeta.
  destruct (Z.eqb_spec i j) as [E|NE]; cbn [negb].
  - rewrite !cross_frame by lia. reflexivity.
  - pose proof (Hm NE 0%Z ltac:(lia)) as M0.
    pose proof (Hm NE 1%Z ltac:(lia)) as M1.
    pose proof (Hm NE 2%Z ltac:(lia)) as M2.
    pose proof (Hm NE 3%Z ltac:(lia)) as M3.
    pose proof (Hm NE 4%Z ltac:(lia)) as M4.
    pose proof (Hm NE 5%Z ltac:(lia)) as M5.
    unfold cell in M0, M1, M2, M3, M4, M5.
    rewrite !upd_other by lia.
    rewrite !cross_frame by lia. reflexivity.
Qed.

Lemma hessian_body_cross (n : Z) (J : buf) (j i : Z) (H : buf) :
  hessian_body n J j i H =
  let H := hessian_cross n J j i H in
  if negb (i =? j)%Z then
    let H := upd H (i * 6 * n + j) H.{j * 6 * n + i} in
    let H := upd H (i * 6 * n + j + n) H.{j * 6 * n + i + n} in
    let H := upd H (i * 6 * n + j + 2 * n) H.{j * 6 * n + i + 2 * n} in
    let H := upd H (i * 6 * n + j + 3 * n) 0 in
    let H := upd H (i * 6 * n + j + 4 * n) 0 in
    let H := upd H (i * 6 * n + j + 5 * n) 0 in
    H
  else H.
Proof. reflexivity. Qed.

Lemma hessian_cross_primary (n : Z) (J : buf) (j i : Z) (H : buf) (r : Z) :
  (0 < n)%Z -> (0 <= r < 6)%Z ->
  (hessian_cross n J j i H).{cell n j r i} = hessian_entry n J j i r.
Proof.
  intros Hn Hr. unfold hessian_cross.
  assert (r = 0 \/ r = 1 \/ r = 2 \/ r = 3 \/ r = 4 \/ r = 5)%Z
    as [->|[->|[->|[->|[->| ->]]]]] by lia; unfold cell, hessian_entry.
  - rewrite cross_frame by lia.
    replace (j * 6 * n + 0 * n + i)%Z with (j * 6 * n + i)%Z by lia.
    apply cross_at_0; lia.
  - rewrite cross_frame by lia.
    replace (j * 6 * n + 1 * n + i)%Z with (j * 6 * n + i + n)%Z by lia.
    apply cross_at_1; lia.
  - rewrite cross_frame by lia.
    replace (j * 6 * n + 2 * n + i)%Z with (j * 6 * n + i + 2 * n)%Z by lia.
    apply cross_at_2; lia.
  - replace (j * 6 * n + 3 * n + i)%Z with (j * 6 * n + i + 3 * n)%Z by lia.
    apply cross_at_0; lia.
  - replace (j * 6 * n + 4 * n + i)%Z
      with (j * 6 * n + i + 3 * n + n)%Z by lia.
    apply cross_at_1; lia.
  - replace (j * 6 * n + 5 * n + i)%Z
      with (j * 6 * n + i + 3 * n + 2 * n)%Z by lia.
    apply cross_at_2; lia.
Qed.

Lemma hessian_body_primary (n : Z) (J : buf) (j i : Z) (H : buf) (r : Z) :
  (0 <= i < n)%Z -> (0 <= j < n)%Z -> (0 <= r < 6)%Z ->
  (hessian_body n J j i H).{cell n j r i} = hessian_entry n J j i r.
Proof.
  intros Hi Hj Hr.
  rewrite hessian_body_cross; cbv zeta.
  destruct (Z.eqb_spec i j) as [E|NE]; cbn [negb].
  - apply hessian_cross_primary; lia.
  - assert (Hmir : forall r', (0 <= r' < 6)%Z ->
                   cell n j r i <> cell n i r' j).
    { intros r' Hr' E. apply cell_inj in E; lia. }
    pose proof (Hmir 0%Z ltac:(lia)) as M0.
    pose proof (Hmir 1%Z ltac:(lia)) as M1.
    pose proof (Hmir 2%Z ltac:(lia)) as M2.
    pose proof (Hmir 3%Z ltac:(lia)) as M3.
    pose proof (Hmir 4%Z ltac:(lia)) as M4.
    pose proof (Hmir 5%Z ltac:(lia)) as M5.
    unfold cell in M0, M1, M2, M3, M4, M5.
    rewrite !upd_other by (unfold cell; lia).
    apply hessian_cross_primary; lia.
Qed.

Lemma hessian_body_mirror (n : Z) (J : buf) (j i : Z) (H : buf) (r : Z) :
  (0 <= i < n)%Z -> (0 <= j < n)%Z -> i <> j -> (0 <= r < 6)%Z ->
  (hessian_body n J j i H).{cell n i r j} =
  if (r <? 3)%Z then hessian_entry n J j i r else 0.
Proof.
  intros Hi Hj NE Hr.
  assert (N10 : cell n j 1 i <> cell n i 0 j)
    by (intros E; apply cell_inj in E; lia).
  assert (N20 : cell n j 2 i <> cell n i 0 j)
    by (intros E; apply cell_inj in E; lia).
  assert (N21 : cell n j 2 i <> cell n i 1 j)
    by (intros E; apply cell_inj in E; lia).
  unfold cell in N10, N20, N21.
  rewrite hessian_body_cross; cbv zeta.
  destruct (Z.eqb_spec i j) as [E|_]; [contradiction|]; cbn [negb].
  assert (r = 0 \/ r = 1 \/ r = 2 \/ r = 3 \/ r = 4 \/ r = 5)%Z
    as [->|[->|[->|[->|[->| ->]]]]] by lia; unfold cell;
    change (0 <? 3)%Z with true; change (1 <? 3)%Z with true;
    change (2 <? 3)%Z with true; change (3 <? 3)%Z with false;
    change (4 <? 3)%Z with false; change (5 <? 3)%Z with false; cbv iota.
  - rewrite !upd_other by lia.
    replace (i * 6 * n + 0 * n + j)%Z with (i * 6 * n + j)%Z by lia.
    rewrite upd_same.
    replace (j * 6 * n + i)%Z with (cell n j 0 i) by (unfold cell; lia).
    apply hessian_cross_primary; lia.
  - rewrite !upd_other by lia.
    replace (i * 6 * n + 1 * n + j)%Z with (i * 6 * n + j + n)%Z by lia.
    rewrite upd_same.
    rewrite upd_other by lia.
    replace (j * 6 * n + i + n)%Z with (cell n j 1 i) by (unfold cell; lia).
    apply hessian_cross_primary; lia.
  - rewrite !upd_other by lia.
    replace (i * 6 * n + 2 * n + j)%Z with (i * 6 * n + j + 2 * n)%Z by lia.
    rewrite upd_same.
    rewrite !upd_other by lia.
    replace (j * 6 * n + i + 2 * n)%Z with (cell n j 2 i)
      by (unfold cell; lia).
    apply hessian_cross_primary; lia.
  - rewrite !upd_other by lia.
    replace (i * 6 * n + 3 * n + j)%Z with (i * 6 * n + j + 3 * n)%Z by lia.
    apply upd_same.
  - rewrite !upd_other by lia.
    replace (i * 6 * n + 4 * n + j)%Z with (i * 6 * n + j + 4 * n)%Z by lia.
    apply upd_same.
  - replace (i * 6 * n + 5 * n + j)%Z with (i * 6 * n + j + 5 * n)%Z by lia.
    apply upd_same.
Qed.

Lemma hessian_row_frame (n : Z) (J : buf) (j : Z) (H : buf) (x : Z) :
  (forall i r, (j <= i < n)%Z -> (0 <= r < 6)%Z ->
               x <> cell n j r i /\ x <> cell n i r j) ->
  hessian_row n J j H x = H x.
Proof.
  intros Hx. unfold hessian_row. apply for_range_untouched.
  intros i H' Hi. apply hessian_body_frame.
  - intros r Hr. now apply Hx.
  - intros _ r Hr. now apply Hx.
Qed.

(** The pair (j, i), j <= i < n, writes H[j][r, i]; every other pair of the
    sweep leaves that cell alone. *)
Lemma hessian_primary_cell (n : Z) (J H : buf) (j i r : Z) :
  (0 <= j <= i)%Z -> (i < n)%Z -> (0 <= r < 6)%Z ->
  (_ETS_hessian n J H).{cell n j r i} = hessian_entry n J j i r.
Proof.
  intros Hji Hin Hr. rewrite hessian_unfold.
  apply for_range_set_once with (k0 := j); [lia| |].
  - intros H'. apply for_range_set_once with (k0 := i); [lia| |].
    + intros H''. apply hessian_body_primary; lia.
    + intros i' H'' Hi' Hne. apply hessian_body_frame.
      * intros r' Hr' E. apply cell_inj in E; lia.
      * intros _ r' Hr' E. apply cell_inj in E; lia.
  - intros j' H' Hj' Hne. apply hessian_row_frame.
    intros i' r' Hi' Hr'. split; intros E; apply cell_inj in E; lia.
Qed.

(** The pair (j, i), j < i < n, also writes the mirrored H[i][r, j]. *)
Lemma hessian_mirror_cell (n : Z) (J H : buf) (j i r : Z) :
  (0 <= j < i)%Z -> (i < n)%Z -> (0 <= r < 6)%Z ->
  (_ETS_hessian n J H).{cell n i r j} =
  if (r <? 3)%Z then hessian_entry n J j i r else 0.
Proof.
  intros Hji Hin Hr. rewrite hessian_unfold.
  apply for_range_set_once with (k0 := j); [lia| |].
  - intros H'. apply for_range_set_once with (k0 := i); [lia| |].
    + intros H''. apply hessian_body_mirror; lia.
    + intros i' H'' Hi' Hne. apply hessian_body_frame.
      * intros r' Hr' E. apply cell_inj in E; lia.
      * intros _ r' Hr' E. apply cell_inj in E; lia.
  - intros j' H' Hj' Hne. apply hessian_row_frame.
    intros i' r' Hi' Hr'. split; intros E; apply cell_inj in E; lia.
Qed.

Ltac buf_cells_eq :=
  repeat match goal with
  | |- (_, _) = (_, _) => apply f_equal2
  | |- (_ - _)%R = (_ - _)%R => apply f_equal2
  | |- (_ * _)%R = (_ * _)%R => apply f_equal2
  | |- ?J _ = ?J _ => apply f_equal; lia
  end.

Lemma hessian_entry_lin (n : Z) (J : buf) (j i : Z) :
  (hessian_entry n J j i 0, hessian_entry n J j i 1, hessian_entry n J j i 2)
  = cross3 (Jblock n J 3 j) (Jblock n J 0 i).
Proof.
  unfold hessian_entry, cross3, Jblock, jcell, ptr.
  buf_cells_eq.
Qed.

Lemma hessian_entry_ang (n : Z) (J : buf) (j i : Z) :
  (hessian_entry n J j i 3, hessian_entry n J j i 4, hessian_entry n J j i 5)
  = cross3 (Jblock n J 3 j) (Jblock n J 3 i).
Proof.
  unfold hessian_entry, cross3, Jblock, jcell, ptr.
  buf_cells_eq.
Qed.

Lemma cross3_self (a : Vec3) : cross3 a a = (0, 0, 0).
Proof. destruct a as [[a0 a1] a2]. unfold cross3. repeat f_equal; ring. Qed.

Lemma hessian_primary_blocks (n : Z) (J H : buf) (j i : Z) :
  (0 <= j <= i)%Z -> (i < n)%Z ->
  Hblock n (_ETS_hessian n J H) j 0 i
    = cross3 (Jblock n J 3 j) (Jblock n J 0 i) /\
  Hblock n (_ETS_hessian n J H) j 3 i
    = cross3 (Jblock n J 3 j) (Jblock n J 3 i).
Proof.
  intros Hji Hin.
  rewrite <- hessian_entry_lin, <- hessian_entry_ang. unfold Hblock.
  change (0 + 1)%Z with 1%Z; change (0 + 2)%Z with 2%Z;
    change (3 + 1)%Z with 4%Z; change (3 + 2)%Z with 5%Z.
  rewrite !hessian_primary_cell by lia. split; reflexivity.
Qed.

(** C4. For every n, 6 x n Jacobian [J] and pair j <= i < n, the Hessian
    computed by [_ETS_hessian] has H[j][0:3, i] = cross(J[3:6, j], J[0:3, i])
    and H[j][3:6, i] = cross(J[3:6, j], J[3:6, i]); and when i <> j the
    mirrored entry has the same linear block, H[i][0:3, j] = H[j][0:3, i],
    and a zero angular block, H[i][3:6, j] = 0. *)
Theorem hessian_blocks (n : Z) (J H0 : buf) (j i : Z) :
  (0 <= j <= i)%Z -> (i < n)%Z ->
  let H := _ETS_hessian n J H0 in
  Hblock n H j 0 i = cross3 (Jblock n J 3 j) (Jblock n J 0 i) /\
  Hblock n H j 3 i = cross3 (Jblock n J 3 j) (Jblock n J 3 i) /\
  (i <> j ->
   Hblock n H i 0 j = Hblock n H j 0 i /\
   Hblock n H i 3 j = (0, 0, 0)).
Proof.
  intros Hji Hin H.
  destruct (hessian_primary_blocks n J H0 j i Hji Hin) as [Hl Ha].
  split; [exact Hl|]. split; [exact Ha|].
  intros Hne. subst H. unfold Hblock.
  change (0 + 1)%Z with 1%Z; change (0 + 2)%Z with 2%Z;
    change (3 + 1)%Z with 4%Z; change (3 + 2)%Z with 5%Z.
  rewrite !(hessian_mirror_cell n J H0 j i) by lia.
  rewrite !(hessian_primary_cell n J H0 j i) by lia.
  split; reflexivity.
Qed.

Lemma hessian_blocks_witness :
  (0 <= 0 <= 1)%Z /\ (1 < 2)%Z /\
  Hblock 2 (_ETS_hessian 2 IZR calloc) 1 3 0 = (0, 0, 0).
Proof.
  split; [lia|]. split; [lia|].
  apply (hessian_blocks 2 IZR calloc 0 1); lia.
Defined.

(** C10. For every n >= 1, 6 x n Jacobian [J] and joint index j < n, the
    diagonal angular block of the Hessian is the cross product of J[3:6, j]
    with itself, which is zero. *)
Theorem hessian_diagonal_angular_zero (n : Z) (J H0 : buf) (j : Z) :
  (0 <= j < n)%Z ->
  Hblock n (_ETS_hessian n J H0) j 3 j
    = cross3 (Jblock n J 3 j) (Jblock n J 3 j) /\
  cross3 (Jblock n J 3 j) (Jblock n J 3 j) = (0, 0, 0).
Proof.
  intros Hj. split.
  - apply hessian_primary_blocks; lia.
  - apply cross3_self.
Qed.

Lemma hessian_diagonal_angular_zero_witness :
  (0 <= 1 < 2)%Z /\
  Hblock 2 (_ETS_hessian 2 IZR calloc) 1 3 1 = (0, 0, 0).
Proof.
  split; [lia|].
  destruct (hessian_diagonal_angular_zero 2 IZR calloc 1 ltac:(lia))
    as [E1 E2].
  exact (eq_trans E1 E2).
Defined.

(** ** Pose error *)

(** C5. For every achieved pose [Te] and target pose [Tep], [_angle_axis]
    writes into rows 0-2 the difference of the translations, target minus
    achieved, and into rows 3-5 the rotation error computed from
    R = target.rotation . achieved.rotation^t and
    li = (R21 - R12, R02 - R20, R10 - R01): zero when |li| < 1e-6 and
    trace(R) > 0, (pi/2).(diag(R) + 1) when |li| < 1e-6 otherwise, and
    atan2(|li|, trace(R) - 1) . li / |li| else. *)
Theorem angle_axis_poseError (Te Tep : Mat4) (e : buf) :
  let e' := _angle_axis Te Tep e in
  ((e'.{0}, e'.{1}, e'.{2}), (e'.{3}, e'.{4}, e'.{5})) = poseError Te Tep.
Proof.
  intro e'. subst e'.
  unfold _angle_axis, poseError, translation, relative_rotation, rotation,
    norm3, _norm, _trace, M_PI_2, for_range, calloc.
  destruct Te, Tep. unfold_mat. simpl for_up. unfold upd. simpl.
  match goal with
  | |- context [Rlt_dec (sqrt ?a) _] =>
      match goal with
      | |- context [Rlt_dec (sqrt ?b) _] =>
          lazymatch a with
          | b => fail
          | _ => replace a with b by ring
          end
      end
  end.
  match goal with
  | |- context [Rgt_dec ?a 0] =>
      match goal with
      | |- context [Rgt_dec ?b 0] =>
          lazymatch a with
          | b => fail
          | _ => replace a with b by ring
          end
      end
  end.
  destruct (Rlt_dec _ _); [destruct (Rgt_dec _ _)|]; simpl;
    repeat match goal with
    | |- (_, _) = (_, _) => apply f_equal2
    end; try ring;
    (apply (f_equal2 Rdiv); [apply (f_equal2 Rmult); [reflexivity|ring]
                            |reflexivity]).
Qed.

(** ** Inverse-kinematics iterator *)

Lemma while_loop_invariant {St : Type} (P : St -> Prop) (cond : St -> bool)
    (body : St -> St) :
  (forall s, P s -> cond s = true /\ P (body s)) ->
  forall fuel s, P s -> while_loop fuel cond body s = None.
Proof.
  intros Hstep fuel. induction fuel as [|f IH]; intros s Hs; simpl.
  - reflexivity.
  - destruct (Hstep s Hs) as [Hc Hb]. rewrite Hc. now apply IH.
Qed.

Lemma iter_invariant {St : Type} (P : St -> Prop) (body : St -> St) :
  (forall s, P s -> P (body s)) ->
  forall k s, P s -> P (Nat.iter k body s).
Proof.
  intros Hstep k. induction k as [|k IH]; intros s Hs; simpl.
  - exact Hs.
  - apply Hstep. now apply IH.
Qed.

Lemma fknm_fkine_indep_ret (ets : list ET) (q : buf)
    (base tool : option Mat4) (ret ret' : Mat4) :
  Fknm._ETS_fkine ets q base tool ret = Fknm._ETS_fkine ets q base tool ret'.
Proof.
  destruct ets as [|et ets].
  - unfold Fknm._ETS_fkine. simpl.
    destruct tool; now rewrite ?mult_eq, ?copy_eq.
  - now rewrite !fknm_fkine_zero by discriminate.
Qed.

Lemma IK_frozen_cond (q : buf) (s : IKState) :
  IK_frozen q s -> IK_cond s = true.
Proof. intros [_ [Ha Hi]]. unfold IK_cond. now rewrite Ha, Hi. Qed.

Lemma fknm_IK_body_frozen (ets : list ET) (Tep : Mat4) (q : buf)
    (s : IKState) :
  IK_frozen q s -> IK_frozen q (Fknm.IK_body ets Tep s).
Proof. intros H. exact H. Qed.

Lemma methods_IK_body_frozen (Tep : Mat4) (q : buf) (s : IKState) :
  IK_frozen q s /\ ik_Te s = calloc16 ->
  IK_frozen q (Methods.IK_body Tep s) /\
  ik_Te (Methods.IK_body Tep s) = calloc16.
Proof. intros H. exact H. Qed.

(** C2, as stated, fails on fknm.c: with the empty chain the first
    iteration replaces the zeroed [Te] by the identity. *)
Lemma fknm_IK_body_updates_Te :
  ik_Te (Fknm.IK_body [] I4 (IK_init calloc)) <> ik_Te (IK_init calloc).
Proof.
  unfold Fknm.IK_body, IK_init, Fknm._ETS_fkine; simpl.
  rewrite copy_eq, eye4_eq. intro E.
  assert (H : I4.[0] = calloc16.[0]) by now rewrite E.
  revert H. unfold_mat. lra.
Qed.

(** C2, amended.  The loop body of [_ETS_IK] never updates [q], [arrived]
    or [iter]: in fknm.c it rewrites [Te] with the forward kinematics of
    the unchanged [q], the same pose at every iteration, and in
    methods.cpp it leaves [Te] as allocated.  So the guard holds after
    every iteration and, whatever the number of iterations allowed, the
    loop has not exited. *)
Theorem IK_loop_never_exits (ets : list ET) (n : Z) (q : buf) (Tep : Mat4)
    (ret : buf) :
  (forall k,
     let s := Nat.iter k (Fknm.IK_body ets Tep) (IK_init q) in
     ik_q s = q /\ ik_arrived s = 0%Z /\ ik_iter s = 0%Z /\
     IK_cond s = true /\
     ik_Te (Fknm.IK_body ets Tep s)
       = Fknm._ETS_fkine ets q None None calloc16) /\
  (forall k,
     let s := Nat.iter k (Methods.IK_body Tep) (IK_init q) in
     ik_q s = q /\ ik_arrived s = 0%Z /\ ik_iter s = 0%Z /\
     IK_cond s = true /\ ik_Te s = calloc16) /\
  (forall fuel, Fknm._ETS_IK fuel ets n q Tep ret = None) /\
  (forall fuel, Methods._ETS_IK fuel ets n q Tep ret = None).
Proof.
  assert (Hinit : IK_frozen q (IK_init q)) by (repeat split).
  split; [|split; [|split]].
  - intros k s.
    assert (Hs : IK_frozen q s)
      by (apply iter_invariant;
          [intros; now apply fknm_IK_body_frozen | exact Hinit]).
    pose proof (IK_frozen_cond q s Hs) as Hc.
    destruct Hs as [Hq [Ha Hi]]. repeat split; try assumption.
    unfold Fknm.IK_body; simpl. rewrite Hq. apply fknm_fkine_indep_ret.
  - intros k s.
    assert (Hs : IK_frozen q s /\ ik_Te s = calloc16)
      by (apply (iter_invariant
                   (fun s => IK_frozen q s /\ ik_Te s = calloc16));
          [intros; now apply methods_IK_body_frozen | now split]).
    destruct Hs as [Hs HTe].
    pose proof (IK_frozen_cond q s Hs) as Hc.
    destruct Hs as [Hq [Ha Hi]]. repeat split; assumption.
  - intros fuel. unfold Fknm._ETS_IK.
    rewrite (while_loop_invariant (IK_frozen q)); [reflexivity| |exact Hinit].
    intros s Hs. split; [now apply (IK_frozen_cond q)|].
    now apply fknm_IK_body_frozen.
  - intros fuel. unfold Methods._ETS_IK.
    rewrite (while_loop_invariant (IK_frozen q)); [reflexivity| |exact Hinit].
    intros s Hs. split; [now apply (IK_frozen_cond q)|exact Hs].
Qed.

(** ** Jacobians *)

Lemma fknm_jacob0_axis_same (axis : JointType) (n j : Z) (U temp : Mat4)
    (J : buf) :
  (0 < n)%Z ->
  column_buf n (Fknm.jacob0_axis axis n j U temp J) j
  = jacob0_twist axis U temp.
Proof.
  intros Hn. unfold column_buf.
  destruct axis; unfold Fknm.jacob0_axis; cbv zeta;
    repeat (first [rewrite upd_same | rewrite upd_other by lia]);
    reflexivity.
Qed.

Lemma fknm_jacob0_axis_other (axis : JointType) (n j c : Z) (U temp : Mat4)
    (J : buf) :
  (0 <= j < n)%Z -> (0 <= c < n)%Z -> c <> j ->
  column_buf n (Fknm.jacob0_axis axis n j U temp J) c = column_buf n J c.
Proof.
  intros Hj Hc Hne. unfold column_buf.
  destruct axis; unfold Fknm.jacob0_axis; cbv zeta;
    rewrite !upd_other by lia; reflexivity.
Qed.

Lemma fknm_jacobe_axis_same (axis : JointType) (n j : Z) (U : Mat4)
    (J : buf) :
  (0 < n)%Z ->
  column_buf n (Fknm.jacobe_axis axis n j U J) j = jacobe_twist axis U.
Proof.
  intros Hn. unfold column_buf.
  destruct axis; unfold Fknm.jacobe_axis; cbv zeta;
    repeat (first [rewrite upd_same | rewrite upd_other by lia]);
    reflexivity.
Qed.

Lemma fknm_jacobe_axis_other (axis : JointType) (n j c : Z) (U : Mat4)
    (J : buf) :
  (0 <= j < n)%Z -> (0 <= c < n)%Z -> c <> j ->
  column_buf n (Fknm.jacobe_axis axis n j U J) c = column_buf n J c.
Proof.
  intros Hj Hc Hne. unfold column_buf.
  destruct axis; unfold Fknm.jacobe_axis; cbv zeta;
    rewrite !upd_other by lia; reflexivity.
Qed.

Lemma set_rows_same (eJ : jmat) (r0 j : Z) (v : Vec3) :
  (set_rows eJ r0 j v r0 j, set_rows eJ r0 j v (r0 + 1)%Z j,
   set_rows eJ r0 j v (r0 + 2)%Z j) = v.
Proof.
  destruct v as [[x y] z]. unfold set_rows, set_entry.
  rewrite !Z.eqb_refl.
  replace (r0 =? r0 + 2)%Z with false by (symmetry; apply Z.eqb_neq; lia).
  replace (r0 =? r0 + 1)%Z with false by (symmetry; apply Z.eqb_neq; lia).
  replace (r0 + 1 =? r0 + 2)%Z with false
    by (symmetry; apply Z.eqb_neq; lia).
  reflexivity.
Qed.

Lemma set_rows_other_col (eJ : jmat) (r0 j r c : Z) (v : Vec3) :
  c <> j -> set_rows eJ r0 j v r c = eJ r c.
Proof.
  intros Hne. destruct v as [[x y] z]. unfold set_rows, set_entry.
  replace (c =? j)%Z with false by (symmetry; apply Z.eqb_neq; lia).
  now rewrite !andb_false_r.
Qed.

Lemma set_rows_other_row (eJ : jmat) (r0 j r c : Z) (v : Vec3) :
  (r < r0 \/ r0 + 2 < r)%Z -> set_rows eJ r0 j v r c = eJ r c.
Proof.
  intros Hr. destruct v as [[x y] z]. unfold set_rows, set_entry.
  replace (r =? r0)%Z with false by (symmetry; apply Z.eqb_neq; lia).
  replace (r =? r0 + 1)%Z with false by (symmetry; apply Z.eqb_neq; lia).
  replace (r =? r0 + 2)%Z with false by (symmetry; apply Z.eqb_neq; lia).
  reflexivity.
Qed.

Lemma set_rows_column (eJ : jmat) (j : Z) (v w : Vec3) :
  column_jmat (set_rows (set_rows eJ 0 j v) 3 j w) j = (v, w).
Proof.
  unfold column_jmat.
  rewrite !(set_rows_other_row _ 3 j) by lia.
  pose proof (set_rows_same eJ 0 j v) as Hv.
  pose proof (set_rows_same (set_rows eJ 0 j v) 3 j w) as Hw.
  simpl in Hv, Hw. now rewrite Hv, Hw.
Qed.

Lemma methods_jacob0_axis_same (axis : JointType) (j : Z) (U temp : Mat4)
    (eJ : jmat) :
  column_jmat (Methods.jacob0_axis axis j U temp eJ) j
  = jacob0_twist axis U temp.
Proof.
  destruct axis; unfold Methods.jacob0_axis; cbv zeta;
    apply set_rows_column.
Qed.

Lemma methods_jacob0_axis_other (axis : JointType) (j c : Z) (U temp : Mat4)
    (eJ : jmat) :
  c <> j ->
  column_jmat (Methods.jacob0_axis axis j U temp eJ) c = column_jmat eJ c.
Proof.
  intros Hne. unfold column_jmat.
  destruct axis; unfold Methods.jacob0_axis; cbv zeta;
    now rewrite !set_rows_other_col by exact Hne.
Qed.

Lemma methods_jacobe_axis_same (axis : JointType) (j : Z) (U : Mat4)
    (eJ : jmat) :
  column_jmat (Methods.jacobe_axis axis j U eJ) j = jacobe_twist axis U.
Proof.
  destruct axis; unfold Methods.jacobe_axis; cbv zeta;
    apply set_rows_column.
Qed.

Lemma methods_jacobe_axis_other (axis : JointType) (j c : Z) (U : Mat4)
    (eJ : jmat) :
  c <> j ->
  column_jmat (Methods.jacobe_axis axis j U eJ) c = column_jmat eJ c.
Proof.
  intros Hne. unfold column_jmat.
  destruct axis; unfold Methods.jacobe_axis; cbv zeta;
    now rewrite !set_rows_other_col by exact Hne.
Qed.

Section SweepFacts.

(** A Jacobian store with its per-axis assignments and the reading of a
    column; [valid c] says that column [c] exists. *)
Context {JT : Type}.
Variable axis0 : JointType -> Z -> Mat4 -> Mat4 -> JT -> JT.
Variable axise : JointType -> Z -> Mat4 -> JT -> JT.
Variable column : JT -> Z -> Twist.
Variable valid : Z -> Prop.

Hypothesis axis0_same : forall ax j U D J,
  valid j -> column (axis0 ax j U D J) j = jacob0_twist ax U D.
Hypothesis axis0_other : forall ax j c U D J,
  valid j -> valid c -> c <> j ->
  column (axis0 ax j U D J) c = column J c.
Hypothesis axise_same : forall ax j U J,
  valid j -> column (axise ax j U J) j = jacobe_twist ax U.
Hypothesis axise_other : forall ax j c U J,
  valid j -> valid c -> c <> j ->
  column (axise ax j U J) c = column J c.

Variable q : buf.

Local Abbreviation sweep0 := (sweep0 axis0 q).
Local Abbreviation sweepe := (sweepe axise q).

Lemma sweep0_frame tool T m ets : forall i U j J c,
  valid c -> (c < j)%Z ->
  (forall k, (k < length (jacob0_accs q tool m ets i U))%nat ->
             valid (j + Z.of_nat k)) ->
  column (snd (sweep0 tool T m ets i U j J)) c = column J c.
Proof.
  induction ets as [|et rest IH]; intros i U j J c Hc Hlt Hv; simpl.
  - reflexivity.
  - simpl in Hv. destruct (et_isjoint et).
    + rewrite IH; [|exact Hc|lia|].
      * apply axis0_other; [|exact Hc|lia].
        specialize (Hv 0%nat). simpl in Hv.
        replace j with (j + 0)%Z by lia. apply Hv. lia.
      * intros k Hk. specialize (Hv (S k)). simpl in Hv.
        replace (j + 1 + Z.of_nat k)%Z with (j + Z.of_nat (S k))%Z by lia.
        apply Hv. lia.
    + apply IH; assumption.
Qed.

Lemma sweep0_columns tool T m ets : forall i U j J k,
  (k < length (jacob0_accs q tool m ets i U))%nat ->
  (forall k', (k' < length (jacob0_accs q tool m ets i U))%nat ->
              valid (j + Z.of_nat k')) ->
  column (snd (sweep0 tool T m ets i U j J)) (j + Z.of_nat k)
  = twist0_of T (nth k (jacob0_accs q tool m ets i U) (JRx, I4)).
Proof.
  induction ets as [|et rest IH]; intros i U j J k Hk Hv; simpl in *.
  - lia.
  - destruct (et_isjoint et); simpl in *.
    + assert (Hj : valid j).
      { replace j with (j + Z.of_nat 0)%Z by lia. apply Hv. lia. }
      assert (Hrest : forall k',
                (k' < length (jacob0_accs q tool m rest (i + 1)
                   match tool with
                   | Some tl =>
                       if (i =? m - 1)%Z
                       then mprod (mprod U (element_pose q et)) tl
                       else mprod U (element_pose q et)
                   | None => mprod U (element_pose q et)
                   end))%nat ->
                valid (j + 1 + Z.of_nat k')).
      { intros k' Hk'.
        replace (j + 1 + Z.of_nat k')%Z with (j + Z.of_nat (S k'))%Z
          by lia.
        apply Hv. lia. }
      destruct k as [|k].
      * replace (j + Z.of_nat 0)%Z with j by lia.
        rewrite sweep0_frame; [|exact Hj|lia|exact Hrest].
        now rewrite axis0_same.
      * replace (j + Z.of_nat (S k))%Z with (j + 1 + Z.of_nat k)%Z by lia.
        apply IH; [lia|exact Hrest].
    + now apply IH.
Qed.

Lemma sweepe_frame rev_ets : forall U j J c,
  valid c -> (j < c)%Z ->
  (forall k, (k < length (jacobe_accs q rev_ets U))%nat ->
             valid (j - Z.of_nat k)) ->
  column (snd (sweepe rev_ets U j J)) c = column J c.
Proof.
  induction rev_ets as [|et rest IH]; intros U j J c Hc Hlt Hv; simpl.
  - reflexivity.
  - simpl in Hv. destruct (et_isjoint et).
    + rewrite IH; [|exact Hc|lia|].
      * apply axise_other; [|exact Hc|lia].
        specialize (Hv 0%nat). simpl in Hv.
        replace j with (j - 0)%Z by lia. apply Hv. lia.
      * intros k Hk. specialize (Hv (S k)). simpl in Hv.
        replace (j - 1 - Z.of_nat k)%Z with (j - Z.of_nat (S k))%Z by lia.
        apply Hv. lia.
    + apply IH; assumption.
Qed.

Lemma sweepe_columns rev_ets : forall U j J k,
  (k < length (jacobe_accs q rev_ets U))%nat ->
  (forall k', (k' < length (jacobe_accs q rev_ets U))%nat ->
              valid (j - Z.of_nat k')) ->
  column (snd (sweepe rev_ets U j J)) (j - Z.of_nat k)
  = twiste_of (nth k (jacobe_accs q rev_ets U) (JRx, I4)).
Proof.
  induction rev_ets as [|et rest IH]; intros U j J k Hk Hv; simpl in *.
  - lia.
  - destruct (et_isjoint et); simpl in *.
    + assert (Hj : valid j).
      { replace j with (j - Z.of_nat 0)%Z by lia. apply Hv. lia. }
      assert (Hrest : forall k',
                (k' < length (jacobe_accs q rest
                                (mprod (element_pose q et) U)))%nat ->
                valid (j - 1 - Z.of_nat k')).
      { intros k' Hk'.
        replace (j - 1 - Z.of_nat k')%Z with (j - Z.of_nat (S k'))%Z
          by lia.
        apply Hv. lia. }
      destruct k as [|k].
      * replace (j - Z.of_nat 0)%Z with j by lia.
        rewrite sweepe_frame; [|exact Hj|lia|exact Hrest].
        now rewrite axise_same.
      * replace (j - Z.of_nat (S k))%Z with (j - 1 - Z.of_nat k)%Z by lia.
        apply IH; [lia|exact Hrest].
    + now apply IH.
Qed.

End SweepFacts.

(** *** The implementations as sweeps *)

Lemma inv_rigid_inverse (U invU : Mat4) : _inv U invU = rigid_inverse U.
Proof. apply inv_indep. Qed.

Lemma methods_inv_rigid_inverse (U invU : Mat4) :
  Methods._inv U invU = rigid_inverse U.
Proof. apply inv_indep. Qed.

Lemma fknm_jacob0_loop (n : Z) (q : buf) (tool : option Mat4) (T : Mat4)
    (m : Z) (ets : list ET) :
  forall i U invU temp ret j J,
    let '(U', _, _, _, j', J') :=
      for_each ets i (Fknm.jacob0_body n q tool T m)
        (U, invU, temp, ret, j, J) in
    (U', j', J')
    = sweep0 (fun ax j => Fknm.jacob0_axis ax n j) q tool T m ets i U j J.
Proof.
  induction ets as [|et rest IH]; intros i U invU temp ret j J; simpl.
  - reflexivity.
  - destruct (et_isjoint et).
    + destruct tool as [tl|]; [destruct (i =? m - 1)%Z|]; cbv iota beta;
        rewrite ?ET_T_eq, ?mult_eq, ?copy_eq, ?inv_rigid_inverse; apply IH.
    + rewrite ?ET_T_eq, ?mult_eq, ?copy_eq. apply IH.
Qed.

Lemma fknm_jacob0_sweep (ets : list ET) (n : Z) (q : buf)
    (tool : option Mat4) (J : buf) :
  Fknm._ETS_jacob0 ets n q tool J
  = snd (sweep0 (fun ax j => Fknm.jacob0_axis ax n j) q tool
           (Fknm._ETS_fkine ets q None tool calloc16)
           (Z.of_nat (length ets)) ets 0 I4 0 J).
Proof.
  unfold Fknm._ETS_jacob0. cbv zeta. rewrite eye4_eq.
  pose proof (fknm_jacob0_loop n q tool
                (Fknm._ETS_fkine ets q None tool calloc16)
                (Z.of_nat (length ets)) ets 0%Z I4 calloc16 calloc16
                calloc16 0%Z J) as H.
  destruct (for_each ets 0 _ _) as [[[[[U' ?] ?] ?] j'] J'].
  now rewrite <- H.
Qed.

Lemma fknm_jacobe_loop (n : Z) (q : buf) (l : list ET) :
  forall i U temp ret j J,
    let '(U', _, _, j', J') :=
      for_each l i (Fknm.jacobe_body n q) (U, temp, ret, j, J) in
    (U', j', J')
    = sweepe (fun ax j => Fknm.jacobe_axis ax n j) q l U j J.
Proof.
  induction l as [|et rest IH]; intros i U temp ret j J; simpl.
  - reflexivity.
  - destruct (et_isjoint et);
      rewrite ?ET_T_eq, ?mult_eq, ?copy_eq; apply IH.
Qed.

Lemma fknm_jacobe_sweep (ets : list ET) (n : Z) (q : buf)
    (tool : option Mat4) (J : buf) :
  Fknm._ETS_jacobe ets n q tool J
  = snd (sweepe (fun ax j => Fknm.jacobe_axis ax n j) q (rev ets)
           (tool_seed tool) (n - 1) J).
Proof.
  unfold Fknm._ETS_jacobe, tool_seed. cbv zeta. rewrite eye4_eq.
  destruct tool as [tl|]; rewrite ?mult_eq, ?copy_eq.
  - pose proof (fknm_jacobe_loop n q (rev ets) 0%Z (mprod tl I4)
                  (mprod tl I4) calloc16 (n - 1)%Z J) as H.
    destruct (for_each (rev ets) 0 _ _) as [[[[U' ?] ?] j'] J'].
    now rewrite <- H.
  - pose proof (fknm_jacobe_loop n q (rev ets) 0%Z I4
                  calloc16 calloc16 (n - 1)%Z J) as H.
    destruct (for_each (rev ets) 0 _ _) as [[[[U' ?] ?] j'] J'].
    now rewrite <- H.
Qed.

Lemma methods_jacob0_loop (q : buf) (tool : option Mat4) (eT : Mat4)
    (m : Z) (ets : list ET) :
  forall i U invU ret j eJ,
    let '(U', _, _, j', eJ') :=
      for_each ets i (Methods.jacob0_body q tool eT m)
        (U, invU, ret, j, eJ) in
    (U', j', eJ')
    = sweep0 Methods.jacob0_axis q tool eT m ets i U j eJ.
Proof.
  induction ets as [|et rest IH]; intros i U invU ret j eJ; simpl.
  - reflexivity.
  - destruct (et_isjoint et).
    + destruct tool as [tl|]; [destruct (i =? m - 1)%Z|]; cbv iota beta;
        rewrite ?methods_ET_T_eq, ?methods_inv_rigid_inverse; apply IH.
    + rewrite ?methods_ET_T_eq. apply IH.
Qed.

Lemma methods_jacob0_sweep (ets : list ET) (n : Z) (q : buf)
    (tool : option Mat4) (eJ : jmat) :
  Methods._ETS_jacob0 ets n q tool eJ
  = snd (sweep0 Methods.jacob0_axis q tool
           (Methods._ETS_fkine ets q None tool calloc16)
           (Z.of_nat (length ets)) ets 0 I4 0 eJ).
Proof.
  unfold Methods._ETS_jacob0. cbv zeta.
  pose proof (methods_jacob0_loop q tool
                (Methods._ETS_fkine ets q None tool calloc16)
                (Z.of_nat (length ets)) ets 0%Z I4 calloc16 calloc16
                0%Z eJ) as H.
  destruct (for_each ets 0 _ _) as [[[[U' ?] ?] j'] J'].
  now rewrite <- H.
Qed.

Lemma methods_jacobe_loop (q : buf) (l : list ET) :
  forall U ret j eJ,
    let '(U', _, j', eJ') :=
      fold_left (Methods.jacobe_body q) l (U, ret, j, eJ) in
    (U', j', eJ') = sweepe Methods.jacobe_axis q l U j eJ.
Proof.
  induction l as [|et rest IH]; intros U ret j eJ; simpl.
  - reflexivity.
  - destruct (et_isjoint et); rewrite ?methods_ET_T_eq; apply IH.
Qed.

Lemma methods_jacobe_sweep (ets : list ET) (n : Z) (q : buf)
    (tool : option Mat4) (eJ : jmat) :
  Methods._ETS_jacobe ets n q tool eJ
  = snd (sweepe Methods.jacobe_axis q (rev ets) (tool_seed tool)
           (n - 1) eJ).
Proof.
  unfold Methods._ETS_jacobe, tool_seed. cbv zeta.
  destruct tool as [tl|].
  - pose proof (methods_jacobe_loop q (rev ets) (mprod tl I4) calloc16
                  (n - 1)%Z eJ) as H.
    destruct (fold_left _ (rev ets) _) as [[[U' ?] j'] J'].
    now rewrite <- H.
  - pose proof (methods_jacobe_loop q (rev ets) I4 calloc16
                  (n - 1)%Z eJ) as H.
    destruct (fold_left _ (rev ets) _) as [[[U' ?] j'] J'].
    now rewrite <- H.
Qed.

(** *** Columns of the four Jacobians *)

Lemma jacob0_accs_length (q : buf) (tool : option Mat4) (m : Z)
    (ets : list ET) : forall i U,
  length (jacob0_accs q tool m ets i U) = joint_count ets.
Proof.
  unfold joint_count.
  induction ets as [|et rest IH]; intros i U; simpl.
  - reflexivity.
  - destruct (et_isjoint et); simpl; now rewrite IH.
Qed.

Lemma jacobe_accs_length (q : buf) (l : list ET) : forall U,
  length (jacobe_accs q l U) = joint_count l.
Proof.
  unfold joint_count.
  induction l as [|et rest IH]; intros U; simpl.
  - reflexivity.
  - destruct (et_isjoint et); simpl; now rewrite IH.
Qed.

Lemma joint_count_rev (l : list ET) : joint_count (rev l) = joint_count l.
Proof.
  unfold joint_count. induction l as [|et rest IH]; simpl.
  - reflexivity.
  - rewrite filter_app, length_app, IH. simpl.
    destruct (et_isjoint et); simpl; lia.
Qed.

Lemma methods_jacob0_column (ets : list ET) (n : Z) (q : buf)
    (tool : option Mat4) (eJ : jmat) (k : nat) :
  (k < joint_count ets)%nat ->
  column_jmat (Methods._ETS_jacob0 ets n q tool eJ) (Z.of_nat k)
  = twist0_of (Methods._ETS_fkine ets q None tool calloc16)
      (nth k (jacob0_accs q tool (Z.of_nat (length ets)) ets 0 I4)
         (JRx, I4)).
Proof.
  intros Hk. rewrite methods_jacob0_sweep.
  replace (Z.of_nat k) with (0 + Z.of_nat k)%Z by lia.
  apply (sweep0_columns Methods.jacob0_axis column_jmat (fun _ => True)).
  - intros; apply methods_jacob0_axis_same.
  - intros; now apply methods_jacob0_axis_other.
  - now rewrite jacob0_accs_length.
  - trivial.
Qed.

Lemma methods_jacobe_column (ets : list ET) (n : Z) (q : buf)
    (tool : option Mat4) (eJ : jmat) (k : nat) :
  (k < joint_count ets)%nat ->
  column_jmat (Methods._ETS_jacobe ets n q tool eJ) (n - 1 - Z.of_nat k)
  = twiste_of (nth k (jacobe_accs q (rev ets) (tool_seed tool)) (JRx, I4)).
Proof.
  intros Hk. rewrite methods_jacobe_sweep.
  apply (sweepe_columns Methods.jacobe_axis column_jmat (fun _ => True)).
  - intros; apply methods_jacobe_axis_same.
  - intros; now apply methods_jacobe_axis_other.
  - now rewrite jacobe_accs_length, joint_count_rev.
  - trivial.
Qed.

Lemma fknm_jacob0_column (ets : list ET) (n : Z) (q : buf)
    (tool : option Mat4) (J : buf) (k : nat) :
  (Z.of_nat (joint_count ets) <= n)%Z ->
  (k < joint_count ets)%nat ->
  column_buf n (Fknm._ETS_jacob0 ets n q tool J) (Z.of_nat k)
  = twist0_of (Fknm._ETS_fkine ets q None tool calloc16)
      (nth k (jacob0_accs q tool (Z.of_nat (length ets)) ets 0 I4)
         (JRx, I4)).
Proof.
  intros Hn Hk. rewrite fknm_jacob0_sweep.
  replace (Z.of_nat k) with (0 + Z.of_nat k)%Z by lia.
  apply (sweep0_columns (fun ax j => Fknm.jacob0_axis ax n j)
           (column_buf n) (fun c => (0 <= c < n)%Z)).
  - intros; apply fknm_jacob0_axis_same; lia.
  - intros; now apply fknm_jacob0_axis_other.
  - now rewrite jacob0_accs_length.
  - intros k'. rewrite jacob0_accs_length. lia.
Qed.

Lemma fknm_jacobe_column (ets : list ET) (n : Z) (q : buf)
    (tool : option Mat4) (J : buf) (k : nat) :
  (Z.of_nat (joint_count ets) <= n)%Z ->
  (k < joint_count ets)%nat ->
  column_buf n (Fknm._ETS_jacobe ets n q tool J) (n - 1 - Z.of_nat k)
  = twiste_of (nth k (jacobe_accs q (rev ets) (tool_seed tool)) (JRx, I4)).
Proof.
  intros Hn Hk. rewrite fknm_jacobe_sweep.
  apply (sweepe_columns (fun ax j => Fknm.jacobe_axis ax n j)
           (column_buf n) (fun c => (0 <= c < n)%Z)).
  - intros; apply fknm_jacobe_axis_same; lia.
  - intros; now apply fknm_jacobe_axis_other.
  - now rewrite jacobe_accs_length, joint_count_rev.
  - intros k'. rewrite jacobe_accs_length, joint_count_rev. lia.
Qed.

(** ** Rigid transforms *)

Lemma rigid_rows (M : Mat4) : rigid M -> rot_rows_orthonormal M.
Proof.
  intros [_ [C00 [C11 [C22 [C01 [C02 C12]]]]]].
  destruct M; revert C00 C11 C22 C01 C02 C12. unfold rot_rows_orthonormal.
  unfold_mat. intros. repeat split; nsatz.
Qed.

Lemma rigid_I4 : rigid I4.
Proof.
  unfold rigid, homogeneous, rot_cols_orthonormal. unfold_mat.
  repeat split; ring.
Qed.

Lemma rigid_generator (a : JointType) (t : R) : rigid (generator a t).
Proof.
  split; [apply homogeneous_generator|].
  pose proof (sin2_cos2 t) as H. unfold Rsqr in H.
  destruct a; unfold rot_cols_orthonormal, generator; unfold_mat;
    repeat split; try ring; nra.
Qed.

Lemma rigid_mprod (A B : Mat4) : rigid A -> rigid B -> rigid (mprod A B).
Proof.
  intros [HA CA] [HB CB]. split; [now apply homogeneous_mprod|].
  destruct CA as [A00 [A11 [A22 [A01 [A02 A12]]]]].
  destruct CB as [B00 [B11 [B22 [B01 [B02 B12]]]]].
  destruct HB as [B12' [B13' [B14' B15']]].
  destruct A, B.
  revert A00 A11 A22 A01 A02 A12 B00 B11 B22 B01 B02 B12 B12' B13' B14' B15'.
  unfold rot_cols_orthonormal. unfold_mat. intros. subst.
  repeat split; nsatz.
Qed.

(** ** Base-frame and tool-frame Jacobians *)

Lemma rigid_element_pose (q : buf) (et : ET) :
  (et_isjoint et = false -> rigid (et_T et)) -> rigid (element_pose q et).
Proof.
  intros H. unfold element_pose. destruct (et_isjoint et).
  - apply rigid_generator.
  - now apply H.
Qed.

Lemma rigid_suffix_product (q : buf) (l : list ET) :
  statics_rigid l -> rigid (suffix_product q l).
Proof.
  induction 1 as [|et rest Het Hrest IH]; simpl.
  - apply rigid_I4.
  - apply rigid_mprod; [now apply rigid_element_pose|exact IH].
Qed.

Lemma chain_product_suffix (q : buf) (l : list ET) : forall U,
  chain_product U (map (element_pose q) l) = mprod U (suffix_product q l).
Proof.
  induction l as [|et rest IH]; intros U; simpl.
  - now rewrite mprod_I4_r.
  - unfold chain_product in *. simpl. rewrite IH. apply mprod_assoc.
Qed.

Lemma rigid_inverse_cancel (U S : Mat4) :
  rigid U -> mprod (rigid_inverse U) (mprod U S) = S.
Proof.
  intros HU. rewrite <- mprod_assoc. unfold rigid_inverse.
  rewrite inv_left by exact HU. apply mprod_I4_l.
Qed.

(** The algebraic core: for a rigid [S], the base-frame column computed
    from [U] and [S] is the tool-frame column computed from [S], rotated
    by the rotation block of [U . S]. *)
Lemma jacob0_twist_rotates (ax : JointType) (U S : Mat4) :
  rigid S ->
  jacob0_twist ax U S = rotate_twist (mprod U S) (jacobe_twist ax S).
Proof.
  intros HS. pose proof (rigid_rows S HS) as HR.
  destruct HS as [[S12 [S13 [S14 S15]]] _].
  destruct HR as [R00 [R11 [R22 [R01 [R02 R12]]]]].
  destruct U, S.
  revert S12 S13 S14 S15 R00 R11 R22 R01 R02 R12.
  unfold jacob0_twist, jacobe_twist, rotate_twist, rotate, vsub, vscale,
    col012, row012, at4.
  unfold_mat. intros. subst.
  destruct ax; cbn [fst snd];
    repeat match goal with
    | |- (_, _) = (_, _) => apply f_equal2
    end; nsatz.
Qed.

Lemma jacob0_accs_rotate (q : buf) (m : Z) (l : list ET) : forall i U,
  rigid U -> statics_rigid l ->
  map (twist0_of (mprod U (suffix_product q l)))
      (jacob0_accs q None m l i U)
  = map (fun a => rotate_twist (mprod U (suffix_product q l)) (twiste_of a))
        (jacobe_chain q l).
Proof.
  induction l as [|et rest IH]; intros i U HU Hs; simpl.
  - reflexivity.
  - inversion Hs as [|? ? Het Hrest]; subst.
    assert (HU' : rigid (mprod U (element_pose q et)))
      by (apply rigid_mprod; [exact HU|now apply rigid_element_pose]).
    rewrite <- mprod_assoc.
    destruct (et_isjoint et); simpl.
    + f_equal.
      * unfold twist0_of, twiste_of; simpl.
        rewrite rigid_inverse_cancel by exact HU'.
        apply jacob0_twist_rotates. now apply rigid_suffix_product.
      * now apply IH.
    + now apply IH.
Qed.

Lemma jacobe_accs_app (q : buf) (l1 l2 : list ET) : forall U,
  jacobe_accs q (l1 ++ l2) U
  = jacobe_accs q l1 U
    ++ jacobe_accs q l2
         (fold_left (fun U et => mprod (element_pose q et) U) l1 U).
Proof.
  induction l1 as [|et rest IH]; intros U; simpl.
  - reflexivity.
  - destruct (et_isjoint et); simpl; now rewrite IH.
Qed.

Lemma fold_left_rev_suffix (q : buf) (l : list ET) :
  fold_left (fun U et => mprod (element_pose q et) U) (rev l) I4
  = suffix_product q l.
Proof.
  unfold suffix_product. rewrite <- fold_left_rev_right, rev_involutive.
  reflexivity.
Qed.

Lemma jacobe_accs_rev (q : buf) (l : list ET) :
  jacobe_accs q (rev l) I4 = rev (jacobe_chain q l).
Proof.
  induction l as [|et rest IH]; simpl.
  - reflexivity.
  - rewrite jacobe_accs_app, IH, fold_left_rev_suffix. simpl.
    destruct (et_isjoint et); simpl.
    + reflexivity.
    + now rewrite app_nil_r.
Qed.

Lemma jacobe_chain_length (q : buf) (l : list ET) :
  length (jacobe_chain q l) = joint_count l.
Proof.
  unfold joint_count. induction l as [|et rest IH]; simpl.
  - reflexivity.
  - destruct (et_isjoint et); simpl; now rewrite IH.
Qed.

Lemma methods_jacobe_column_chain (ets : list ET) (q : buf) (eJ : jmat)
    (c : nat) :
  (c < joint_count ets)%nat ->
  column_jmat
    (Methods._ETS_jacobe ets (Z.of_nat (joint_count ets)) q None eJ)
    (Z.of_nat c)
  = twiste_of (nth c (jacobe_chain q ets) (JRx, I4)).
Proof.
  intros Hc.
  replace (Z.of_nat c)
    with (Z.of_nat (joint_count ets) - 1
          - Z.of_nat (joint_count ets - 1 - c))%Z by lia.
  rewrite methods_jacobe_column by lia.
  unfold tool_seed. rewrite jacobe_accs_rev.
  rewrite rev_nth by (rewrite jacobe_chain_length; lia).
  rewrite jacobe_chain_length.
  do 2 f_equal. lia.
Qed.

Lemma fknm_jacobe_column_chain (ets : list ET) (q : buf) (J : buf)
    (c : nat) :
  (c < joint_count ets)%nat ->
  column_buf (Z.of_nat (joint_count ets))
    (Fknm._ETS_jacobe ets (Z.of_nat (joint_count ets)) q None J)
    (Z.of_nat c)
  = twiste_of (nth c (jacobe_chain q ets) (JRx, I4)).
Proof.
  intros Hc.
  replace (Z.of_nat c)
    with (Z.of_nat (joint_count ets) - 1
          - Z.of_nat (joint_count ets - 1 - c))%Z by lia.
  rewrite fknm_jacobe_column by lia.
  unfold tool_seed. rewrite jacobe_accs_rev.
  rewrite rev_nth by (rewrite jacobe_chain_length; lia).
  rewrite jacobe_chain_length.
  do 2 f_equal. lia.
Qed.

Lemma nth_map_eq {A B : Type} (f g : A -> B) (l l' : list A) (d d' : A)
    (c : nat) :
  map f l = map g l' -> (c < length l)%nat ->
  f (nth c l d) = g (nth c l' d').
Proof.
  intros E Hc.
  assert (Hlen : length l = length l')
    by (rewrite <- (length_map f l), E; apply length_map).
  rewrite <- (map_nth f l d c), E.
  rewrite (nth_indep (map g l') (f d) (g d'))
    by (rewrite length_map; lia).
  apply map_nth.
Qed.

Lemma methods_fkine_suffix (ets : list ET) (q : buf) (e_ret : Mat4) :
  Methods._ETS_fkine ets q None None e_ret
  = mprod I4 (suffix_product q ets).
Proof.
  rewrite methods_fkine_product. unfold fkine_product, or_identity.
  now rewrite mprod_I4_r, chain_product_suffix.
Qed.

Lemma offset_elbow_rigid : statics_rigid offset_elbow.
Proof.
  unfold offset_elbow, statics_rigid.
  apply Forall_cons; [intros _; apply (rigid_generator JTx 1)|].
  apply Forall_cons; [discriminate|].
  apply Forall_cons; [intros _; apply (rigid_generator JTx 1)|].
  apply Forall_nil.
Defined.

(** C3, amended.  For every chain whose Static elements are rigid, every
    configuration and every column c below the joint count n, column c of
    the base-frame Jacobian of methods.cpp is column c of its tool-frame
    Jacobian with the linear part and the angular part each rotated by the
    rotation block of T = forwardKinematics(chain, q), that is
    blockdiag(R, R) . jacobianTool; and the tool-frame Jacobian of fknm.c
    has the same columns as that of methods.cpp. *)
Theorem jacob0_rotates_jacobe (ets : list ET) (q : buf) (eJ0 eJe : jmat)
    (J : buf) (c : nat) :
  statics_rigid ets -> (c < joint_count ets)%nat ->
  let n := Z.of_nat (joint_count ets) in
  let T := Methods._ETS_fkine ets q None None calloc16 in
  column_jmat (Methods._ETS_jacob0 ets n q None eJ0) (Z.of_nat c)
  = rotate_twist T
      (column_jmat (Methods._ETS_jacobe ets n q None eJe) (Z.of_nat c)) /\
  column_buf n (Fknm._ETS_jacobe ets n q None J) (Z.of_nat c)
  = column_jmat (Methods._ETS_jacobe ets n q None eJe) (Z.of_nat c).
Proof.
  intros Hs Hc n T. subst n T. split.
  - rewrite methods_jacob0_column by exact Hc.
    rewrite methods_jacobe_column_chain by exact Hc.
    rewrite methods_fkine_suffix.
    apply (nth_map_eq
             (twist0_of (mprod I4 (suffix_product q ets)))
             (fun a => rotate_twist (mprod I4 (suffix_product q ets))
                         (twiste_of a))).
    + apply jacob0_accs_rotate; [apply rigid_I4|exact Hs].
    + now rewrite jacob0_accs_length.
  - rewrite methods_jacobe_column_chain by exact Hc.
    now apply fknm_jacobe_column_chain.
Qed.

Lemma jacob0_rotates_jacobe_witness :
  statics_rigid offset_elbow /\ (0 < joint_count offset_elbow)%nat /\
  column_jmat (Methods._ETS_jacob0 offset_elbow 1 (fun _ => 0) None
                 (fun _ _ => 0)) 0
  = rotate_twist (Methods._ETS_fkine offset_elbow (fun _ => 0) None None
                    calloc16)
      (column_jmat (Methods._ETS_jacobe offset_elbow 1 (fun _ => 0) None
                      (fun _ _ => 0)) 0).
Proof.
  split; [exact offset_elbow_rigid|]. split; [exact Nat.lt_0_1|].
  exact (proj1 (jacob0_rotates_jacobe offset_elbow (fun _ => 0)
                  (fun _ _ => 0) (fun _ _ => 0) calloc 0%nat
                  offset_elbow_rigid (Nat.lt_0_1))).
Defined.

(** *** The twist adjoint does not relate the two Jacobians *)

Ltac eval_jac :=
  cbv [twist0_of twiste_of jacob0_twist jacobe_twist col012 row012 at4
       vsub vscale vadd cross3 translation rotate rotate_twist Ad_twist
       rigid_inverse element_pose generator nth jacob0_accs jacobe_chain
       suffix_product fold_right offset_elbow
       et_isjoint et_isflip et_jindex et_axis et_T fst snd];
  unfold_mat.

Ltac twist_eq :=
  repeat match goal with
  | |- (_, _) = (_, _) => apply f_equal2
  end; ring.

Lemma offset_elbow_jacob0 (eJ : jmat) :
  column_jmat (Methods._ETS_jacob0 offset_elbow 1 (fun _ => 0) None eJ) 0
  = ((0, 1, 0), (0, 0, 1)).
Proof.
  pose proof (methods_jacob0_column offset_elbow 1 (fun _ => 0) None eJ 0
                Nat.lt_0_1) as H.
  change (Z.of_nat 0) with 0%Z in H. rewrite H. clear H.
  rewrite methods_fkine_suffix.
  eval_jac. rewrite cos_0, sin_0. twist_eq.
Qed.

Lemma offset_elbow_jacobe (eJ : jmat) :
  column_jmat (Methods._ETS_jacobe offset_elbow 1 (fun _ => 0) None eJ) 0
  = ((0, 1, 0), (0, 0, 1)).
Proof.
  pose proof (methods_jacobe_column_chain offset_elbow (fun _ => 0) eJ 0
                Nat.lt_0_1) as H.
  change (Z.of_nat 0) with 0%Z in H.
  change (Z.of_nat (joint_count offset_elbow)) with 1%Z in H.
  rewrite H. clear H.
  eval_jac. twist_eq.
Qed.

Lemma offset_elbow_fkine :
  Methods._ETS_fkine offset_elbow (fun _ => 0) None None calloc16
  = TransX 2.
Proof.
  rewrite methods_fkine_suffix.
  eval_jac. rewrite cos_0, sin_0. apply mkMat4_ext; ring.
Qed.

Lemma offset_elbow_fknm_jacob0 (J : buf) :
  column_buf 1 (Fknm._ETS_jacob0 offset_elbow 1 (fun _ => 0) None J) 0
  = ((0, 0, 0), (0, 0, 1)).
Proof.
  pose proof (fknm_jacob0_column offset_elbow 1 (fun _ => 0) None J 0
                ltac:(unfold joint_count; simpl; lia) Nat.lt_0_1) as H.
  change (Z.of_nat 0) with 0%Z in H. rewrite H. clear H.
  rewrite fknm_fkine_zero by discriminate.
  eval_jac. rewrite cos_0, sin_0. twist_eq.
Qed.

Lemma offset_elbow_fknm_jacobe (J : buf) :
  column_buf 1 (Fknm._ETS_jacobe offset_elbow 1 (fun _ => 0) None J) 0
  = ((0, 1, 0), (0, 0, 1)).
Proof.
  pose proof (fknm_jacobe_column_chain offset_elbow (fun _ => 0) J 0
                Nat.lt_0_1) as H.
  change (Z.of_nat 0) with 0%Z in H.
  change (Z.of_nat (joint_count offset_elbow)) with 1%Z in H.
  rewrite H. clear H.
  eval_jac. twist_eq.
Qed.

(** C3, as stated, fails: on the chain [offset_elbow] at q = 0 the end
    pose is the translation by 2 along X, both Jacobians of methods.cpp
    have the single column (0, 1, 0, 0, 0, 1), and the twist adjoint of
    the end pose maps it to (0, -1, 0, 0, 0, 1).  The base-frame Jacobian
    of fknm.c, (0, 0, 0, 0, 0, 1), is not the adjoint image either,
    whether the end pose is taken from methods.cpp or from fknm.c. *)
Lemma jacob0_is_not_adjoint_of_jacobe :
  let q : buf := fun _ => 0 in
  let eJ : jmat := fun _ _ => 0 in
  let T := Methods._ETS_fkine offset_elbow q None None calloc16 in
  let T' := Fknm._ETS_fkine offset_elbow q None None calloc16 in
  column_jmat (Methods._ETS_jacob0 offset_elbow 1 q None eJ) 0
    <> Ad_twist T (column_jmat (Methods._ETS_jacobe offset_elbow 1 q None eJ) 0)
  /\ column_buf 1 (Fknm._ETS_jacob0 offset_elbow 1 q None calloc) 0
    <> Ad_twist T (column_buf 1 (Fknm._ETS_jacobe offset_elbow 1 q None calloc) 0)
  /\ column_buf 1 (Fknm._ETS_jacob0 offset_elbow 1 q None calloc) 0
    <> Ad_twist T' (column_buf 1 (Fknm._ETS_jacobe offset_elbow 1 q None calloc) 0).
Proof.
  intros q eJ T T'. subst q eJ T T'.
  rewrite offset_elbow_jacob0, offset_elbow_jacobe, offset_elbow_fkine,
    offset_elbow_fknm_jacob0, offset_elbow_fknm_jacobe.
  rewrite fknm_fkine_zero by discriminate.
  repeat split; eval_jac; intros E; injection E; intros; lra.
Qed.

(** ** The tool in the base-frame Jacobian *)

Lemma jacob0_accs_last (q : buf) (tl : Mat4) (last : ET) (m : Z)
    (pre : list ET) : forall i U,
  m = (i + Z.of_nat (length pre) + 1)%Z ->
  jacob0_accs q (Some tl) m (pre ++ [last]) i U
  = jacob0_accs q None m pre i U
    ++ (if et_isjoint last
        then [(et_axis last,
               mprod (chain_product U
                        (map (element_pose q) (pre ++ [last]))) tl)]
        else []).
Proof.
  induction pre as [|et rest IH]; intros i U Hm; simpl in *.
  - replace (i =? m - 1)%Z with true by (symmetry; apply Z.eqb_eq; lia).
    destruct (et_isjoint last); reflexivity.
  - replace (i =? m - 1)%Z with false by (symmetry; apply Z.eqb_neq; lia).
    destruct (et_isjoint et); simpl; rewrite IH by lia; reflexivity.
Qed.

Lemma jacob0_accs_notool_app (q : buf) (last : ET) (m : Z)
    (pre : list ET) : forall i U,
  jacob0_accs q None m (pre ++ [last]) i U
  = jacob0_accs q None m pre i U
    ++ (if et_isjoint last
        then [(et_axis last,
               chain_product U (map (element_pose q) (pre ++ [last])))]
        else []).
Proof.
  induction pre as [|et rest IH]; intros i U; simpl in *.
  - destruct (et_isjoint last); reflexivity.
  - destruct (et_isjoint et); simpl; rewrite IH; reflexivity.
Qed.

(** Without a tool every accumulator of the forward sweep is the product
    of a prefix of the chain. *)
Lemma jacob0_accs_prefix (q : buf) (m : Z) (l : list ET) : forall i U,
  Forall (fun a =>
            exists p, snd a
                      = chain_product U
                          (map (element_pose q) (firstn p l)))
         (jacob0_accs q None m l i U).
Proof.
  induction l as [|et rest IH]; intros i U; simpl.
  - constructor.
  - assert (Htail :
      Forall (fun a =>
                exists p, snd a
                          = chain_product U
                              (map (element_pose q) (firstn p (et :: rest))))
             (jacob0_accs q None m rest (i + 1)
                (mprod U (element_pose q et)))).
    { eapply Forall_impl; [|apply IH].
      intros a [p Hp]. exists (S p). exact Hp. }
    destruct (et_isjoint et).
    + constructor; [|exact Htail]. exists 1%nat. reflexivity.
    + exact Htail.
Qed.

(** C9, as stated, fails for fknm.c: its precomputed end pose does not
    include the tool.  On the chain [offset_elbow], whose last element is
    Static, at q = 0 and with the tool TransX(1), the end pose that
    [_ETS_jacob0] of fknm.c takes from [_ETS_fkine] is the zero matrix,
    the same as with no tool at all, and not the product of the chain
    times the tool, which is TransX(3), the end pose of methods.cpp. *)
Lemma fknm_end_pose_excludes_tool :
  let q : buf := fun _ => 0 in
  let tl := TransX 1 in
  Fknm._ETS_fkine offset_elbow q None (Some tl) calloc16 = Zero4 /\
  Fknm._ETS_fkine offset_elbow q None (Some tl) calloc16
  = Fknm._ETS_fkine offset_elbow q None None calloc16 /\
  Methods._ETS_fkine offset_elbow q None (Some tl) calloc16
  = mprod (chain_product I4 (map (element_pose q) offset_elbow)) tl /\
  mprod (chain_product I4 (map (element_pose q) offset_elbow)) tl
  = TransX 3 /\
  Fknm._ETS_fkine offset_elbow q None (Some tl) calloc16
  <> mprod (chain_product I4 (map (element_pose q) offset_elbow)) tl.
Proof.
  intros q tl. subst q tl.
  assert (P : mprod (chain_product I4
                       (map (element_pose (fun _ => 0)) offset_elbow))
                (TransX 1) = TransX 3).
  { rewrite chain_product_suffix. eval_jac. rewrite cos_0, sin_0.
    apply mkMat4_ext; ring. }
  split; [apply fknm_fkine_zero; discriminate|].
  split; [now rewrite !fknm_fkine_zero by discriminate|].
  split; [now rewrite methods_fkine_product|].
  split; [exact P|].
  rewrite fknm_fkine_zero by discriminate. rewrite P.
  intro E.
  assert (H : forall M N : Mat4, M = N -> M.[15] = N.[15])
    by (intros; now subst).
  apply H in E. revert E. unfold_mat. lra.
Qed.

(** C9, amended.  In fknm.c and in methods.cpp, column k of the
    base-frame Jacobian is computed from the k-th accumulator of the
    forward sweep and the end pose T.  In methods.cpp T includes the
    tool: it is the product of the chain times the tool.  In fknm.c T is
    the zero matrix, whatever the tool.  In both, when the last element
    of the chain is Static, the accumulators with a tool are those
    without one, each the product of a prefix of the chain; the tool
    enters an accumulator, the last one, only when the last element is a
    Joint. *)
Theorem jacob0_tool_only_after_final_joint (pre : list ET) (last : ET)
    (n : Z) (q : buf) (tl : Mat4) (J : buf) (eJ : jmat) (k : nat) :
  let ets := pre ++ [last] in
  let m := Z.of_nat (length ets) in
  let accs := jacob0_accs q (Some tl) m ets 0 I4 in
  (k < joint_count ets)%nat -> (Z.of_nat (joint_count ets) <= n)%Z ->
  column_buf n (Fknm._ETS_jacob0 ets n q (Some tl) J) (Z.of_nat k)
    = twist0_of (Fknm._ETS_fkine ets q None (Some tl) calloc16)
        (nth k accs (JRx, I4)) /\
  column_jmat (Methods._ETS_jacob0 ets n q (Some tl) eJ) (Z.of_nat k)
    = twist0_of (Methods._ETS_fkine ets q None (Some tl) calloc16)
        (nth k accs (JRx, I4)) /\
  Methods._ETS_fkine ets q None (Some tl) calloc16
    = mprod (chain_product I4 (map (element_pose q) ets)) tl /\
  Fknm._ETS_fkine ets q None (Some tl) calloc16 = Zero4 /\
  (et_isjoint last = false ->
   accs = jacob0_accs q None m ets 0 I4 /\
   Forall (fun a =>
             exists p, snd a
                       = chain_product I4
                           (map (element_pose q) (firstn p ets)))
          accs) /\
  (et_isjoint last = true ->
   accs = jacob0_accs q None m pre 0 I4
          ++ [(et_axis last,
               mprod (chain_product I4 (map (element_pose q) ets)) tl)]).
Proof.
  intros ets m accs Hk Hn. subst accs.
  assert (Hm : m = (0 + Z.of_nat (length pre) + 1)%Z)
    by (subst m ets; rewrite length_app; simpl; lia).
  split; [now apply fknm_jacob0_column|].
  split; [now apply methods_jacob0_column|].
  split; [now rewrite methods_fkine_product|].
  split.
  { apply fknm_fkine_zero. subst ets. destruct pre; discriminate. }
  split.
  - intros Hstatic.
    assert (E : jacob0_accs q (Some tl) m ets 0 I4
                = jacob0_accs q None m ets 0 I4).
    { subst ets. rewrite jacob0_accs_last by exact Hm.
      rewrite jacob0_accs_notool_app. now rewrite Hstatic. }
    split; [exact E|]. rewrite E. apply jacob0_accs_prefix.
  - intros Hjoint. subst ets.
    rewrite jacob0_accs_last by exact Hm. now rewrite Hjoint.
Qed.

Lemma jacob0_tool_only_after_final_joint_witness :
  (0 < joint_count offset_elbow)%nat /\
  (Z.of_nat (joint_count offset_elbow) <= 1)%Z /\
  jacob0_accs (fun _ => 0) (Some (TransX 1)) 3 offset_elbow 0 I4
  = jacob0_accs (fun _ => 0) None 3 offset_elbow 0 I4 /\
  Fknm._ETS_fkine offset_elbow (fun _ => 0) None (Some (TransX 1)) calloc16
  = Zero4 /\
  Methods._ETS_fkine offset_elbow (fun _ => 0) None (Some (TransX 1))
    calloc16
  = mprod (chain_product I4
             (map (element_pose (fun _ => 0)) offset_elbow)) (TransX 1).
Proof.
  split; [exact Nat.lt_0_1|]. split; [apply Z.le_refl|].
  destruct (jacob0_tool_only_after_final_joint
              [mkET false false 0%Z JRx (TransX 1);
               mkET true false 0%Z JRz I4]
              (mkET false false 0%Z JRx (TransX 1))
              1 (fun _ => 0) (TransX 1) calloc (fun _ _ => 0) 0%nat
              Nat.lt_0_1 (Z.le_refl 1))
    as [_ [_ [HM [HF [Hstatic _]]]]].
  split; [exact (proj1 (Hstatic eq_refl))|].
  split; [exact HF|exact HM].
Defined.

(** ** Tree propagation *)

Lemma A_local (q : buf) (l : Link) (ret : Mat4) :
  Fknm.A l ret (q (link_jindex l)) = link_local q l.
Proof.
  unfold Fknm.A, link_local. destruct (link_isjoint l); simpl.
  - now rewrite mult_eq, op_of_eq.
  - apply copy_eq.
Qed.

Lemma same_link_refl (l : Link) : same_link l l.
Proof. repeat split. Qed.

Lemma same_link_trans (l1 l2 l3 : Link) :
  same_link l1 l2 -> same_link l2 l3 -> same_link l1 l3.
Proof.
  unfold same_link. intros H1 H2.
  destruct H1 as [a1 [b1 [c1 [d1 [e1 [f1 g1]]]]]].
  destruct H2 as [a2 [b2 [c2 [d2 [e2 [f2 g2]]]]]].
  repeat split; congruence.
Qed.

Lemma same_link_local (q : buf) (l l' : Link) :
  same_link l l' -> link_local q l' = link_local q l.
Proof.
  intros [a [b [c [d [e _]]]]]. unfold link_local.
  now rewrite a, b, c, d, e.
Qed.

Lemma parents_first_same (st st' : LinkStore) (links : list nat) :
  (forall x, same_link (st x) (st' x)) ->
  parents_first st links -> parents_first st' links.
Proof.
  intros Hsame. induction links as [|id rest IH]; simpl.
  - trivial.
  - intros [Hp Hrest]. split; [|now apply IH].
    intros p Hpar. apply Hp.
    destruct (Hsame id) as [_ [_ [_ [_ [_ [Hpp _]]]]]]. congruence.
Qed.

Lemma r2q_cells (r : Mat4) (q q' : buf) (k : Z) :
  (0 <= k <= 3)%Z -> Fknm._r2q r q k = Fknm._r2q r q' k.
Proof.
  intros Hk. unfold Fknm._r2q. cbv zeta.
  assert (k = 0 \/ k = 1 \/ k = 2 \/ k = 3)%Z as [->|[->|[->| ->]]] by lia;
    destruct (Rlt_dec _ _); destruct (Rlt_dec _ _); destruct (Rlt_dec _ _);
    unfold upd; simpl; reflexivity.
Qed.

Lemma set_shapes_fresh (fk : Mat4) (shapes : list Shape) :
  Forall (shape_fresh fk) (Fknm.set_shapes fk shapes) /\
  map shape_base (Fknm.set_shapes fk shapes) = map shape_base shapes.
Proof.
  unfold Fknm.set_shapes. induction shapes as [|s rest [IH1 IH2]]; simpl.
  - split; [constructor|reflexivity].
  - split; [|now rewrite IH2].
    constructor; [|exact IH1].
    unfold shape_fresh; simpl. rewrite copy_eq, mult_eq.
    repeat split. intros k Hk. now apply r2q_cells.
Qed.

Lemma fkine_all_body_spec (q : buf) (base : Mat4) (id : nat) (ret : Mat4)
    (st : LinkStore) :
  (forall p, link_parent (st id) = Some p -> p <> id) ->
  exists ret' l',
    Fknm.fkine_all_body q base id (ret, st) = (ret', store_link st id l') /\
    same_link (st id) l' /\
    link_fk l'
    = match link_parent (st id) with
      | Some p => mprod (link_fk (st p)) (link_local q (st id))
      | None => mprod base (link_local q (st id))
      end /\
    Forall (shape_fresh (link_fk l')) (link_shapes l').
Proof.
  intros Hp. unfold Fknm.fkine_all_body.
  eexists. eexists. split; [reflexivity|]. simpl.
  assert (Hfk :
    match link_parent (st id) with
    | Some p =>
        if Nat.eqb p id
        then mult_alias (link_fk (st id))
               (Fknm.A (st id) ret (q (link_jindex (st id))))
        else mult (link_fk (st p))
               (Fknm.A (st id) ret (q (link_jindex (st id))))
               (link_fk (st id))
    | None => mult base (Fknm.A (st id) ret (q (link_jindex (st id))))
                (link_fk (st id))
    end
    = match link_parent (st id) with
      | Some p => mprod (link_fk (st p)) (link_local q (st id))
      | None => mprod base (link_local q (st id))
      end).
  { destruct (link_parent (st id)) as [p|].
    - destruct (Nat.eqb_spec p id) as [E|_]; [now destruct (Hp p eq_refl)|].
      now rewrite mult_eq, A_local.
    - now rewrite mult_eq, A_local. }
  rewrite Hfk.
  split; [|split; [reflexivity|]].
  - unfold same_link; simpl. repeat split.
    apply set_shapes_fresh.
  - apply set_shapes_fresh.
Qed.

Lemma store_link_same (st : LinkStore) (id : nat) (l : Link) :
  store_link st id l id = l.
Proof. unfold store_link. now rewrite Nat.eqb_refl. Qed.

Lemma store_link_other (st : LinkStore) (id x : nat) (l : Link) :
  x <> id -> store_link st id l x = st x.
Proof.
  intros Hne. unfold store_link.
  destruct (Nat.eqb_spec x id); [contradiction|reflexivity].
Qed.

Lemma fkine_all_loop_spec (q : buf) (base : Mat4) (links : list nat) :
  forall ret st,
    parents_first st links ->
    exists ret' st',
      Fknm.fkine_all_loop (length links) links q base (ret, st)
      = Some (ret', st') /\
      (forall x, ~ In x links -> st' x = st x) /\
      (forall x, same_link (st x) (st' x)) /\
      (forall x, In x links -> link_done q base st' (st x) (st' x)).
Proof.
  induction links as [|id rest IH]; intros ret st Hpf.
  - exists ret, st. simpl. repeat split; try tauto.
  - destruct Hpf as [Hp Hrest].
    change (Fknm.fkine_all_loop (length (id :: rest)) (id :: rest) q base
              (ret, st))
      with (Fknm.fkine_all_loop (length rest) rest q base
              (Fknm.fkine_all_body q base id (ret, st))).
    destruct (fkine_all_body_spec q base id ret st
                (fun p H => proj1 (Hp p H)))
      as [ret1 [l1 [Hbody [Hsame1 [Hfk1 Hsh1]]]]].
    rewrite Hbody.
    assert (Hsame_st : forall x, same_link (st x) (store_link st id l1 x)).
    { intros x. destruct (Nat.eq_dec x id) as [->|Hne].
      - now rewrite store_link_same.
      - rewrite store_link_other by exact Hne. apply same_link_refl. }
    destruct (IH ret1 (store_link st id l1)
                (parents_first_same _ _ _ Hsame_st Hrest))
      as [ret' [st' [Hloop [Hframe [Hsame' Hdone]]]]].
    exists ret', st'. split; [exact Hloop|].
    split; [|split].
    + intros x Hx. rewrite Hframe by (intros Hin; apply Hx; now right).
      apply store_link_other. intros ->. apply Hx. now left.
    + intros x. eapply same_link_trans; [apply Hsame_st|apply Hsame'].
    + intros x Hx.
      destruct (in_dec Nat.eq_dec x rest) as [Hin|Hnin].
      * specialize (Hdone x Hin). unfold link_done in *.
        destruct (Hsame_st x) as [_ [_ [_ [_ [_ [Hpar _]]]]]].
        rewrite (same_link_local q _ _ (Hsame_st x)) in Hdone.
        rewrite Hpar in Hdone. exact Hdone.
      * assert (x = id) by (destruct Hx; [congruence|contradiction]).
        subst x.
        assert (Est : st' id = l1)
          by (rewrite Hframe by exact Hnin; apply store_link_same).
        unfold link_done. rewrite Est. split; [|exact Hsh1].
        rewrite Hfk1. destruct (link_parent (st id)) as [p|] eqn:Hpar.
        -- destruct (Hp p eq_refl) as [Hne Hnotin].
           rewrite (Hframe p Hnotin).
           now rewrite store_link_other by exact Hne.
        -- reflexivity.
Qed.

(** The quaternion of a pose reads its rotation block only. *)
Lemma r2q_rotation_only (r r' : Mat4) (sq : buf) :
  same_rotation r r' -> Fknm._r2q r sq = Fknm._r2q r' sq.
Proof.
  destruct r, r'. unfold same_rotation, Fknm._r2q. unfold_mat.
  intros [-> [-> [-> [-> [-> [-> [-> [-> ->]]]]]]]]. reflexivity.
Qed.

(** C6, as stated, fails: the local transform of a joint link is not the
    link evaluated by the rule of elementary transforms.  For the root
    joint [offset_joint] at q = 0 and the identity base, [fkine_all]
    leaves the world pose TransX(1) . RotZ(0), not RotZ(0). *)
Lemma fkine_all_local_is_not_ET_rule :
  match Fknm.fkine_all 1 [0%nat] (fun _ => 0) I4 offset_joint with
  | Some st' =>
      link_fk (st' 0%nat)
      <> mprod I4 (element_pose (fun _ => 0)
                     (et_of_link (offset_joint 0%nat)))
  | None => False
  end.
Proof.
  unfold Fknm.fkine_all.
  change (Z.to_nat 1) with 1%nat.
  cbn [Fknm.fkine_all_loop Fknm.fkine_all_body].
  cbn [offset_joint link_parent link_fk link_jindex link_shapes
       Fknm.set_shapes map].
  rewrite store_link_same. cbn [link_fk].
  rewrite mult_eq, A_local.
  unfold link_local, element_pose, et_of_link, offset_joint, generator.
  cbn [link_isjoint link_isflip link_axis link_A link_jindex
       et_isjoint et_isflip et_axis et_T et_jindex].
  intro E.
  assert (H : forall M N : Mat4, M = N -> M.[3] = N.[3])
    by (intros; now subst).
  apply H in E. revert E. unfold_mat. lra.
Qed.

(** C6, amended.  Over links visited in parent-before-child order,
    [fkine_all] completes and leaves in every visited link the world pose
    parent.fk . local when the link has a parent and base . local when it
    is a root, where local is what [A] computes for the link: its static
    transform for a fixed link, and its static transform times the
    generator of its axis at the (possibly negated) joint value for a
    joint.  A visited link keeps its shapes, each with its base offset,
    and every one of them then has its world transform equal to the
    link's world pose, its offset pose equal to link.fk . shape.base, and
    its quaternion recomputed by [_r2q], which reads the rotation block
    of that pose only.  On a two-link chain the child's world pose is
    base . rootLocal . childLocal. *)
Theorem fkine_all_propagates (links : list nat) (q : buf) (base : Mat4)
    (st : LinkStore) :
  parents_first st links ->
  exists st',
    Fknm.fkine_all (Z.of_nat (length links)) links q base st = Some st' /\
    (forall id, In id links ->
       link_fk (st' id)
       = match link_parent (st id) with
         | Some p => mprod (link_fk (st' p)) (link_local q (st id))
         | None => mprod base (link_local q (st id))
         end /\
       map shape_base (link_shapes (st' id))
       = map shape_base (link_shapes (st id)) /\
       Forall (shape_fresh (link_fk (st' id))) (link_shapes (st' id))) /\
    (forall id ret,
       Fknm.A (st id) ret (q (link_jindex (st id))) = link_local q (st id)) /\
    (forall r r' sq,
       same_rotation r r' -> Fknm._r2q r sq = Fknm._r2q r' sq) /\
    (forall root child,
       links = [root; child] ->
       link_parent (st root) = None ->
       link_parent (st child) = Some root ->
       link_fk (st' child)
       = mprod (mprod base (link_local q (st root)))
               (link_local q (st child))).
Proof.
  intros Hpf.
  destruct (fkine_all_loop_spec q base links calloc16 st Hpf)
    as [ret' [st' [Hloop [_ [Hsame Hdone]]]]].
  exists st'. unfold Fknm.fkine_all. rewrite Nat2Z.id, Hloop.
  split; [reflexivity|]. split; [|split; [|split]].
  - intros id Hin. destruct (Hdone id Hin) as [Hfk Hshapes].
    destruct (Hsame id) as [_ [_ [_ [_ [_ [_ Hbase]]]]]].
    split; [exact Hfk|]. split; [exact Hbase|exact Hshapes].
  - intros id ret. apply A_local.
  - apply r2q_rotation_only.
  - intros root child -> Hroot Hchild.
    destruct (Hdone child (or_intror (or_introl eq_refl))) as [Hc _].
    destruct (Hdone root (or_introl eq_refl)) as [Hr _].
    rewrite Hchild in Hc. rewrite Hroot in Hr. now rewrite Hc, Hr.
Qed.

Lemma two_links_ordered : parents_first two_links [0; 1]%nat.
Proof.
  simpl. split; [intros p H; discriminate|].
  split; [|exact I].
  intros p H. injection H as <-. split; [discriminate|].
  intros [].
Defined.

Lemma fkine_all_propagates_witness :
  parents_first two_links [0; 1]%nat /\
  exists st',
    Fknm.fkine_all 2 [0; 1]%nat (fun _ => 0) I4 two_links = Some st' /\
    link_fk (st' 1%nat)
    = mprod (mprod I4 (link_local (fun _ => 0) (two_links 0%nat)))
            (link_local (fun _ => 0) (two_links 1%nat)) /\
    map shape_base (link_shapes (st' 1%nat)) = [TransX 1] /\
    Forall (shape_fresh (link_fk (st' 1%nat))) (link_shapes (st' 1%nat)).
Proof.
  split; [exact two_links_ordered|].
  destruct (fkine_all_propagates [0; 1]%nat (fun _ => 0) I4 two_links
              two_links_ordered) as [st' [Hrun [Hall [_ [_ Htwo]]]]].
  exists st'. split; [exact Hrun|].
  split; [exact (Htwo 0%nat 1%nat eq_refl eq_refl eq_refl)|].
  exact (proj2 (Hall 1%nat (or_intror (or_introl eq_refl)))).
Defined.

(** ** Further properties of the two implementations *)

(** methods.cpp, [_ETS_fkine]: the result is
    base . T(E_1) . ... . T(E_k) . tool, an absent base or tool being the
    identity, whatever the output matrix held before. *)
Theorem methods_fkine_returns_product (ets : list ET) (q : buf)
    (base tool : option Mat4) (e_ret : Mat4) :
  Methods._ETS_fkine ets q base tool e_ret
  = mprod (chain_product (or_identity base) (map (element_pose q) ets))
          (or_identity tool).
Proof.
  rewrite methods_fkine_product. reflexivity.
Qed.

(** The tool-frame Jacobians of fknm.c and methods.cpp agree column by
    column, as soon as the row stride [n] of the flat buffer is at least
    the number of joints. *)
Theorem jacobe_implementations_agree (ets : list ET) (n : Z) (q : buf)
    (tool : option Mat4) (J : buf) (eJ : jmat) (k : nat) :
  (Z.of_nat (joint_count ets) <= n)%Z ->
  (k < joint_count ets)%nat ->
  column_buf n (Fknm._ETS_jacobe ets n q tool J) (n - 1 - Z.of_nat k)
  = column_jmat (Methods._ETS_jacobe ets n q tool eJ) (n - 1 - Z.of_nat k).
Proof.
  intros Hn Hk.
  rewrite fknm_jacobe_column by assumption.
  now rewrite methods_jacobe_column by assumption.
Qed.

Lemma jacobe_implementations_agree_witness :
  (Z.of_nat (joint_count offset_elbow) <= 1)%Z /\
  (0 < joint_count offset_elbow)%nat /\
  column_buf 1 (Fknm._ETS_jacobe offset_elbow 1 (fun _ => 0) None calloc)
    (1 - 1 - Z.of_nat 0)
  = column_jmat
      (Methods._ETS_jacobe offset_elbow 1 (fun _ => 0) None (fun _ _ => 0))
      (1 - 1 - Z.of_nat 0).
Proof.
  split; [apply Z.le_refl|]. split; [exact Nat.lt_0_1|].
  exact (jacobe_implementations_agree offset_elbow 1 (fun _ => 0) None
           calloc (fun _ _ => 0) 0 (Z.le_refl 1) Nat.lt_0_1).
Defined.

(** With a rigid base, a rigid tool and rigid Static elements, the pose
    methods.cpp computes is rigid. *)
Theorem methods_fkine_rigid (ets : list ET) (q : buf)
    (base tool : option Mat4) (e_ret : Mat4) :
  rigid (or_identity base) -> rigid (or_identity tool) ->
  statics_rigid ets ->
  rigid (Methods._ETS_fkine ets q base tool e_ret).
Proof.
  intros Hb Ht Hs. rewrite methods_fkine_product. unfold fkine_product.
  rewrite chain_product_suffix.
  apply rigid_mprod; [|exact Ht].
  apply rigid_mprod; [exact Hb|].
  now apply rigid_suffix_product.
Qed.

Lemma methods_fkine_rigid_witness :
  rigid (or_identity (Some quarter_turn)) /\
  rigid (or_identity None) /\
  statics_rigid offset_elbow /\
  rigid (Methods._ETS_fkine offset_elbow (fun _ => 0) (Some quarter_turn)
           None calloc16).
Proof.
  split; [exact quarter_turn_rigid|]. split; [exact rigid_I4|].
  split; [exact offset_elbow_rigid|].
  exact (methods_fkine_rigid offset_elbow (fun _ => 0) (Some quarter_turn)
           None calloc16 quarter_turn_rigid rigid_I4 offset_elbow_rigid).
Defined.

(** fknm.c, [_ETS_fkine] on the empty chain: the loop that loses the
    product does not run, and the result is base . tool (an absent base
    or tool being the identity), as in methods.cpp. *)
Theorem fknm_fkine_empty_chain (q : buf) (base tool : option Mat4)
    (ret e_ret : Mat4) :
  Fknm._ETS_fkine [] q base tool ret
  = mprod (or_identity base) (or_identity tool) /\
  Fknm._ETS_fkine [] q base tool ret
  = Methods._ETS_fkine [] q base tool e_ret.
Proof.
  assert (E : Fknm._ETS_fkine [] q base tool ret
              = mprod (or_identity base) (or_identity tool)).
  { unfold Fknm._ETS_fkine. cbn [fold_left].
    destruct base as [b|], tool as [t|]; cbn [or_identity];
      rewrite ?mult_eq, ?copy_eq, ?eye4_eq, ?mprod_I4_r; reflexivity. }
  split; [exact E|].
  rewrite E, methods_fkine_product. reflexivity.
Qed.

(** ** Link chains *)

Lemma fkine_loop_full (q : buf) (cnt : nat) : forall rest ret temp current,
  (cnt <= length rest)%nat ->
  exists ret' temp',
    fkine_loop cnt rest q (ret, temp, current)
    = (ret', temp',
       mprod current (links_product q (firstn cnt rest)), true).
Proof.
  induction cnt as [|c IH]; intros rest ret temp current Hc; simpl.
  - exists ret, temp. now rewrite mprod_I4_r.
  - destruct rest as [|l rest]; simpl in Hc; [lia|].
    rewrite A_local, mult_eq, copy_eq.
    destruct (IH rest (link_local q l) (mprod current (link_local q l))
                (mprod current (link_local q l)) ltac:(lia))
      as [ret' [temp' E]].
    exists ret', temp'. rewrite E. simpl. now rewrite mprod_assoc.
Qed.

Lemma last_cons_default {A : Type} (r : list A) : forall a d,
  last (a :: r) d = last r a.
Proof.
  induction r as [|b r IH]; intros a d; [reflexivity|].
  change (last (a :: b :: r) d) with (last (b :: r) d).
  now rewrite !IH.
Qed.

Lemma fkine_loop_short (q : buf) (cnt : nat) : forall rest ret temp current,
  (length rest < cnt)%nat ->
  exists temp' current',
    fkine_loop cnt rest q (ret, temp, current)
    = (match rest with
       | [] => ret
       | l :: r => link_local q (last r l)
       end, temp', current', false).
Proof.
  induction cnt as [|c IH]; intros rest ret temp current Hc; simpl.
  - lia.
  - destruct rest as [|l rest]; simpl in Hc.
    + now exists temp, current.
    + rewrite A_local, mult_eq, copy_eq.
      destruct (IH rest (link_local q l) (mprod current (link_local q l))
                  (mprod current (link_local q l)) ltac:(lia))
        as [temp' [current' E]].
      exists temp', current'. rewrite E.
      destruct rest as [|l' rest]; [reflexivity|].
      now rewrite last_cons_default.
Qed.

Lemma links_fkine_full (links : list Link) (n : Z) (q : buf)
    (etool tool ret : Mat4) :
  links <> [] -> (n <= Z.of_nat (length links))%Z ->
  _fkine links n q etool tool ret
  = mprod (mprod (links_product q (firstn (Z.to_nat (Z.max 1 n)) links))
             etool) tool.
Proof.
  intros Hne Hn. destruct links as [|l rest]; [congruence|].
  unfold _fkine. rewrite A_local. simpl length in Hn.
  destruct (fkine_loop_full q (Z.to_nat (n - 1)) rest ret calloc16
              (link_local q l) ltac:(lia)) as [ret' [temp' E]].
  rewrite E. rewrite !mult_eq, copy_eq.
  replace (Z.to_nat (Z.max 1 n)) with (S (Z.to_nat (n - 1))) by lia.
  reflexivity.
Qed.

Lemma links_fkine_whole (links : list Link) (q : buf)
    (etool tool ret : Mat4) :
  links <> [] ->
  _fkine links (Z.of_nat (length links)) q etool tool ret
  = mprod (mprod (links_product q links) etool) tool.
Proof.
  intros Hne. rewrite links_fkine_full by (trivial; lia).
  destruct links as [|l rest]; [congruence|].
  replace (Z.to_nat (Z.max 1 (Z.of_nat (length (l :: rest)))))
    with (length (l :: rest)) by (simpl length; lia).
  now rewrite firstn_all.
Qed.

(** fknm.c, [_fkine]: for a non-empty list of links and a count [n] that
    does not exceed its length, the result is
    A(l_1) . ... . A(l_k) . etool . tool over the first k = max(1, n)
    links, whatever [ret] held; a count below 1 is treated as 1, and the
    count equal to the length gives the whole chain. *)
Theorem links_fkine_product (links : list Link) (n : Z) (q : buf)
    (etool tool ret : Mat4) :
  links <> [] -> (n <= Z.of_nat (length links))%Z ->
  _fkine links n q etool tool ret
  = mprod (mprod (links_product q (firstn (Z.to_nat (Z.max 1 n)) links))
             etool) tool /\
  _fkine links (Z.of_nat (length links)) q etool tool ret
  = mprod (mprod (links_product q links) etool) tool.
Proof.
  intros Hne Hn. split.
  - now apply links_fkine_full.
  - now apply links_fkine_whole.
Qed.

Lemma elbow_links_nonempty : elbow_links <> [].
Proof. discriminate. Qed.

Lemma links_fkine_product_witness :
  elbow_links <> [] /\ (2 <= Z.of_nat (length elbow_links))%Z /\
  _fkine elbow_links 2 (fun _ => 0) I4 I4 calloc16
  = mprod (mprod (links_product (fun _ => 0)
                    (firstn (Z.to_nat (Z.max 1 2)) elbow_links)) I4) I4 /\
  _fkine elbow_links (Z.of_nat (length elbow_links)) (fun _ => 0) I4 I4
    calloc16
  = mprod (mprod (links_product (fun _ => 0) elbow_links) I4) I4.
Proof.
  split; [exact elbow_links_nonempty|]. split; [apply Z.le_refl|].
  exact (links_fkine_product elbow_links 2 (fun _ => 0) I4 I4 calloc16
           elbow_links_nonempty (Z.le_refl 2)).
Defined.


(** fknm.c, [_fkine]: when the list has fewer than [n] links the function
    returns from inside its loop and the tools are never applied: [ret]
    is left as it was for a list of at most one link, and holds the local
    transform of the last link alone otherwise. *)
Theorem links_fkine_short_list (links : list Link) (n : Z) (q : buf)
    (etool tool ret : Mat4) :
  (Z.of_nat (length links) < n)%Z ->
  _fkine links n q etool tool ret
  = match links with
    | _ :: l :: r => link_local q (last r l)
    | _ => ret
    end.
Proof.
  intros Hn. destruct links as [|l0 rest]; [reflexivity|].
  unfold _fkine. rewrite A_local. simpl length in Hn.
  destruct (fkine_loop_short q (Z.to_nat (n - 1)) rest ret calloc16
              (link_local q l0) ltac:(lia)) as [temp' [current' E]].
  rewrite E. destruct rest; reflexivity.
Qed.

Lemma links_fkine_short_list_witness :
  (Z.of_nat (length elbow_links) < 3)%Z /\
  _fkine elbow_links 3 (fun _ => 0) I4 I4 calloc16
  = link_local (fun _ => 0)
      (mkLink false false 0 JRx (TransX 1) calloc16 None []).
Proof.
  split; [reflexivity|].
  exact (links_fkine_short_list elbow_links 3 (fun _ => 0) I4 I4 calloc16
           eq_refl).
Defined.

Lemma chain_of_links_cons (l : Link) (rest : list Link) :
  chain_of_links (l :: rest) = link_elements l ++ chain_of_links rest.
Proof. reflexivity. Qed.

Lemma link_elements_length (l : Link) :
  (1 <= length (link_elements l))%nat.
Proof. unfold link_elements. destruct (link_isjoint l); simpl; lia. Qed.

Lemma chain_of_links_joints (links : list Link) :
  joint_count (chain_of_links links) = joint_links links.
Proof.
  unfold joint_count, joint_links, chain_of_links.
  induction links as [|l rest IH]; simpl; [reflexivity|].
  rewrite filter_app, length_app, IH. unfold link_elements.
  destruct (link_isjoint l); reflexivity.
Qed.

Lemma chain_of_links_product (q : buf) (links : list Link) :
  suffix_product q (chain_of_links links) = links_product q links.
Proof.
  induction links as [|l rest IH]; simpl; [reflexivity|].
  unfold chain_of_links in *. unfold suffix_product in *.
  rewrite fold_right_app, IH. unfold link_elements, link_local.
  destruct (link_isjoint l); simpl; unfold element_pose; simpl;
    now rewrite ?mprod_assoc.
Qed.

Lemma jacob0_links_as_sweep (n : Z) (q : buf) (etool tool T : Mat4)
    (m m' : Z) (links : list Link) :
  forall i i' U invU temp ret j J,
    (i + Z.of_nat (length links) = m)%Z ->
    (i' + Z.of_nat (length (chain_of_links links)) = m')%Z ->
    let '(U', _, _, _, j', J', _) :=
      links_loop (length links) i links
        (jacob0_links_body m n q etool tool T)
        (U, invU, temp, ret, j, J) in
    (U', j', J')
    = sweep0 (fun ax j => Fknm.jacob0_axis ax n j) q
        (Some (mprod etool tool)) T m' (chain_of_links links) i' U j J.
Proof.
  induction links as [|l rest IH]; intros i i' U invU temp ret j J Hi Hi'.
  - reflexivity.
  - rewrite chain_of_links_cons, length_app in Hi'.
    simpl length in Hi.
    assert (Hrest : rest <> [] ->
                    (1 <= length (chain_of_links rest))%nat).
    { destruct rest as [|l2 rest]; [congruence|]. intros _.
      rewrite chain_of_links_cons, length_app.
      pose proof (link_elements_length l2). lia. }
    rewrite chain_of_links_cons.
    change (links_loop (length (l :: rest)) i (l :: rest)
              (jacob0_links_body m n q etool tool T)
              (U, invU, temp, ret, j, J))
      with (links_loop (length rest) (i + 1) rest
              (jacob0_links_body m n q etool tool T)
              (jacob0_links_body m n q etool tool T i l
                 (U, invU, temp, ret, j, J))).
    unfold jacob0_links_body at 2. unfold link_elements in *.
    rewrite A_local. unfold link_local.
    destruct (link_isjoint l) eqn:Hj; simpl length in Hi'.
    + assert (Hlast : (i =? m - 1)%Z = (i' + 1 =? m' - 1)%Z).
      { destruct rest as [|l2 rest].
        - simpl in *. destruct (Z.eqb_spec i (m - 1)); [|lia].
          destruct (Z.eqb_spec (i' + 1) (m' - 1)); [reflexivity|lia].
        - specialize (Hrest ltac:(discriminate)). simpl length in Hi.
          destruct (Z.eqb_spec i (m - 1)); [lia|].
          destruct (Z.eqb_spec (i' + 1) (m' - 1)); [lia|reflexivity]. }
      simpl app. cbn [sweep0 et_isjoint et_axis].
      unfold element_pose at 1 2.
      cbn [et_isjoint et_isflip et_jindex et_axis et_T].
      rewrite <- Hlast.
      destruct (i =? m - 1)%Z;
        rewrite ?mult_eq, ?copy_eq, ?inv_rigid_inverse, ?mprod_assoc;
        apply IH; lia.
    + simpl app. cbn [sweep0 et_isjoint et_axis].
      unfold element_pose at 1.
      cbn [et_isjoint et_isflip et_jindex et_axis et_T].
      rewrite ?mult_eq, ?copy_eq.
      apply IH; lia.
Qed.

Lemma links_loop_flag {St : Type} (body : Z -> Link -> St -> St) :
  forall cnt i links s,
    snd (links_loop cnt i links body s)
    = (cnt <=? length links)%nat.
Proof.
  induction cnt as [|c IH]; intros i links s; simpl; [reflexivity|].
  destruct links as [|l rest]; [reflexivity|]. apply IH.
Qed.

Lemma links_jacob0_sweep (links : list Link) (n : Z) (q : buf)
    (etool tool : Mat4) (J : buf) :
  _jacob0 links (Z.of_nat (length links)) n q etool tool J
  = snd (sweep0 (fun ax j => Fknm.jacob0_axis ax n j) q
           (Some (mprod etool tool))
           (_fkine links (Z.of_nat (length links)) q etool tool calloc16)
           (Z.of_nat (length (chain_of_links links)))
           (chain_of_links links) 0 I4 0 J).
Proof.
  unfold _jacob0. cbv zeta. rewrite eye4_eq, Nat2Z.id.
  pose proof (jacob0_links_as_sweep n q etool tool
                (_fkine links (Z.of_nat (length links)) q etool tool
                   calloc16)
                (Z.of_nat (length links))
                (Z.of_nat (length (chain_of_links links)))
                links 0%Z 0%Z I4 calloc16 calloc16 calloc16 0%Z J
                ltac:(lia) ltac:(lia)) as H.
  destruct (links_loop _ _ _ _ _) as [[[[[[U' ?] ?] ?] j'] J'] fl].
  now rewrite <- H.
Qed.

Lemma links_fkine_methods (links : list Link) (q : buf)
    (etool tool ret e_ret : Mat4) :
  links <> [] ->
  _fkine links (Z.of_nat (length links)) q etool tool ret
  = Methods._ETS_fkine (chain_of_links links) q None
      (Some (mprod etool tool)) e_ret.
Proof.
  intros Hne. rewrite links_fkine_whole by exact Hne.
  rewrite methods_fkine_product. unfold fkine_product, or_identity.
  rewrite chain_product_suffix, chain_of_links_product, mprod_I4_l.
  apply mprod_assoc.
Qed.

Lemma joint_links_nonempty (links : list Link) (k : nat) :
  (k < joint_links links)%nat -> links <> [].
Proof. destruct links; [unfold joint_links; simpl; lia|discriminate]. Qed.

(** fknm.c, [_jacob0] over a list of links is the base-frame Jacobian
    that methods.cpp computes for the chain of elementary transforms of
    these links (each link its static part, then its joint) with the tool
    etool . tool: the columns of the joints agree. *)
Theorem links_jacob0_columns (links : list Link) (n : Z) (q : buf)
    (etool tool : Mat4) (J : buf) (eJ : jmat) (k : nat) :
  (Z.of_nat (joint_links links) <= n)%Z ->
  (k < joint_links links)%nat ->
  column_buf n (_jacob0 links (Z.of_nat (length links)) n q etool tool J)
    (Z.of_nat k)
  = column_jmat
      (Methods._ETS_jacob0 (chain_of_links links) n q
         (Some (mprod etool tool)) eJ) (Z.of_nat k).
Proof.
  intros Hn Hk.
  pose proof (joint_links_nonempty links k Hk) as Hne.
  rewrite <- chain_of_links_joints in Hn, Hk.
  rewrite methods_jacob0_column by exact Hk.
  rewrite links_jacob0_sweep.
  rewrite (links_fkine_methods links q etool tool calloc16 calloc16 Hne).
  replace (Z.of_nat k) with (0 + Z.of_nat k)%Z by lia.
  apply (sweep0_columns (fun ax j => Fknm.jacob0_axis ax n j)
           (column_buf n) (fun c => (0 <= c < n)%Z)).
  - intros; apply fknm_jacob0_axis_same; lia.
  - intros; now apply fknm_jacob0_axis_other.
  - now rewrite jacob0_accs_length.
  - intros k'. rewrite jacob0_accs_length. lia.
Qed.

Lemma links_jacob0_columns_witness :
  (Z.of_nat (joint_links elbow_links) <= 1)%Z /\
  (0 < joint_links elbow_links)%nat /\
  column_buf 1
    (_jacob0 elbow_links (Z.of_nat (length elbow_links)) 1 (fun _ => 0)
       I4 I4 calloc) (Z.of_nat 0)
  = column_jmat
      (Methods._ETS_jacob0 (chain_of_links elbow_links) 1 (fun _ => 0)
         (Some (mprod I4 I4)) (fun _ _ => 0)) (Z.of_nat 0).
Proof.
  split; [apply Z.le_refl|]. split; [exact Nat.lt_0_1|].
  exact (links_jacob0_columns elbow_links 1 (fun _ => 0) I4 I4 calloc
           (fun _ _ => 0) 0 (Z.le_refl 1) Nat.lt_0_1).
Defined.


Lemma flat_map_rev {A B : Type} (f : A -> list B) (l : list A) :
  rev (flat_map f l) = flat_map (fun x => rev (f x)) (rev l).
Proof.
  induction l as [|x l IH]; simpl; [reflexivity|].
  rewrite rev_app_distr, IH, flat_map_app. simpl.
  now rewrite app_nil_r.
Qed.

Lemma jacobe_links_as_sweep (n : Z) (q : buf) (l : list Link) :
  forall i U temp ret j J,
    let '(U', _, _, j', J', _) :=
      links_loop (length l) i l (jacobe_links_body n q)
        (U, temp, ret, j, J) in
    (U', j', J')
    = sweepe (fun ax j => Fknm.jacobe_axis ax n j) q
        (flat_map (fun x => rev (link_elements x)) l) U j J.
Proof.
  induction l as [|x rest IH]; intros i U temp ret j J.
  - reflexivity.
  - change (links_loop (length (x :: rest)) i (x :: rest)
              (jacobe_links_body n q) (U, temp, ret, j, J))
      with (links_loop (length rest) (i + 1) rest
              (jacobe_links_body n q)
              (jacobe_links_body n q i x (U, temp, ret, j, J))).
    unfold jacobe_links_body at 2.
    rewrite A_local. unfold link_local.
    cbn [flat_map]. unfold link_elements at 1.
    destruct (link_isjoint x) eqn:Hj.
    + cbn [rev app sweepe et_isjoint et_axis].
      unfold element_pose at 1 2.
      cbn [et_isjoint et_isflip et_jindex et_axis et_T].
      rewrite ?mult_eq, ?copy_eq, ?mprod_assoc. apply IH.
    + cbn [rev app sweepe et_isjoint et_axis].
      unfold element_pose at 1.
      cbn [et_isjoint et_isflip et_jindex et_axis et_T].
      rewrite ?mult_eq, ?copy_eq. apply IH.
Qed.

Lemma links_jacobe_sweep (links : list Link) (n : Z) (q : buf)
    (etool tool : Mat4) (J : buf) :
  snd (_jacobe links (Z.of_nat (length links)) n q etool tool J)
  = snd (sweepe (fun ax j => Fknm.jacobe_axis ax n j) q
           (rev (chain_of_links links))
           (tool_seed (Some (mprod tool etool))) (n - 1) J).
Proof.
  unfold _jacobe, tool_seed. cbv zeta.
  rewrite eye4_eq, Nat2Z.id, !mult_eq, !copy_eq.
  unfold chain_of_links. rewrite flat_map_rev.
  pose proof (jacobe_links_as_sweep n q (rev links) 0%Z
                (mprod tool (mprod etool I4)) (mprod tool (mprod etool I4))
                calloc16 (n - 1)%Z J) as H.
  rewrite length_rev in H.
  destruct (links_loop _ _ _ _ _) as [[[[[U' ?] ?] j'] J'] fl].
  rewrite <- mprod_assoc in H.
  destruct fl; simpl; now rewrite <- H.
Qed.

(** fknm.c, [_jacobe] over a list of links is the tool-frame Jacobian
    that methods.cpp computes for the chain of elementary transforms of
    these links with the tool taken as tool . etool, the two tool
    transforms in the order opposite to that of [_fkine] and [_jacob0]. *)
Theorem links_jacobe_columns (links : list Link) (n : Z) (q : buf)
    (etool tool : Mat4) (J : buf) (eJ : jmat) (k : nat) :
  (Z.of_nat (joint_links links) <= n)%Z ->
  (k < joint_links links)%nat ->
  column_buf n
    (snd (_jacobe links (Z.of_nat (length links)) n q etool tool J))
    (n - 1 - Z.of_nat k)
  = column_jmat
      (Methods._ETS_jacobe (chain_of_links links) n q
         (Some (mprod tool etool)) eJ) (n - 1 - Z.of_nat k).
Proof.
  intros Hn Hk.
  rewrite <- chain_of_links_joints in Hn, Hk.
  rewrite methods_jacobe_column by exact Hk.
  rewrite links_jacobe_sweep.
  apply (sweepe_columns (fun ax j => Fknm.jacobe_axis ax n j)
           (column_buf n) (fun c => (0 <= c < n)%Z)).
  - intros; apply fknm_jacobe_axis_same; lia.
  - intros; now apply fknm_jacobe_axis_other.
  - now rewrite jacobe_accs_length, joint_count_rev.
  - intros k'. rewrite jacobe_accs_length, joint_count_rev. lia.
Qed.

Lemma links_jacobe_columns_witness :
  (Z.of_nat (joint_links elbow_links) <= 1)%Z /\
  (0 < joint_links elbow_links)%nat /\
  column_buf 1
    (snd (_jacobe elbow_links (Z.of_nat (length elbow_links)) 1
            (fun _ => 0) I4 I4 calloc)) (1 - 1 - Z.of_nat 0)
  = column_jmat
      (Methods._ETS_jacobe (chain_of_links elbow_links) 1 (fun _ => 0)
         (Some (mprod I4 I4)) (fun _ _ => 0)) (1 - 1 - Z.of_nat 0).
Proof.
  split; [apply Z.le_refl|]. split; [exact Nat.lt_0_1|].
  exact (links_jacobe_columns elbow_links 1 (fun _ => 0) I4 I4 calloc
           (fun _ _ => 0) 0 (Z.le_refl 1) Nat.lt_0_1).
Defined.


(** fknm.c, [_jacobe] reverses the Python list of links in place and
    reverses it back only when its loop runs to the end: with a count [m]
    larger than the number of links it returns from inside the loop and
    leaves the caller's list reversed. *)
Theorem links_jacobe_list_order (links : list Link) (m n : Z) (q : buf)
    (etool tool : Mat4) (J : buf) :
  fst (_jacobe links m n q etool tool J)
  = if (m <=? Z.of_nat (length links))%Z then links else rev links.
Proof.
  unfold _jacobe. cbv zeta.
  pose proof (links_loop_flag (jacobe_links_body n q) (Z.to_nat m) 0%Z
                (rev links)
                (copy (mult tool (copy (mult etool (_eye4 calloc16) calloc16)
                                   (_eye4 calloc16))
                         (mult etool (_eye4 calloc16) calloc16))
                      (copy (mult etool (_eye4 calloc16) calloc16)
                         (_eye4 calloc16)),
                 mult tool (copy (mult etool (_eye4 calloc16) calloc16)
                              (_eye4 calloc16))
                   (mult etool (_eye4 calloc16) calloc16),
                 calloc16, (n - 1)%Z, J)) as Hf.
  destruct (links_loop _ _ _ _ _) as [[[[[U' ?] ?] j'] J'] fl].
  simpl in Hf. subst fl. rewrite length_rev.
  destruct (Z.leb_spec m (Z.of_nat (length links))).
  - replace (Z.to_nat m <=? length links)%nat with true
      by (symmetry; apply Nat.leb_le; lia).
    simpl. apply rev_involutive.
  - replace (Z.to_nat m <=? length links)%nat with false
      by (symmetry; apply Nat.leb_gt; lia).
    reflexivity.
Qed.

(** ** General matrix products *)

Lemma dot_sum_ext (cnt : nat) (g h : Z -> R) :
  (forall k, (0 <= k < Z.of_nat cnt)%Z -> g k = h k) ->
  dot_sum cnt g = dot_sum cnt h.
Proof.
  induction cnt as [|c IH]; intros Hgh; simpl; [reflexivity|].
  rewrite IH by (intros; apply Hgh; lia).
  now rewrite Hgh by lia.
Qed.

Lemma dot_sum_head (cnt : nat) (g : Z -> R) :
  dot_sum (S cnt) g = g 0%Z + dot_sum cnt (fun k => g (1 + k)%Z).
Proof.
  induction cnt as [|c IH].
  - simpl. ring.
  - change (dot_sum (S (S c)) g)
      with (dot_sum (S c) g + g (Z.of_nat (S c))).
    rewrite IH.
    change (dot_sum (S c) (fun k => g (1 + k)%Z))
      with (dot_sum c (fun k => g (1 + k)%Z) + g (1 + Z.of_nat c)%Z).
    replace (1 + Z.of_nat c)%Z with (Z.of_nat (S c)) by lia. ring.
Qed.

Lemma for_up_sum (f : Z -> R) (cnt : nat) : forall lo acc,
  for_up cnt lo (fun k num => num + f k) acc
  = acc + dot_sum cnt (fun k => f (lo + k)%Z).
Proof.
  induction cnt as [|c IH]; intros lo acc.
  - simpl. ring.
  - rewrite dot_sum_head. simpl for_up. rewrite IH.
    replace (lo + 0)%Z with lo by lia.
    rewrite (dot_sum_ext c (fun k => f (lo + 1 + k)%Z)
               (fun k => f (lo + (1 + k))%Z))
      by (intros; f_equal; lia).
    ring.
Qed.

Lemma for_range_sum (f : Z -> R) (p : Z) :
  for_range 0 p (fun k num => num + f k) 0 = dot_sum (Z.to_nat p) f.
Proof.
  unfold for_range. rewrite for_up_sum, Z.sub_0_r.
  rewrite Rplus_0_l. apply dot_sum_ext. intros; f_equal.
Qed.

Lemma mult_loops_cells (n q p : Z) (a b : Z -> Z -> R) (C : buf) (x : Z) :
  mult_loops n q p a b C x
  = if ((0 <=? x) && (x <? n * q) && (0 <? q))%Z
    then dot_sum (Z.to_nat p) (fun k => a (x / q)%Z k * b k (x mod q)%Z)
    else C x.
Proof.
  unfold mult_loops.
  destruct (Z.leb_spec 0 x) as [Hx0|Hx0];
    [destruct (Z.ltb_spec x (n * q)) as [Hxn|Hxn];
     [destruct (Z.ltb_spec 0 q) as [Hq|Hq]|]|]; cbn [andb].
  - pose proof (Z.div_mod x q ltac:(lia)) as Hdm.
    pose proof (Z.mod_pos_bound x q Hq) as Hmod.
    assert (Hdiv : (0 <= x / q < n)%Z).
    { split; [apply Z.div_pos; lia|apply Z.div_lt_upper_bound; lia]. }
    apply for_range_set_once with (k0 := (x / q)%Z); [exact Hdiv| |].
    + intros H'.
      apply for_range_set_once with (k0 := (x mod q)%Z); [exact Hmod| |].
      * intros H''. cbv zeta. rewrite for_range_sum.
        replace (x / q * q + x mod q)%Z with x by lia.
        apply upd_same.
      * intros k H'' Hk Hne. cbv zeta. apply upd_other. lia.
    + intros i H' Hi Hne. apply for_range_untouched.
      intros j H'' Hj. cbv zeta. apply upd_other.
      intros E. apply Hne. subst x.
      apply Z.div_unique with (r := j); lia.
  - apply for_range_untouched. intros i H' Hi.
    apply for_range_untouched. intros j H'' Hj. lia.
  - apply for_range_untouched. intros i H' Hi.
    apply for_range_untouched. intros j H'' Hj.
    cbv zeta. apply upd_other. nia.
  - apply for_range_untouched. intros i H' Hi.
    apply for_range_untouched. intros j H'' Hj.
    cbv zeta. apply upd_other. nia.
Qed.

Lemma general_mult_loops (n m : Z) (A : buf) (p q : Z) (B C : buf) :
  _mult n m A p q B C
  = mult_loops n q p (fun i k => A (i * m + k)%Z)
      (fun k j => B (k * q + j)%Z) C.
Proof. reflexivity. Qed.

(** fknm.c, [_mult]: the function writes the n . q cells 0 .. n.q - 1 of
    [C] and no other: cell i.q + j receives the sum over k < p of
    A[i.m + k] . B[k.q + j], whatever [C] held. *)
Theorem general_mult_cells (n m : Z) (A : buf) (p q : Z) (B C : buf)
    (x : Z) :
  _mult n m A p q B C x
  = if ((0 <=? x) && (x <? n * q) && (0 <? q))%Z
    then dot_sum (Z.to_nat p)
           (fun k => A (x / q * m + k)%Z * B (k * q + x mod q)%Z)
    else C x.
Proof.
  rewrite general_mult_loops. apply mult_loops_cells.
Qed.

Lemma general_mult_T_loops (n m AT : Z) (A : buf) (p q BT : Z)
    (B C : buf) :
  _mult_T n m AT A p q BT B C
  = let n' := if negb (AT =? 0)%Z then m else n in
    let m' := if negb (AT =? 0)%Z then n else m in
    let p' := if negb (BT =? 0)%Z then q else p in
    let q' := if negb (BT =? 0)%Z then p else q in
    mult_loops n' q' p'
      (fun i k => if negb (AT =? 0)%Z then A (k * n' + i)%Z
                  else A (i * m' + k)%Z)
      (fun k j => if negb (BT =? 0)%Z then B (j * p' + k)%Z
                  else B (k * q' + j)%Z) C.
Proof.
  unfold _mult_T.
  destruct (negb (AT =? 0)%Z), (negb (BT =? 0)%Z); reflexivity.
Qed.

(** fknm.c, [_mult_T] is [_mult] on the transposed operands: with the
    dimensions of a flagged operand swapped, the result is the product of
    the explicitly transposed buffers, provided the inner dimension [p']
    does not exceed the row length of a transposed [A]. *)
Theorem general_mult_T_transposes (n m AT : Z) (A : buf) (p q BT : Z)
    (B C : buf) (x : Z) :
  let n' := if negb (AT =? 0)%Z then m else n in
  let m' := if negb (AT =? 0)%Z then n else m in
  let p' := if negb (BT =? 0)%Z then q else p in
  let q' := if negb (BT =? 0)%Z then p else q in
  (AT = 0 \/ p' <= m')%Z ->
  _mult_T n m AT A p q BT B C x
  = _mult n' m' (if negb (AT =? 0)%Z then transpose_buf n m A else A)
      p' q' (if negb (BT =? 0)%Z then transpose_buf p q B else B) C x.
Proof.
  intros n' m' p' q' Hp.
  rewrite general_mult_T_loops, general_mult_loops. cbv zeta.
  fold n' m' p' q'. rewrite !mult_loops_cells.
  destruct ((0 <=? x) && (x <? n' * q') && (0 <? q'))%Z eqn:Hc;
    [|reflexivity].
  apply andb_prop in Hc. destruct Hc as [Hc Hq].
  apply andb_prop in Hc. destruct Hc as [Hx0 Hxn].
  apply Z.leb_le in Hx0. apply Z.ltb_lt in Hxn, Hq.
  pose proof (Z.mod_pos_bound x q' Hq) as Hmod.
  assert (Hdiv : (0 <= x / q')%Z) by (apply Z.div_pos; lia).
  apply dot_sum_ext. intros k Hk. f_equal.
  - subst n' m'. destruct (Z.eqb_spec AT 0) as [HA|HA]; cbn [negb] in *.
    + reflexivity.
    + destruct Hp as [Hp|Hp]; [contradiction|].
      assert (Hkn : (0 <= k < n)%Z) by lia.
      assert (E1 : ((x / q' * n + k) mod n = k)%Z).
      { symmetry. apply Z.mod_unique with (q := (x / q')%Z); lia. }
      assert (E2 : ((x / q' * n + k) / n = x / q')%Z).
      { symmetry. apply Z.div_unique with (r := k); lia. }
      unfold transpose_buf. now rewrite E1, E2.
  - subst p' q'. destruct (Z.eqb_spec BT 0) as [HB|HB]; cbn [negb] in *.
    + reflexivity.
    + assert (E1 : ((k * p + x mod p) mod p = x mod p)%Z).
      { symmetry. apply Z.mod_unique with (q := k); lia. }
      assert (E2 : ((k * p + x mod p) / p = k)%Z).
      { symmetry. apply Z.div_unique with (r := (x mod p)%Z); lia. }
      unfold transpose_buf. now rewrite E1, E2.
Qed.

Lemma general_mult_T_transposes_witness :
  (1 = 0 \/ 2 <= 2)%Z /\
  _mult_T 2 3 1 (fun k => IZR k) 2 2 0 (fun k => IZR k) calloc 0%Z
  = _mult 3 2 (transpose_buf 2 3 (fun k => IZR k)) 2 2 (fun k => IZR k)
      calloc 0%Z.
Proof.
  split; [right; apply Z.le_refl|].
  exact (general_mult_T_transposes 2 3 1 (fun k => IZR k) 2 2 0
           (fun k => IZR k) calloc 0%Z (or_intror (Z.le_refl 2))).
Defined.

Lemma get_outside (M : Mat4) (k : Z) :
  (k < 0 \/ 15 < k)%Z -> M.[k] = 0.
Proof.
  intros Hk. destruct k as [|p|p]; [lia| |reflexivity].
  do 5 (try destruct p as [p|p|]); try reflexivity; lia.
Qed.

(** fknm.c: [mult], the product of two poses used throughout the file
    (and by [compose]), is the general [_mult] at n = m = p = q = 4: the
    two functions leave the same sixteen doubles in [C]. *)
Theorem mult_is_general_mult (A B C : Mat4) (k : Z) :
  (mult A B C).[k]
  = _mult 4 4 (buf_of_mat A) 4 4 (buf_of_mat B) (buf_of_mat C) k.
Proof.
  rewrite general_mult_cells, mult_eq.
  destruct (Z.leb_spec 0 k) as [H0|H0];
    [destruct (Z.ltb_spec k (4 * 4)) as [H1|H1]|]; cbn [andb Z.ltb Z.compare].
  - assert (Hk : (k = 0 \/ k = 1 \/ k = 2 \/ k = 3 \/ k = 4 \/ k = 5 \/
                  k = 6 \/ k = 7 \/ k = 8 \/ k = 9 \/ k = 10 \/ k = 11 \/
                  k = 12 \/ k = 13 \/ k = 14 \/ k = 15)%Z) by lia.
    destruct A, B.
    repeat (destruct Hk as [->|Hk]; [unfold buf_of_mat;
      cbv [dot_sum Z.to_nat Pos.to_nat Pos.iter_op Nat.add Z.of_nat
           Pos.of_succ_nat Pos.succ]; unfold_mat; ring|]).
    subst k. unfold buf_of_mat.
    cbv [dot_sum Z.to_nat Pos.to_nat Pos.iter_op Nat.add Z.of_nat
         Pos.of_succ_nat Pos.succ]; unfold_mat; ring.
  - unfold buf_of_mat. now rewrite !get_outside by lia.
  - unfold buf_of_mat. now rewrite !get_outside by lia.
Qed.

(** ** Elementary transforms *)

(** fknm.c, [rx] .. [tz]: the transforms about or along one axis form a
    one-parameter group under [mult], whatever the output buffers held:
    the transform at 0 is the identity, the product of the transforms at
    [x] and [y] is the transform at [x + y], and [_inv] maps the
    transform at [x] to the transform at [- x]. *)
Theorem elementary_transforms_group (a : JointType) (x y : R)
    (d1 d2 d3 c : Mat4) :
  op_of a d1 0 = _eye4 c /\
  mult (op_of a d1 x) (op_of a d2 y) c = op_of a d3 (x + y) /\
  _inv (op_of a d1 x) c = op_of a d3 (- x).
Proof.
  rewrite mult_eq, !op_of_eq, eye4_eq. unfold rigid_inverse.
  repeat split.
  - destruct a; unfold generator; unfold_mat; rewrite ?cos_0, ?sin_0;
      apply mkMat4_ext; ring.
  - destruct a; unfold generator; unfold_mat;
      rewrite ?cos_plus, ?sin_plus; apply mkMat4_ext; ring.
  - destruct a, c; unfold generator; unfold_mat;
      rewrite ?cos_neg, ?sin_neg; apply mkMat4_ext; ring.
Qed.

(** fknm.c, [_ET_T]: reversing the flip flag of a joint element inverts
    its transform. *)
Theorem flipped_joint_is_inverse (et : ET) (ret ret' inv : Mat4)
    (eta : R) :
  et_isjoint et = true ->
  _ET_T (mkET true (negb (et_isflip et)) (et_jindex et) (et_axis et)
           (et_T et)) ret eta
  = _inv (_ET_T et ret' eta) inv.
Proof.
  intros Hj. unfold _ET_T, et_op. rewrite Hj.
  cbn [et_isjoint et_isflip et_axis negb].
  rewrite !op_of_eq.
  destruct (et_isflip et); cbn [negb];
    destruct (et_axis et), inv; unfold generator; unfold_mat;
    rewrite ?Ropp_involutive, ?cos_neg, ?sin_neg; apply mkMat4_ext; ring.
Qed.

Lemma flipped_joint_is_inverse_witness :
  et_isjoint slider = true /\
  _ET_T (mkET true (negb (et_isflip slider)) (et_jindex slider)
           (et_axis slider) (et_T slider)) calloc16 1
  = _inv (_ET_T slider calloc16 1) calloc16.
Proof.
  split; [reflexivity|].
  exact (flipped_joint_is_inverse slider calloc16 calloc16 calloc16 1
           eq_refl).
Defined.

(** ** Rigid inverse, further laws *)

(** fknm.c, [_inv]: on rigid transforms the function is a two-sided
    inverse and an involution, and it reverses products. *)
Theorem inv_rigid_laws (A B c1 c2 c3 c4 c5 : Mat4) :
  rigid A -> rigid B ->
  mult A (_inv A c1) c2 = _eye4 c3 /\
  _inv (_inv A c1) c2 = A /\
  _inv (mult A B c1) c2 = mult (_inv B c3) (_inv A c4) c5.
Proof.
  intros HA HB. rewrite !mult_eq, eye4_eq. repeat split.
  - pose proof (rigid_rows A HA) as Hr.
    destruct HA as [[H12 [H13 [H14 H15]]] _].
    destruct Hr as [R00 [R11 [R22 [R01 [R02 R12]]]]].
    destruct A, c1; revert H12 H13 H14 H15 R00 R11 R22 R01 R02 R12.
    unfold_mat; intros; subst.
    apply mkMat4_ext; try ring; try lra; nsatz.
  - pose proof (rigid_rows A HA) as Hr.
    destruct HA as [[H12 [H13 [H14 H15]]] _].
    destruct Hr as [R00 [R11 [R22 [R01 [R02 R12]]]]].
    destruct A, c1, c2; revert H12 H13 H14 H15 R00 R11 R22 R01 R02 R12.
    unfold_mat; intros; subst.
    apply mkMat4_ext; try ring; try lra; nsatz.
  - destruct HA as [[A12 [A13 [A14 A15]]] [C00 [C11 [C22 [C01 [C02 C12]]]]]].
    destruct HB as [[B12 [B13 [B14 B15]]] _].
    destruct A, B, c2, c3, c4;
      revert A12 A13 A14 A15 B12 B13 B14 B15 C00 C11 C22 C01 C02 C12.
    unfold_mat; intros; subst.
    apply mkMat4_ext; try ring; nsatz.
Qed.

Lemma inv_rigid_laws_witness :
  rigid quarter_turn /\
  mult quarter_turn (_inv quarter_turn calloc16) calloc16 = _eye4 calloc16 /\
  _inv (_inv quarter_turn calloc16) calloc16 = quarter_turn /\
  _inv (mult quarter_turn quarter_turn calloc16) calloc16
  = mult (_inv quarter_turn calloc16) (_inv quarter_turn calloc16) calloc16.
Proof.
  split; [exact quarter_turn_rigid|].
  exact (inv_rigid_laws quarter_turn quarter_turn calloc16 calloc16
           calloc16 calloc16 calloc16 quarter_turn_rigid
           quarter_turn_rigid).
Defined.


(** fknm.c, [_inv] checks nothing: for a homogeneous matrix, its result
    is a left inverse exactly when the rotation block has orthonormal
    columns, that is, when the matrix is a rigid transform. *)
Theorem inv_is_inverse_iff_rigid (m c : Mat4) :
  homogeneous m ->
  (mprod (_inv m c) m = I4 <-> rigid m).
Proof.
  intros Hh. split.
  - intros E. split; [exact Hh|].
    assert (P : forall k, (mprod (_inv m c) m).[k] = I4.[k])
      by (intros k; now rewrite E).
    pose proof (P 0%Z) as P0. pose proof (P 1%Z) as P1.
    pose proof (P 2%Z) as P2. pose proof (P 5%Z) as P5.
    pose proof (P 6%Z) as P6. pose proof (P 10%Z) as P10.
    clear P E. destruct Hh as [H12 [H13 [H14 H15]]].
    destruct m, c; revert H12 H13 H14 H15 P0 P1 P2 P5 P6 P10.
    unfold rot_cols_orthonormal. unfold_mat. intros; subst.
    repeat split; lra.
  - intros Hm. now apply inv_left.
Qed.

Lemma inv_is_inverse_iff_rigid_witness :
  homogeneous quarter_turn /\
  (mprod (_inv quarter_turn calloc16) quarter_turn = I4
   <-> rigid quarter_turn).
Proof.
  split; [exact (proj1 quarter_turn_rigid)|].
  exact (inv_is_inverse_iff_rigid quarter_turn calloc16
           (proj1 quarter_turn_rigid)).
Defined.

(** ** Quaternions *)

Lemma sqrt_quarter_sqr (x : R) :
  0 <= x -> (sqrt x / 4) * (sqrt x / 4) = x / 16.
Proof.
  intros Hx. replace (sqrt x / 4 * (sqrt x / 4))
    with (sqrt x * sqrt x / 16) by field.
  now rewrite sqrt_sqrt.
Qed.

(** fknm.c, [_r2q]: for a rotation block with orthonormal columns the
    quaternion written to cells 0-3 has unit norm and a non-negative
    scalar part (cell 3); no other cell of the buffer is written. *)
Theorem r2q_unit_quaternion (r : Mat4) (q0 : buf) :
  rot_cols_orthonormal r ->
  let q := Fknm._r2q r q0 in
  q 0%Z * q 0%Z + q 1%Z * q 1%Z + q 2%Z * q 2%Z + q 3%Z * q 3%Z = 1 /\
  0 <= q 3%Z /\
  (forall k, (k < 0 \/ 3 < k)%Z -> q k = q0 k).
Proof.
  intros [C00 [C11 [C22 [C01 [C02 C12]]]]] q. subst q.
  unfold Fknm._r2q. cbv zeta.
  set (t12p := (r.[0 * 4 + 1] + r.[1 * 4 + 0]) ^ 2).
  set (t13p := (r.[0 * 4 + 2] + r.[2 * 4 + 0]) ^ 2).
  set (t23p := (r.[1 * 4 + 2] + r.[2 * 4 + 1]) ^ 2).
  set (t12m := (r.[0 * 4 + 1] - r.[1 * 4 + 0]) ^ 2).
  set (t13m := (r.[0 * 4 + 2] - r.[2 * 4 + 0]) ^ 2).
  set (t23m := (r.[1 * 4 + 2] - r.[2 * 4 + 1]) ^ 2).
  set (d1 := (r.[0 * 4 + 0] + r.[1 * 4 + 1] + r.[2 * 4 + 2] + 1) ^ 2).
  set (d2 := (r.[0 * 4 + 0] - r.[1 * 4 + 1] - r.[2 * 4 + 2] + 1) ^ 2).
  set (d3 := (- r.[0 * 4 + 0] + r.[1 * 4 + 1] - r.[2 * 4 + 2] + 1) ^ 2).
  set (d4 := (- r.[0 * 4 + 0] - r.[1 * 4 + 1] + r.[2 * 4 + 2] + 1) ^ 2).
  assert (P : 0 <= t12p /\ 0 <= t13p /\ 0 <= t23p /\ 0 <= t12m /\
              0 <= t13m /\ 0 <= t23m /\ 0 <= d1 /\ 0 <= d2 /\
              0 <= d3 /\ 0 <= d4).
  { unfold t12p, t13p, t23p, t12m, t13m, t23m, d1, d2, d3, d4.
    repeat split; apply pow2_ge_0. }
  destruct P as [P1 [P2 [P3 [P4 [P5 [P6 [P7 [P8 [P9 P10]]]]]]]]].
  assert (S : d1 + d2 + d3 + d4
              + 2 * (t12p + t13p + t23p + t12m + t13m + t23m) = 16).
  { unfold t12p, t13p, t23p, t12m, t13m, t23m, d1, d2, d3, d4.
    destruct r; revert C00 C11 C22. unfold_mat. intros. nra. }
  pose proof (sqrt_quarter_sqr (d1 + t23m + t13m + t12m) ltac:(lra)) as Q3.
  pose proof (sqrt_quarter_sqr (t23m + d2 + t12p + t13p) ltac:(lra)) as Q0.
  pose proof (sqrt_quarter_sqr (t13m + t12p + d3 + t23p) ltac:(lra)) as Q1.
  pose proof (sqrt_quarter_sqr (t12m + t13p + t23p + d4) ltac:(lra)) as Q2.
  pose proof (sqrt_pos (d1 + t23m + t13m + t12m)) as S3.
  set (s3 := sqrt (d1 + t23m + t13m + t12m) / 4) in *.
  set (s0 := sqrt (t23m + d2 + t12p + t13p) / 4) in *.
  set (s1 := sqrt (t13m + t12p + d3 + t23p) / 4) in *.
  set (s2 := sqrt (t12m + t13p + t23p + d4) / 4) in *.
  split; [|split].
  - destruct (Rlt_dec _ _), (Rlt_dec _ _), (Rlt_dec _ _);
      repeat (first [rewrite upd_same | rewrite upd_other by lia]);
      nra.
  - destruct (Rlt_dec _ _), (Rlt_dec _ _), (Rlt_dec _ _);
      repeat (first [rewrite upd_same | rewrite upd_other by lia]);
      unfold s3; lra.
  - intros k Hk.
    destruct (Rlt_dec _ _), (Rlt_dec _ _), (Rlt_dec _ _);
      rewrite !upd_other by lia; reflexivity.
Qed.

Lemma r2q_unit_quaternion_witness :
  rot_cols_orthonormal quarter_turn /\
  (let q := Fknm._r2q quarter_turn calloc in
   q 0%Z * q 0%Z + q 1%Z * q 1%Z + q 2%Z * q 2%Z + q 3%Z * q 3%Z = 1 /\
   0 <= q 3%Z /\
   (forall k, (k < 0 \/ 3 < k)%Z -> q k = calloc k)).
Proof.
  split; [exact (proj2 quarter_turn_rigid)|].
  exact (r2q_unit_quaternion quarter_turn calloc
           (proj2 quarter_turn_rigid)).
Defined.

(** fknm.c, [_r2q]: the signs of the vector part follow the differences
    of the off-diagonal entries: cell 0 is negative or zero when
    r21 < r12 and positive or zero otherwise, and likewise cell 1 with
    r02 < r20 and cell 2 with r10 < r01. *)
Theorem r2q_signs (r : Mat4) (q0 : buf) :
  let q := Fknm._r2q r q0 in
  (if Rlt_dec r.[9] r.[6] then q 0%Z <= 0 else 0 <= q 0%Z) /\
  (if Rlt_dec r.[2] r.[8] then q 1%Z <= 0 else 0 <= q 1%Z) /\
  (if Rlt_dec r.[4] r.[1] then q 2%Z <= 0 else 0 <= q 2%Z).
Proof.
  cbv zeta. unfold Fknm._r2q. cbv zeta.
  change (2 * 4 + 1)%Z with 9%Z. change (1 * 4 + 2)%Z with 6%Z.
  change (0 * 4 + 2)%Z with 2%Z. change (2 * 4 + 0)%Z with 8%Z.
  change (1 * 4 + 0)%Z with 4%Z. change (0 * 4 + 1)%Z with 1%Z.
  match goal with
  | |- context [upd (upd (upd (upd q0 3 ?a) 0 ?b) 1 ?c) 2 ?d] =>
      assert (Hb : 0 <= b) by (apply Rle_mult_inv_pos; [apply sqrt_pos|lra]);
      assert (Hc : 0 <= c) by (apply Rle_mult_inv_pos; [apply sqrt_pos|lra]);
      assert (Hd : 0 <= d) by (apply Rle_mult_inv_pos; [apply sqrt_pos|lra]);
      set (s3 := a) in *; set (s0 := b) in *; set (s1 := c) in *;
      set (s2 := d) in *
  end.
  destruct (Rlt_dec r.[9] r.[6]), (Rlt_dec r.[2] r.[8]),
    (Rlt_dec r.[4] r.[1]);
    repeat (first [rewrite upd_same | rewrite upd_other by lia]);
    repeat split; lra.
Qed.

(** ** Pose error, further properties *)

Lemma angle_axis_parts (Te Tep : Mat4) (e : buf) :
  let e' := _angle_axis Te Tep e in
  let Rm := relative_rotation Te Tep in
  let li := rotation_li Te Tep in
  let tr := rotation_trace Te Tep in
  linear_error e' = vsub (translation Tep) (translation Te) /\
  angular_error e'
  = if Rlt_dec (norm3 li) 1e-6 then
      if Rgt_dec tr 0 then (0, 0, 0)
      else (PI / 2 * (Rm 0%Z 0%Z + 1), PI / 2 * (Rm 1%Z 1%Z + 1),
            PI / 2 * (Rm 2%Z 2%Z + 1))
    else vscale li (atan2 (norm3 li) (tr - 1) / norm3 li).
Proof.
  cbv zeta.
  unfold _angle_axis, linear_error, angular_error, rotation_li,
    rotation_trace, translation, relative_rotation, rotation,
    norm3, vsub, vscale, _norm, _trace, M_PI_2, for_range, calloc.
  destruct Te, Tep. unfold_mat. simpl for_up. unfold upd. simpl.
  match goal with
  | |- context [Rlt_dec (sqrt ?a) _] =>
      match goal with
      | |- context [Rlt_dec (sqrt ?b) _] =>
          lazymatch a with
          | b => fail
          | _ => replace a with b by ring
          end
      end
  end.
  match goal with
  | |- context [Rgt_dec ?a 0] =>
      match goal with
      | |- context [Rgt_dec ?b 0] =>
          lazymatch a with
          | b => fail
          | _ => replace a with b by ring
          end
      end
  end.
  destruct (Rlt_dec _ _); [destruct (Rgt_dec _ _)|]; simpl;
    (split; [reflexivity|]);
    repeat match goal with
    | |- (_, _) = (_, _) => apply f_equal2
    end; try ring.
  all: match goal with
       | |- atan2 ?n ?x * ?l / ?n = ?l' * (atan2 ?n ?x' / ?n) =>
           replace x with x' by ring; replace l with l' by ring;
           unfold Rdiv; ring
       end.
Qed.

Lemma tolerance_pos : 0 < 1e-6.
Proof. lra. Qed.

Lemma rotation_li_self (T : Mat4) : rotation_li T T = (0, 0, 0).
Proof.
  unfold rotation_li, relative_rotation, rotation. cbv zeta.
  repeat match goal with
  | |- (_, _) = (_, _) => apply f_equal2
  end; ring.
Qed.

Lemma rotation_li_swap (Te Tep : Mat4) :
  rotation_li Tep Te = vopp (rotation_li Te Tep).
Proof.
  unfold rotation_li, relative_rotation, rotation, vopp. cbv zeta.
  repeat match goal with
  | |- (_, _) = (_, _) => apply f_equal2
  end; ring.
Qed.

Lemma rotation_trace_swap (Te Tep : Mat4) :
  rotation_trace Tep Te = rotation_trace Te Tep.
Proof.
  unfold rotation_trace, relative_rotation, rotation. cbv zeta. ring.
Qed.

Lemma norm3_vopp (v : Vec3) : norm3 (vopp v) = norm3 v.
Proof.
  destruct v as [[x y] z]. unfold norm3, vopp. f_equal. ring.
Qed.

Lemma norm3_zero : norm3 (0, 0, 0) = 0.
Proof.
  unfold norm3. replace (0 * 0 + 0 * 0 + 0 * 0) with 0 by ring.
  apply sqrt_0.
Qed.

Lemma norm3_vscale (v : Vec3) (s : R) :
  0 <= s -> norm3 (vscale v s) = norm3 v * s.
Proof.
  intros Hs. destruct v as [[x y] z]. unfold norm3, vscale.
  replace (x * s * (x * s) + y * s * (y * s) + z * s * (z * s))
    with ((x * x + y * y + z * z) * (s * s)) by ring.
  rewrite sqrt_mult by nra.
  now rewrite sqrt_square.
Qed.

Lemma atan2_upper (y x : R) : 0 < y -> 0 < atan2 y x < PI.
Proof.
  intros Hy. unfold atan2.
  pose proof PI_RGT_0 as Hpi.
  destruct (Rlt_dec 0 x) as [Hx|Hx].
  - pose proof (atan_bound (y / x)) as [_ Hb].
    assert (0 < y / x) by (apply Rdiv_lt_0_compat; assumption).
    pose proof (atan_increasing 0 (y / x) H) as Hi.
    rewrite atan_0 in Hi. lra.
  - destruct (Rlt_dec x 0) as [Hx'|Hx'].
    + destruct (Rle_dec 0 y) as [_|Hn]; [|lra].
      pose proof (atan_bound (y / x)) as [Hb _].
      assert (Hneg : y / x < 0).
      { unfold Rdiv. apply Rmult_pos_neg; [exact Hy|].
        now apply Rinv_lt_0_compat. }
      pose proof (atan_increasing (y / x) 0 Hneg) as Hi.
      rewrite atan_0 in Hi. lra.
    + destruct (Rlt_dec 0 y); lra.
Qed.

(** fknm.c, [_angle_axis]: the error of a pose against itself has a zero
    linear part, and a zero angular part unless the rotation block of the
    pose is entirely zero, in which case the angular part is
    (pi/2, pi/2, pi/2); for a rigid pose the error is zero. *)
Theorem angle_axis_self (T : Mat4) (e : buf) :
  let e' := _angle_axis T T e in
  linear_error e' = (0, 0, 0) /\
  angular_error e'
  = (if Rgt_dec (T.[0] * T.[0] + T.[1] * T.[1] + T.[2] * T.[2]
                 + T.[4] * T.[4] + T.[5] * T.[5] + T.[6] * T.[6]
                 + T.[8] * T.[8] + T.[9] * T.[9] + T.[10] * T.[10]) 0
     then (0, 0, 0) else (PI / 2, PI / 2, PI / 2)) /\
  (rigid T -> angular_error e' = (0, 0, 0)).
Proof.
  cbv zeta. destruct (angle_axis_parts T T e) as [L A].
  rewrite L, A, rotation_li_self, norm3_zero. clear L A.
  destruct (Rlt_dec 0 1e-6) as [_|Hn]; [|exfalso; apply Hn, tolerance_pos].
  assert (Htr : rotation_trace T T
                = T.[0] * T.[0] + T.[1] * T.[1] + T.[2] * T.[2]
                  + T.[4] * T.[4] + T.[5] * T.[5] + T.[6] * T.[6]
                  + T.[8] * T.[8] + T.[9] * T.[9] + T.[10] * T.[10]).
  { unfold rotation_trace, relative_rotation, rotation. cbv zeta.
    destruct T. unfold_mat. ring. }
  rewrite Htr. split; [|split].
  - unfold vsub, translation.
    repeat match goal with
    | |- (_, _) = (_, _) => apply f_equal2
    end; ring.
  - destruct (Rgt_dec _ 0) as [_|Hz]; [reflexivity|].
    unfold relative_rotation, rotation.
    destruct T as [t0 t1 t2 t3 t4 t5 t6 t7 t8 t9 t10 t11 t12 t13 t14 t15].
    revert Hz. unfold_mat. intros Hz.
    assert (t0 = 0 /\ t1 = 0 /\ t2 = 0 /\ t4 = 0 /\ t5 = 0 /\ t6 = 0 /\
            t8 = 0 /\ t9 = 0 /\ t10 = 0)
      as [-> [-> [-> [-> [-> [-> [-> [-> ->]]]]]]]]
      by (repeat split; nra).
    repeat match goal with
    | |- (_, _) = (_, _) => apply f_equal2
    end; field.
  - intros Hr. pose proof (rigid_rows T Hr) as [R00 [R11 [R22 _]]].
    destruct (Rgt_dec _ 0) as [_|Hz]; [reflexivity|].
    exfalso. apply Hz. lra.
Qed.

(** fknm.c, [_angle_axis]: exchanging the achieved and the target pose
    negates the error, except in the branch of a half turn (|li| below
    the tolerance and a trace that is not positive). *)
Theorem angle_axis_antisymmetric (Te Tep : Mat4) (e1 e2 : buf) :
  0 < rotation_trace Te Tep \/ 1e-6 <= norm3 (rotation_li Te Tep) ->
  linear_error (_angle_axis Tep Te e2)
  = vopp (linear_error (_angle_axis Te Tep e1)) /\
  angular_error (_angle_axis Tep Te e2)
  = vopp (angular_error (_angle_axis Te Tep e1)).
Proof.
  intros Hnd.
  destruct (angle_axis_parts Te Tep e1) as [L1 A1].
  destruct (angle_axis_parts Tep Te e2) as [L2 A2].
  rewrite L1, L2, A1, A2. clear L1 L2 A1 A2.
  rewrite rotation_li_swap, norm3_vopp, rotation_trace_swap.
  split.
  - unfold vsub, vopp, translation.
    repeat match goal with
    | |- (_, _) = (_, _) => apply f_equal2
    end; ring.
  - destruct (Rlt_dec _ _) as [Hl|Hl]; [destruct (Rgt_dec _ _) as [Ht|Ht]|].
    + unfold vopp. repeat match goal with
      | |- (_, _) = (_, _) => apply f_equal2
      end; ring.
    + exfalso. destruct Hnd; lra.
    + destruct (rotation_li Te Tep) as [[x y] z]. unfold vopp, vscale.
      repeat match goal with
      | |- (_, _) = (_, _) => apply f_equal2
      end; ring.
Qed.

Lemma quarter_turn_li : 1e-6 <= norm3 (rotation_li I4 quarter_turn).
Proof.
  unfold rotation_li, relative_rotation, rotation, norm3, quarter_turn.
  unfold_mat.
  match goal with
  | |- _ <= sqrt ?a => replace a with (2 * 2) by ring
  end.
  rewrite sqrt_square; lra.
Qed.

Lemma angle_axis_antisymmetric_witness :
  (0 < rotation_trace I4 quarter_turn
   \/ 1e-6 <= norm3 (rotation_li I4 quarter_turn)) /\
  linear_error (_angle_axis quarter_turn I4 calloc)
  = vopp (linear_error (_angle_axis I4 quarter_turn calloc)) /\
  angular_error (_angle_axis quarter_turn I4 calloc)
  = vopp (angular_error (_angle_axis I4 quarter_turn calloc)).
Proof.
  split; [right; exact quarter_turn_li|].
  exact (angle_axis_antisymmetric I4 quarter_turn calloc calloc
           (or_intror quarter_turn_li)).
Defined.


(** fknm.c, [_angle_axis]: outside the degenerate branch the angular
    error is the vector li scaled by atan2(|li|, tr - 1) / |li|, a
    positive factor, so that it points along li and has the length
    atan2(|li|, tr - 1), and that length lies strictly between 0 and
    pi. *)
Theorem angle_axis_magnitude (Te Tep : Mat4) (e : buf) :
  1e-6 <= norm3 (rotation_li Te Tep) ->
  let li := rotation_li Te Tep in
  let ang := atan2 (norm3 li) (rotation_trace Te Tep - 1) in
  let w := angular_error (_angle_axis Te Tep e) in
  w = vscale li (ang / norm3 li) /\
  0 < ang / norm3 li /\
  norm3 w = ang /\
  0 < norm3 w < PI.
Proof.
  intros Hl li ang w. subst li ang w.
  destruct (angle_axis_parts Te Tep e) as [_ A]. rewrite A. clear A.
  destruct (Rlt_dec _ _) as [Hc|_]; [lra|].
  split; [reflexivity|].
  pose proof tolerance_pos as Ht.
  set (n := norm3 (rotation_li Te Tep)) in *.
  pose proof (atan2_upper n (rotation_trace Te Tep - 1) ltac:(lra)) as Hb.
  set (ang := atan2 n (rotation_trace Te Tep - 1)) in *.
  assert (E : norm3 (vscale (rotation_li Te Tep) (ang / n)) = ang).
  { rewrite norm3_vscale.
    - fold n. field. lra.
    - apply Rlt_le, Rdiv_lt_0_compat; lra. }
  rewrite E. split; [|split; [reflexivity|exact Hb]].
  apply Rdiv_lt_0_compat; lra.
Qed.

Lemma angle_axis_magnitude_witness :
  1e-6 <= norm3 (rotation_li I4 quarter_turn) /\
  (let li := rotation_li I4 quarter_turn in
   let ang := atan2 (norm3 li) (rotation_trace I4 quarter_turn - 1) in
   let w := angular_error (_angle_axis I4 quarter_turn calloc) in
   w = vscale li (ang / norm3 li) /\
   0 < ang / norm3 li /\
   norm3 w = ang /\
   0 < norm3 w < PI).
Proof.
  split; [exact quarter_turn_li|].
  exact (angle_axis_magnitude I4 quarter_turn calloc quarter_turn_li).
Defined.

(** ** Vector helpers *)

(** fknm.c, [_cross]: for a stride [n] other than 0, the three cells
    0, n and 2n of [ret] receive the cross product of the columns read
    from [a] and [b] with the same stride, a vector orthogonal to both,
    and no other cell of [ret] is written. *)
Theorem cross_strided (a b ret : buf) (n : Z) :
  n <> 0%Z ->
  let c := _cross a b ret n in
  let va := (a 0%Z, a n, a (2 * n)%Z) in
  let vb := (b 0%Z, b n, b (2 * n)%Z) in
  let vc := (c 0%Z, c n, c (2 * n)%Z) in
  vc = cross3 va vb /\
  dot3 vc va = 0 /\ dot3 vc vb = 0 /\
  (forall x, x <> 0%Z -> x <> n -> x <> (2 * n)%Z -> c x = ret x).
Proof.
  intros Hn c va vb vc.
  assert (E0 : c 0%Z = a n * b (2 * n)%Z - a (2 * n)%Z * b n).
  { unfold c, _cross. cbv zeta. rewrite !upd_other by lia.
    rewrite upd_same. now replace (1 * n)%Z with n by lia. }
  assert (E1 : c n = a (2 * n)%Z * b 0%Z - a 0%Z * b (2 * n)%Z).
  { unfold c, _cross. cbv zeta. rewrite upd_other by lia.
    replace (1 * n)%Z with n by lia. now rewrite upd_same. }
  assert (E2 : c (2 * n)%Z = a 0%Z * b n - a n * b 0%Z).
  { unfold c, _cross. cbv zeta. rewrite upd_same.
    now replace (1 * n)%Z with n by lia. }
  subst va vb vc. unfold cross3, dot3. rewrite E0, E1, E2.
  repeat split; try ring.
  intros x H0 H1 H2. unfold c, _cross. cbv zeta.
  now rewrite !upd_other by lia.
Qed.

Lemma cross_strided_witness :
  1%Z <> 0%Z /\
  (let c := _cross (fun k => IZR k) (fun k => IZR (k * k)) calloc 1 in
   let va := (IZR 0, IZR 1, IZR (2 * 1)) in
   let vb := (IZR (0 * 0), IZR (1 * 1), IZR (2 * 1 * (2 * 1))) in
   let vc := (c 0%Z, c 1%Z, c (2 * 1)%Z) in
   vc = cross3 va vb /\
   dot3 vc va = 0 /\ dot3 vc vb = 0 /\
   (forall x, x <> 0%Z -> x <> 1%Z -> x <> (2 * 1)%Z -> c x = calloc x)).
Proof.
  split; [discriminate|].
  exact (cross_strided (fun k => IZR k) (fun k => IZR (k * k)) calloc 1
           ltac:(discriminate)).
Defined.

(** ** Hessian, the cells written *)

Lemma cell_decompose (n x : Z) :
  (0 < n)%Z -> (0 <= x < 6 * n * n)%Z ->
  exists j r i, (0 <= j < n)%Z /\ (0 <= r < 6)%Z /\ (0 <= i < n)%Z /\
                x = cell n j r i.
Proof.
  intros Hn Hx.
  exists (x / (6 * n))%Z, (x mod (6 * n) / n)%Z, ((x mod (6 * n)) mod n)%Z.
  pose proof (Z.div_mod x (6 * n) ltac:(lia)) as D1.
  pose proof (Z.mod_pos_bound x (6 * n) ltac:(lia)) as B1.
  pose proof (Z.div_mod (x mod (6 * n)) n ltac:(lia)) as D2.
  pose proof (Z.mod_pos_bound (x mod (6 * n)) n ltac:(lia)) as B2.
  repeat split; try lia.
  - apply Z.div_pos; lia.
  - apply Z.div_lt_upper_bound; lia.
  - apply Z.div_pos; lia.
  - apply Z.div_lt_upper_bound; lia.
  - unfold cell. lia.
Qed.

(** [_ETS_hessian] overwrites every cell of the n x 6 x n block of [H]
    and writes nowhere else: inside the block the result does not depend
    on what [H] held (the wrappers pass uninitialised memory), outside
    it, and everywhere when n is not positive, [H] is unchanged. *)
Theorem hessian_overwrites_block (n : Z) (J H0 : buf) (x : Z) :
  _ETS_hessian n J H0 x
  = if ((0 <? n) && (0 <=? x) && (x <? 6 * n * n))%Z
    then _ETS_hessian n J calloc x
    else H0 x.
Proof.
  destruct (Z.ltb_spec 0 n) as [Hn|Hn];
    [destruct (Z.leb_spec 0 x) as [Hx0|Hx0];
     [destruct (Z.ltb_spec x (6 * n * n)) as [Hxn|Hxn]|]|]; cbn [andb].
  - destruct (cell_decompose n x Hn ltac:(lia))
      as [j [r [i [Hj [Hr [Hi ->]]]]]].
    destruct (Z_le_gt_dec j i) as [Hji|Hji].
    + now rewrite !hessian_primary_cell by lia.
    + now rewrite !hessian_mirror_cell by lia.
  - rewrite hessian_unfold. apply for_range_untouched.
    intros j H' Hj. apply hessian_row_frame.
    intros i r Hi Hr. unfold cell. split; nia.
  - rewrite hessian_unfold. apply for_range_untouched.
    intros j H' Hj. apply hessian_row_frame.
    intros i r Hi Hr. unfold cell. split; nia.
  - rewrite hessian_unfold. apply for_range_untouched.
    intros j H' Hj. lia.
Qed.

(** ** Jacobians, the cells written *)

Lemma fknm_jacob0_axis_cell (axis : JointType) (n j : Z) (U temp : Mat4)
    (J : buf) (x : Z) :
  (forall r, (0 <= r < 6)%Z -> x <> (r * n + j)%Z) ->
  Fknm.jacob0_axis axis n j U temp J x = J x.
Proof.
  intros Hx.
  pose proof (Hx 0%Z ltac:(lia)). pose proof (Hx 1%Z ltac:(lia)).
  pose proof (Hx 2%Z ltac:(lia)). pose proof (Hx 3%Z ltac:(lia)).
  pose proof (Hx 4%Z ltac:(lia)). pose proof (Hx 5%Z ltac:(lia)).
  destruct axis; unfold Fknm.jacob0_axis; cbv zeta;
    rewrite !upd_other by lia; reflexivity.
Qed.

Lemma fknm_jacobe_axis_cell (axis : JointType) (n j : Z) (U : Mat4)
    (J : buf) (x : Z) :
  (forall r, (0 <= r < 6)%Z -> x <> (r * n + j)%Z) ->
  Fknm.jacobe_axis axis n j U J x = J x.
Proof.
  intros Hx.
  pose proof (Hx 0%Z ltac:(lia)). pose proof (Hx 1%Z ltac:(lia)).
  pose proof (Hx 2%Z ltac:(lia)). pose proof (Hx 3%Z ltac:(lia)).
  pose proof (Hx 4%Z ltac:(lia)). pose proof (Hx 5%Z ltac:(lia)).
  destruct axis; unfold Fknm.jacobe_axis; cbv zeta;
    rewrite !upd_other by lia; reflexivity.
Qed.

Lemma methods_jacob0_axis_cell (axis : JointType) (j : Z) (U temp : Mat4)
    (eJ : jmat) (r c : Z) :
  c <> j -> Methods.jacob0_axis axis j U temp eJ r c = eJ r c.
Proof.
  intros Hne. destruct axis; unfold Methods.jacob0_axis; cbv zeta;
    now rewrite !set_rows_other_col by exact Hne.
Qed.

Lemma methods_jacobe_axis_cell (axis : JointType) (j : Z) (U : Mat4)
    (eJ : jmat) (r c : Z) :
  c <> j -> Methods.jacobe_axis axis j U eJ r c = eJ r c.
Proof.
  intros Hne. destruct axis; unfold Methods.jacobe_axis; cbv zeta;
    now rewrite !set_rows_other_col by exact Hne.
Qed.

Section SweepCells.

(** A Jacobian store whose cells are read by [cell_at]; the assignment
    for column [j] leaves the cells that are [apart] from [j] alone. *)
Context {JT Ix : Type}.
Variable axis0 : JointType -> Z -> Mat4 -> Mat4 -> JT -> JT.
Variable axise : JointType -> Z -> Mat4 -> JT -> JT.
Variable cell_at : JT -> Ix -> R.
Variable apart : Ix -> Z -> Prop.

Hypothesis axis0_apart : forall ax j U D J x,
  apart x j -> cell_at (axis0 ax j U D J) x = cell_at J x.
Hypothesis axise_apart : forall ax j U J x,
  apart x j -> cell_at (axise ax j U J) x = cell_at J x.

Variable q : buf.

Lemma sweep0_cells tool T m ets : forall i U j J x,
  (forall k, (k < joint_count ets)%nat -> apart x (j + Z.of_nat k)) ->
  cell_at (snd (sweep0 axis0 q tool T m ets i U j J)) x = cell_at J x.
Proof.
  unfold joint_count.
  induction ets as [|et rest IH]; intros i U j J x Hx; simpl.
  - reflexivity.
  - simpl in Hx. destruct (et_isjoint et); simpl in Hx.
    + rewrite IH.
      * apply axis0_apart. specialize (Hx 0%nat ltac:(lia)).
        now replace (j + Z.of_nat 0)%Z with j in Hx by lia.
      * intros k Hk. specialize (Hx (S k) ltac:(lia)).
        now replace (j + Z.of_nat (S k))%Z with (j + 1 + Z.of_nat k)%Z
          in Hx by lia.
    + now apply IH.
Qed.

Lemma sweepe_cells rev_ets : forall U j J x,
  (forall k, (k < joint_count rev_ets)%nat -> apart x (j - Z.of_nat k)) ->
  cell_at (snd (sweepe axise q rev_ets U j J)) x = cell_at J x.
Proof.
  unfold joint_count.
  induction rev_ets as [|et rest IH]; intros U j J x Hx; simpl.
  - reflexivity.
  - simpl in Hx. destruct (et_isjoint et); simpl in Hx.
    + rewrite IH.
      * apply axise_apart. specialize (Hx 0%nat ltac:(lia)).
        now replace (j - Z.of_nat 0)%Z with j in Hx by lia.
      * intros k Hk. specialize (Hx (S k) ltac:(lia)).
        now replace (j - Z.of_nat (S k))%Z with (j - 1 - Z.of_nat k)%Z
          in Hx by lia.
    + now apply IH.
Qed.

End SweepCells.

(** [_ETS_jacob0] writes the six cells of columns 0 .. k - 1 of [J], k
    the number of joints of the chain, and no other cell, in fknm.c (a
    flat buffer with row stride [n]) and in methods.cpp: the columns from
    k on keep what [J] held, and no cell outside the 6 x n buffer is
    written as long as k does not exceed n. *)
Theorem jacob0_writes_joint_columns (ets : list ET) (n : Z) (q : buf)
    (tool : option Mat4) (J : buf) (eJ : jmat) :
  (forall x,
     (forall r k, (0 <= r < 6)%Z -> (k < joint_count ets)%nat ->
                  x <> (r * n + Z.of_nat k)%Z) ->
     Fknm._ETS_jacob0 ets n q tool J x = J x) /\
  (forall r c,
     (c < 0 \/ Z.of_nat (joint_count ets) <= c)%Z ->
     Methods._ETS_jacob0 ets n q tool eJ r c = eJ r c) /\
  (forall x,
     (Z.of_nat (joint_count ets) <= n)%Z -> (x < 0 \/ 6 * n <= x)%Z ->
     Fknm._ETS_jacob0 ets n q tool J x = J x).
Proof.
  assert (F : forall x,
     (forall r k, (0 <= r < 6)%Z -> (k < joint_count ets)%nat ->
                  x <> (r * n + Z.of_nat k)%Z) ->
     Fknm._ETS_jacob0 ets n q tool J x = J x).
  { intros x Hx. rewrite fknm_jacob0_sweep.
    apply (sweep0_cells (fun ax j => Fknm.jacob0_axis ax n j)
             (fun (J : buf) (x : Z) => J x)
             (fun x j => forall r, (0 <= r < 6)%Z -> x <> (r * n + j)%Z)).
    - intros. now apply fknm_jacob0_axis_cell.
    - intros k Hk r Hr. replace (0 + Z.of_nat k)%Z with (Z.of_nat k) by lia.
      now apply Hx. }
  split; [exact F|split].
  - intros r c Hc. rewrite methods_jacob0_sweep.
    apply (sweep0_cells Methods.jacob0_axis
             (fun (eJ : jmat) (rc : Z * Z) => eJ (fst rc) (snd rc))
             (fun rc j => snd rc <> j) ) with (x := (r, c)).
    + intros ax j U D J' [r' c'] Hne. simpl in *.
      now apply methods_jacob0_axis_cell.
    + intros k Hk. simpl. lia.
  - intros x Hn Hx. apply F. intros r k Hr Hk. nia.
Qed.

(** [_ETS_jacobe] writes the six cells of columns n - k .. n - 1 of [J],
    k the number of joints of the chain, and no other cell: the columns
    below n - k keep what [J] held, and no cell outside the 6 x n buffer
    is written as long as k does not exceed n. *)
Theorem jacobe_writes_joint_columns (ets : list ET) (n : Z) (q : buf)
    (tool : option Mat4) (J : buf) (eJ : jmat) :
  (forall x,
     (forall r k, (0 <= r < 6)%Z -> (k < joint_count ets)%nat ->
                  x <> (r * n + (n - 1 - Z.of_nat k))%Z) ->
     Fknm._ETS_jacobe ets n q tool J x = J x) /\
  (forall r c,
     (c < n - Z.of_nat (joint_count ets) \/ n <= c)%Z ->
     Methods._ETS_jacobe ets n q tool eJ r c = eJ r c) /\
  (forall x,
     (Z.of_nat (joint_count ets) <= n)%Z -> (x < 0 \/ 6 * n <= x)%Z ->
     Fknm._ETS_jacobe ets n q tool J x = J x).
Proof.
  assert (F : forall x,
     (forall r k, (0 <= r < 6)%Z -> (k < joint_count ets)%nat ->
                  x <> (r * n + (n - 1 - Z.of_nat k))%Z) ->
     Fknm._ETS_jacobe ets n q tool J x = J x).
  { intros x Hx. rewrite fknm_jacobe_sweep.
    apply (sweepe_cells (fun ax j => Fknm.jacobe_axis ax n j)
             (fun (J : buf) (x : Z) => J x)
             (fun x j => forall r, (0 <= r < 6)%Z -> x <> (r * n + j)%Z)).
    - intros. now apply fknm_jacobe_axis_cell.
    - intros k Hk r Hr. rewrite joint_count_rev in Hk. now apply Hx. }
  split; [exact F|split].
  - intros r c Hc. rewrite methods_jacobe_sweep.
    apply (sweepe_cells Methods.jacobe_axis
             (fun (eJ : jmat) (rc : Z * Z) => eJ (fst rc) (snd rc))
             (fun rc j => snd rc <> j) ) with (x := (r, c)).
    + intros ax j U J' [r' c'] Hne. simpl in *.
      now apply methods_jacobe_axis_cell.
    + intros k Hk. rewrite joint_count_rev in Hk. simpl. lia.
  - intros x Hn Hx. apply F. intros r k Hr Hk. nia.
Qed.

Lemma jacob0_accs_axes (q : buf) (tool : option Mat4) (m : Z)
    (ets : list ET) : forall i U,
  map fst (jacob0_accs q tool m ets i U) = joint_axes ets.
Proof.
  unfold joint_axes.
  induction ets as [|et rest IH]; intros i U; simpl.
  - reflexivity.
  - destruct (et_isjoint et); simpl; now rewrite IH.
Qed.

Lemma jacobe_accs_axes (q : buf) (l : list ET) : forall U,
  map fst (jacobe_accs q l U) = joint_axes l.
Proof.
  unfold joint_axes.
  induction l as [|et rest IH]; intros U; simpl.
  - reflexivity.
  - destruct (et_isjoint et); simpl; now rewrite IH.
Qed.

Lemma mprod_Zero4_r (A : Mat4) : mprod A Zero4 = Zero4.
Proof. destruct A; mat_eq. Qed.

Lemma joint_axes_length (ets : list ET) :
  length (joint_axes ets) = joint_count ets.
Proof. unfold joint_axes, joint_count. apply length_map. Qed.

(** fknm.c, [_ETS_jacob0]: because its end pose comes from fknm.c's own
    [_ETS_fkine], which is the zero matrix for a non-empty chain, the
    linear part (rows 0-2) of the column of every revolute joint is zero,
    for every chain, configuration and tool. *)
Theorem fknm_jacob0_revolute_linear_zero (ets : list ET) (n : Z) (q : buf)
    (tool : option Mat4) (J : buf) (k : nat) :
  (Z.of_nat (joint_count ets) <= n)%Z ->
  (k < joint_count ets)%nat ->
  is_revolute (nth k (joint_axes ets) JTx) = true ->
  fst (column_buf n (Fknm._ETS_jacob0 ets n q tool J) (Z.of_nat k))
  = (0, 0, 0).
Proof.
  intros Hn Hk Hrev.
  rewrite fknm_jacob0_column by assumption.
  assert (Hne : ets <> []).
  { intros ->. unfold joint_count in Hk. simpl in Hk. lia. }
  rewrite fknm_fkine_zero by exact Hne.
  rewrite <- (jacob0_accs_axes q tool (Z.of_nat (length ets)) ets 0 I4)
    in Hrev.
  rewrite <- (jacob0_accs_length q tool (Z.of_nat (length ets)) ets 0 I4)
    in Hk.
  rewrite (nth_indep _ JTx (fst (JRx, I4))) in Hrev
    by now rewrite length_map.
  rewrite map_nth in Hrev.
  destruct (nth k _ (JRx, I4)) as [ax U]. cbn [fst] in Hrev.
  unfold twist0_of. cbn [fst snd]. rewrite mprod_Zero4_r.
  destruct ax; try discriminate; unfold jacob0_twist, vsub, vscale, col012,
    at4; cbn [fst]; unfold_mat;
    repeat match goal with
    | |- (_, _) = (_, _) => apply f_equal2
    end; ring.
Qed.

Lemma fknm_jacob0_revolute_linear_zero_witness :
  (Z.of_nat (joint_count offset_elbow) <= 1)%Z /\
  (0 < joint_count offset_elbow)%nat /\
  is_revolute (nth 0 (joint_axes offset_elbow) JTx) = true /\
  fst (column_buf 1
         (Fknm._ETS_jacob0 offset_elbow 1 (fun _ => 0) None calloc)
         (Z.of_nat 0))
  = (0, 0, 0).
Proof.
  split; [apply Z.le_refl|]. split; [exact Nat.lt_0_1|].
  split; [reflexivity|].
  exact (fknm_jacob0_revolute_linear_zero offset_elbow 1 (fun _ => 0) None
           calloc 0 (Z.le_refl 1) Nat.lt_0_1 eq_refl).
Defined.

Lemma jacob0_accs_rigid (q : buf) (tool : option Mat4) (m : Z)
    (ets : list ET) : forall i U,
  rigid U -> rigid (or_identity tool) -> statics_rigid ets ->
  Forall (fun a => rigid (snd a)) (jacob0_accs q tool m ets i U).
Proof.
  induction ets as [|et rest IH]; intros i U HU Ht Hs; simpl.
  - constructor.
  - inversion Hs as [|? ? Het Hrest]; subst.
    assert (HU1 : rigid (mprod U (element_pose q et)))
      by (apply rigid_mprod; [exact HU|now apply rigid_element_pose]).
    destruct (et_isjoint et).
    + assert (HU2 : rigid match tool with
                          | Some tl => if (i =? m - 1)%Z
                                       then mprod (mprod U (element_pose q et)) tl
                                       else mprod U (element_pose q et)
                          | None => mprod U (element_pose q et)
                          end).
      { destruct tool as [tl|]; [|exact HU1].
        destruct (i =? m - 1)%Z; [|exact HU1].
        now apply rigid_mprod. }
      constructor; [exact HU2|now apply IH].
    + now apply IH.
Qed.

Lemma jacobe_accs_rigid (q : buf) (l : list ET) : forall U,
  rigid U -> statics_rigid l ->
  Forall (fun a => rigid (snd a)) (jacobe_accs q l U).
Proof.
  induction l as [|et rest IH]; intros U HU Hs; simpl.
  - constructor.
  - inversion Hs as [|? ? Het Hrest]; subst.
    assert (HU1 : rigid (mprod (element_pose q et) U))
      by (apply rigid_mprod; [now apply rigid_element_pose|exact HU]).
    destruct (et_isjoint et).
    + constructor; [exact HU|now apply IH].
    + now apply IH.
Qed.

Lemma jacob0_twist_unit (ax : JointType) (U D : Mat4) :
  rigid U -> unit_screw ax (jacob0_twist ax U D).
Proof.
  intros [_ [C00 [C11 [C22 _]]]].
  destruct U; revert C00 C11 C22. unfold_mat. intros.
  destruct ax; unfold unit_screw, is_revolute, jacob0_twist, col012, at4,
    dot3; cbn [fst snd]; unfold_mat; try split; try reflexivity; lra.
Qed.

Lemma jacobe_twist_unit (ax : JointType) (U : Mat4) :
  rigid U -> unit_screw ax (jacobe_twist ax U).
Proof.
  intros HU. pose proof (rigid_rows U HU) as [R00 [R11 [R22 _]]].
  destruct U; revert R00 R11 R22. unfold_mat. intros.
  destruct ax; unfold unit_screw, is_revolute, jacobe_twist, row012, at4,
    dot3; cbn [fst snd]; unfold_mat; try split; try reflexivity; lra.
Qed.

Lemma nth_accs (l : list (JointType * Mat4)) (k : nat) :
  (k < length l)%nat ->
  Forall (fun a => rigid (snd a)) l ->
  rigid (snd (nth k l (JRx, I4))) /\
  fst (nth k l (JRx, I4)) = nth k (map fst l) JTx.
Proof.
  intros Hk Hf. split.
  - rewrite Forall_forall in Hf. apply Hf. now apply nth_In.
  - rewrite (nth_indep (map fst l) JTx (fst (JRx, I4)))
      by now rewrite length_map.
    now rewrite map_nth.
Qed.

Lemma statics_rigid_rev (ets : list ET) :
  statics_rigid ets -> statics_rigid (rev ets).
Proof. apply Forall_rev. Qed.

Lemma rigid_tool_seed (tool : option Mat4) :
  rigid (or_identity tool) -> rigid (tool_seed tool).
Proof.
  destruct tool as [tl|]; simpl; intros H.
  - now rewrite mprod_I4_r.
  - exact rigid_I4.
Qed.

(** methods.cpp, [_ETS_jacob0] and [_ETS_jacobe], and fknm.c,
    [_ETS_jacobe]: for a chain whose Static elements and tool are rigid,
    the column of a revolute joint has a unit angular part, and the
    column of a prismatic joint has a zero angular part and a unit linear
    part.  Column k of the base-frame Jacobian belongs to joint k of the
    chain, column n - 1 - k of the tool-frame Jacobian to joint k of the
    reversed chain. *)
Theorem jacobian_columns_unit_screws (ets : list ET) (n : Z) (q : buf)
    (tool : option Mat4) (J : buf) (eJ : jmat) (k : nat) :
  statics_rigid ets -> rigid (or_identity tool) ->
  (Z.of_nat (joint_count ets) <= n)%Z ->
  (k < joint_count ets)%nat ->
  unit_screw (nth k (joint_axes ets) JTx)
    (column_jmat (Methods._ETS_jacob0 ets n q tool eJ) (Z.of_nat k)) /\
  unit_screw (nth k (joint_axes (rev ets)) JTx)
    (column_jmat (Methods._ETS_jacobe ets n q tool eJ)
       (n - 1 - Z.of_nat k)) /\
  unit_screw (nth k (joint_axes (rev ets)) JTx)
    (column_buf n (Fknm._ETS_jacobe ets n q tool J) (n - 1 - Z.of_nat k)).
Proof.
  intros Hs Ht Hn Hk.
  assert (H0 : unit_screw (nth k (joint_axes ets) JTx)
                 (twist0_of (Methods._ETS_fkine ets q None tool calloc16)
                    (nth k (jacob0_accs q tool (Z.of_nat (length ets))
                              ets 0 I4) (JRx, I4)))).
  { destruct (nth_accs (jacob0_accs q tool (Z.of_nat (length ets)) ets 0 I4)
                k) as [Hr Hax].
    - now rewrite jacob0_accs_length.
    - apply jacob0_accs_rigid; [exact rigid_I4|exact Ht|exact Hs].
    - rewrite jacob0_accs_axes in Hax. rewrite <- Hax.
      unfold twist0_of. now apply jacob0_twist_unit. }
  assert (He : unit_screw (nth k (joint_axes (rev ets)) JTx)
                 (twiste_of (nth k (jacobe_accs q (rev ets)
                                      (tool_seed tool)) (JRx, I4)))).
  { destruct (nth_accs (jacobe_accs q (rev ets) (tool_seed tool)) k)
      as [Hr Hax].
    - now rewrite jacobe_accs_length, joint_count_rev.
    - apply jacobe_accs_rigid;
        [now apply rigid_tool_seed|now apply statics_rigid_rev].
    - rewrite jacobe_accs_axes in Hax. rewrite <- Hax.
      unfold twiste_of. now apply jacobe_twist_unit. }
  rewrite methods_jacob0_column, methods_jacobe_column, fknm_jacobe_column
    by assumption.
  repeat split; assumption.
Qed.

Lemma jacobian_columns_unit_screws_witness :
  statics_rigid offset_elbow /\ rigid (or_identity None) /\
  (Z.of_nat (joint_count offset_elbow) <= 1)%Z /\
  (0 < joint_count offset_elbow)%nat /\
  unit_screw (nth 0 (joint_axes offset_elbow) JTx)
    (column_jmat
       (Methods._ETS_jacob0 offset_elbow 1 (fun _ => 0) None (fun _ _ => 0))
       (Z.of_nat 0)) /\
  unit_screw (nth 0 (joint_axes (rev offset_elbow)) JTx)
    (column_jmat
       (Methods._ETS_jacobe offset_elbow 1 (fun _ => 0) None (fun _ _ => 0))
       (1 - 1 - Z.of_nat 0)) /\
  unit_screw (nth 0 (joint_axes (rev offset_elbow)) JTx)
    (column_buf 1
       (Fknm._ETS_jacobe offset_elbow 1 (fun _ => 0) None calloc)
       (1 - 1 - Z.of_nat 0)).
Proof.
  split; [exact offset_elbow_rigid|]. split; [exact rigid_I4|].
  split; [apply Z.le_refl|]. split; [exact Nat.lt_0_1|].
  exact (jacobian_columns_unit_screws offset_elbow 1 (fun _ => 0) None
           calloc (fun _ _ => 0) 0 offset_elbow_rigid rigid_I4
           (Z.le_refl 1) Nat.lt_0_1).
Defined.

(** ** Tree propagation, further properties *)

Lemma fkine_all_loop_count (q : buf) (base : Mat4) (cnt : nat) :
  forall links s,
    Fknm.fkine_all_loop cnt links q base s
    = if (length links <? cnt)%nat then None
      else Fknm.fkine_all_loop cnt (firstn cnt links) q base s.
Proof.
  induction cnt as [|c IH]; intros links s; simpl.
  - reflexivity.
  - destruct links as [|id rest]; [reflexivity|].
    simpl length. rewrite IH.
    change (S (length rest) <? S c)%nat with (length rest <? c)%nat.
    reflexivity.
Qed.

Lemma fkine_all_loop_some (q : buf) (base : Mat4) (cnt : nat) :
  forall links s, (cnt <= length links)%nat ->
    exists s', Fknm.fkine_all_loop cnt links q base s = Some s'.
Proof.
  induction cnt as [|c IH]; intros links s Hc; simpl.
  - now exists s.
  - destruct links as [|id rest]; simpl in Hc; [lia|].
    apply IH. lia.
Qed.

(** fknm.c, [fkine_all]: the count [m] decides how much of the list is
    visited.  With more links asked for than the list holds, the function
    fails; otherwise it succeeds and visits exactly the first m links. *)
Theorem fkine_all_count (m : Z) (links : list nat) (q : buf)
    (base : Mat4) (st : LinkStore) :
  Fknm.fkine_all m links q base st
  = (if (Z.of_nat (length links) <? m)%Z then None
     else Fknm.fkine_all m (firstn (Z.to_nat m) links) q base st) /\
  ((m <= Z.of_nat (length links))%Z ->
   exists st', Fknm.fkine_all m links q base st = Some st').
Proof.
  split.
  - unfold Fknm.fkine_all. rewrite fkine_all_loop_count.
    destruct (Z.ltb_spec (Z.of_nat (length links)) m) as [H|H].
    + replace (length links <? Z.to_nat m)%nat with true
        by (symmetry; apply Nat.ltb_lt; lia).
      reflexivity.
    + replace (length links <? Z.to_nat m)%nat with false
        by (symmetry; apply Nat.ltb_ge; lia).
      reflexivity.
  - intros Hm. unfold Fknm.fkine_all.
    destruct (fkine_all_loop_some q base (Z.to_nat m) links (calloc16, st)
                ltac:(lia)) as [[ret' st'] E].
    rewrite E. now exists st'.
Qed.

Lemma fkine_all_body_same (q : buf) (base : Mat4) (id : nat) (ret : Mat4)
    (st : LinkStore) :
  let st' := snd (Fknm.fkine_all_body q base id (ret, st)) in
  (forall x, same_link (st x) (st' x)) /\
  (forall x, x <> id -> st' x = st x).
Proof.
  unfold Fknm.fkine_all_body. cbn [snd]. split.
  - intros x. unfold store_link.
    destruct (Nat.eqb_spec x id) as [->|_]; [|apply same_link_refl].
    unfold same_link. cbn. repeat split. apply set_shapes_fresh.
  - intros x Hne. now apply store_link_other.
Qed.

Lemma fkine_all_loop_same (q : buf) (base : Mat4) (cnt : nat) :
  forall links ret st,
    match Fknm.fkine_all_loop cnt links q base (ret, st) with
    | Some (_, st') =>
        (forall x, same_link (st x) (st' x)) /\
        (forall x, ~ In x (firstn cnt links) -> st' x = st x)
    | None => True
    end.
Proof.
  induction cnt as [|c IH]; intros links ret st;
    cbn [Fknm.fkine_all_loop firstn].
  - split; [intros; apply same_link_refl|reflexivity].
  - destruct links as [|id rest]; [exact I|].
    pose proof (fkine_all_body_same q base id ret st) as [Hs Hf].
    destruct (Fknm.fkine_all_body q base id (ret, st)) as [ret1 st1] eqn:E.
    cbn [snd] in Hs, Hf.
    specialize (IH rest ret1 st1).
    destruct (Fknm.fkine_all_loop c rest q base (ret1, st1))
      as [[ret' st']|]; [|exact I].
    destruct IH as [Hs' Hf']. split.
    + intros x. eapply same_link_trans; [apply Hs|apply Hs'].
    + intros x Hx. cbn [firstn In] in Hx.
      rewrite Hf' by (intros Hin; apply Hx; now right).
      apply Hf. intros ->. apply Hx. now left.
Qed.

(** fknm.c, [fkine_all] changes nothing but caches: whatever the order
    and the parents of the links, a pass that succeeds leaves the
    descriptor of every link as it was (joint flag, flip flag, joint
    index, axis, static transform, parent, shape offsets), and leaves
    the links it does not visit untouched. *)
Theorem fkine_all_keeps_descriptors (m : Z) (links : list nat) (q : buf)
    (base : Mat4) (st : LinkStore) :
  match Fknm.fkine_all m links q base st with
  | Some st' =>
      (forall x, same_link (st x) (st' x)) /\
      (forall x, ~ In x (firstn (Z.to_nat m) links) -> st' x = st x)
  | None => True
  end.
Proof.
  unfold Fknm.fkine_all.
  pose proof (fkine_all_loop_same q base (Z.to_nat m) links calloc16 st)
    as H.
  destruct (Fknm.fkine_all_loop _ _ _ _ _) as [[ret' st']|]; exact H.
Qed.

Lemma fk_determined (q : buf) (base : Mat4) (st : LinkStore)
    (f g : nat -> Mat4) (links : list nat) :
  parents_first st links ->
  (forall x, ~ In x links -> f x = g x) ->
  (forall x, In x links ->
     f x = match link_parent (st x) with
           | Some p => mprod (f p) (link_local q (st x))
           | None => mprod base (link_local q (st x))
           end) ->
  (forall x, In x links ->
     g x = match link_parent (st x) with
           | Some p => mprod (g p) (link_local q (st x))
           | None => mprod base (link_local q (st x))
           end) ->
  forall x, f x = g x.
Proof.
  induction links as [|id rest IH]; intros Hpf Hout Hf Hg x.
  - now apply Hout.
  - destruct Hpf as [Hp Hrest].
    assert (Hid : f id = g id).
    { rewrite (Hf id (or_introl eq_refl)), (Hg id (or_introl eq_refl)).
      destruct (link_parent (st id)) as [p|]; [|reflexivity].
      destruct (Hp p eq_refl) as [Hne Hnin].
      rewrite (Hout p); [reflexivity|].
      intros [E|Hin]; [now apply Hne|now apply Hnin]. }
    apply IH; try assumption.
    + intros y Hy. destruct (Nat.eq_dec y id) as [->|Hne]; [exact Hid|].
      apply Hout. intros [E|Hin]; [now apply Hne|now apply Hy].
    + intros y Hy. apply Hf. now right.
    + intros y Hy. apply Hg. now right.
Qed.

Lemma fresh_same_caches (fk : Mat4) (l : list Shape) : forall l',
  map shape_base l' = map shape_base l ->
  Forall (shape_fresh fk) l -> Forall (shape_fresh fk) l' ->
  Forall2 same_caches l l'.
Proof.
  induction l as [|s l IH]; intros [|s' l'] Hb Hl Hl';
    try discriminate; [constructor|].
  inversion Hl as [|? ? [W [S Q]] Hl0]; subst.
  inversion Hl' as [|? ? [W' [S' Q']] Hl0']; subst.
  simpl in Hb. injection Hb as Hbs Hbl.
  constructor; [|now apply IH].
  assert (ES : shape_sT s' = shape_sT s) by (rewrite S, S'; now rewrite Hbs).
  unfold same_caches. split; [congruence|]. split; [exact ES|].
  intros k Hk. rewrite Q, Q' by exact Hk. now rewrite ES.
Qed.

Lemma same_caches_refl (l : list Shape) : Forall2 same_caches l l.
Proof.
  induction l as [|s l IH]; constructor; [|exact IH].
  unfold same_caches. repeat split.
Qed.

(** fknm.c, [fkine_all] is idempotent on its caches: over links in
    parent-before-child order, a second pass at the same configuration
    and base leaves every world pose and every shape cache (world
    transform, offset pose, quaternion) as the first pass set them. *)
Theorem fkine_all_idempotent (links : list nat) (q : buf) (base : Mat4)
    (st : LinkStore) :
  parents_first st links ->
  exists st' st'',
    Fknm.fkine_all (Z.of_nat (length links)) links q base st = Some st' /\
    Fknm.fkine_all (Z.of_nat (length links)) links q base st' = Some st'' /\
    forall x,
      link_fk (st'' x) = link_fk (st' x) /\
      Forall2 same_caches (link_shapes (st' x)) (link_shapes (st'' x)).
Proof.
  intros Hpf.
  destruct (fkine_all_loop_spec q base links calloc16 st Hpf)
    as [ret1 [st' [E1 [F1 [S1 D1]]]]].
  pose proof (parents_first_same st st' links S1 Hpf) as Hpf'.
  destruct (fkine_all_loop_spec q base links calloc16 st' Hpf')
    as [ret2 [st'' [E2 [F2 [S2 D2]]]]].
  exists st', st''. unfold Fknm.fkine_all. rewrite Nat2Z.id, E1, E2.
  split; [reflexivity|]. split; [reflexivity|].
  assert (Hfk : forall x, link_fk (st' x) = link_fk (st'' x)).
  { apply (fk_determined q base st
             (fun x => link_fk (st' x)) (fun x => link_fk (st'' x)) links
             Hpf).
    - intros x Hx. now rewrite F2.
    - intros x Hx. destruct (D1 x Hx) as [H _]. exact H.
    - intros x Hx. destruct (D2 x Hx) as [H _]. rewrite H.
      destruct (S1 x) as [_ [_ [_ [_ [_ [Hp _]]]]]].
      rewrite Hp, (same_link_local q (st x) (st' x) (S1 x)).
      reflexivity. }
  intros x. split; [now rewrite Hfk|].
  destruct (in_dec Nat.eq_dec x links) as [Hin|Hnin].
  - destruct (D1 x Hin) as [_ Hs1]. destruct (D2 x Hin) as [_ Hs2].
    rewrite <- Hfk in Hs2.
    apply (fresh_same_caches (link_fk (st' x))); try assumption.
    destruct (S2 x) as [_ [_ [_ [_ [_ [_ Hb]]]]]]. exact Hb.
  - rewrite F2 by exact Hnin. apply same_caches_refl.
Qed.

Lemma fkine_all_idempotent_witness :
  parents_first two_links [0; 1]%nat /\
  exists st' st'',
    Fknm.fkine_all 2 [0; 1]%nat (fun _ => 0) I4 two_links = Some st' /\
    Fknm.fkine_all 2 [0; 1]%nat (fun _ => 0) I4 st' = Some st'' /\
    forall x,
      link_fk (st'' x) = link_fk (st' x) /\
      Forall2 same_caches (link_shapes (st' x)) (link_shapes (st'' x)).
Proof.
  split; [exact two_links_ordered|].
  exact (fkine_all_idempotent [0; 1]%nat (fun _ => 0) I4 two_links
           two_links_ordered).
Defined.
